(** * Schematic viewer: decoders, voxel grid and flood fill

    A shallow embedding of [parser.js] (varint decoder, Sponge [.schem]
    adapter, Litematic adapter), of [getBaseBlockId] / [isAir] from
    [blockColors.js] and of [floodFill] from [app.js], with the properties
    the specification states about them; and of the rest of [app.js] that
    computes on the grid (materials list, placed marks, layer navigation,
    hover highlight, stack indicator, perimeter segments, stack notation,
    file loading) and of [getBlockDisplayName], with further properties.

    Conventions.
    - JavaScript numbers that hold integers are [Z]; the programs only use
      integers far below 2^53, where double arithmetic is exact. The one
      exception is the product Width * Height * Length, which is rounded
      when it is larger; it is then only compared with the largest length
      of a typed array, and rounding does not change that comparison.
    - 32-bit operators ([|], [<<]) and [Int32Array] stores wrap with
      [toInt32]; BigInt arithmetic is unbounded [Z] arithmetic and
      [BigInt.asUintN(64, _)] is reduction modulo 2^64.
    - A value that may be [null]/[undefined] is an [option]; a thrown
      exception is the left injection of a sum.
    - Strings are [string]; [toLowerCase] is ASCII lower-casing (block
      state descriptors are ASCII). *)

From Stdlib Require Import ZArith List Lia Bool String Ascii.
From Stdlib Require Import Permutation Sorted.
From Stdlib Require Decimal DecimalString DecimalZ.
From Equations Require Import Equations.
Import ListNotations.

Local Open Scope Z_scope.

(** ** JavaScript primitives used by the sources *)

Module JS.

(** [ToInt32]: the signed 32-bit reading of an integer. *)
Definition toInt32 (z : Z) : Z := (z + 2 ^ 31) mod 2 ^ 32 - 2 ^ 31.

(** [a << s] on numbers: the shift count is taken modulo 32 and the result
    wraps to 32 bits. *)
Definition shl32 (a s : Z) : Z := toInt32 (Z.shiftl (toInt32 a) (s mod 32)).

(** [a | b] on numbers. *)
Definition or32 (a b : Z) : Z := Z.lor (toInt32 a) (toInt32 b).

(** [a & b] on numbers. *)
Definition and32 (a b : Z) : Z := Z.land (toInt32 a) (toInt32 b).

(** The largest length a typed array may be asked for: [new Int32Array(n)]
    throws a [RangeError] when [n] is negative or above 2^53 - 1. An engine
    may refuse a smaller length for lack of memory; that is not modelled. *)
Definition maxTypedArrayLength : Z := 2 ^ 53 - 1.

(** Whether [new Int32Array(n)] throws its [RangeError]. *)
Definition invalidLength (n : Z) : bool :=
  (n <? 0) || (n >? maxTypedArrayLength).

(** [BigInt.asUintN(64, x)]. *)
Definition asUintN64 (x : Z) : Z := x mod 2 ^ 64.

(** [Math.ceil(a / b)] for integers [a] and positive [b]. *)
Definition ceil_div (a b : Z) : Z := - ((- a) / b).

(** [Math.ceil(Math.log2(n))] for a positive integer [n]. *)
Definition ceil_log2 (n : Z) : Z := Z.log2_up n.

(** Truthiness of a string-or-null value: [null], [undefined] and the empty
    string are falsy. *)
Definition truthy (s : option string) : bool :=
  match s with
  | None => false
  | Some EmptyString => false
  | Some _ => true
  end.

(** [a || b] on string-or-null values. *)
Definition or_else (a b : option string) : option string :=
  if truthy a then a else b.

(** [a === b] on string-or-null values. *)
Definition strict_eq (a b : option string) : bool :=
  match a, b with
  | Some x, Some y => String.eqb x y
  | None, None => true
  | _, _ => false
  end.

Definition lower_ascii (c : ascii) : ascii :=
  let n := nat_of_ascii c in
  if (Nat.leb 65 n && Nat.leb n 90)%bool then ascii_of_nat (n + 32)%nat else c.

(** [s.toLowerCase()]. *)
Fixpoint toLowerCase (s : string) : string :=
  match s with
  | EmptyString => EmptyString
  | String c r => String (lower_ascii c) (toLowerCase r)
  end.

(** [s.split(sep)[0]] for a one-character separator: what comes before the
    first occurrence of [sep]. *)
Fixpoint split_head (sep : ascii) (s : string) : string :=
  match s with
  | EmptyString => EmptyString
  | String c r => if Ascii.eqb c sep then EmptyString else String c (split_head sep r)
  end.

Fixpoint drop (n : nat) (s : string) : string :=
  match n, s with
  | O, _ => s
  | S k, EmptyString => EmptyString
  | S k, String _ r => drop k r
  end.

(** [s.replace(pat, '')] with a string pattern: only the first occurrence
    of [pat], wherever it is, is removed. *)
Fixpoint remove_first (pat s : string) : string :=
  if String.prefix pat s then drop (String.length pat) s
  else match s with
       | EmptyString => EmptyString
       | String c r => String c (remove_first pat r)
       end.

End JS.

(** ** Errors thrown by the parsers *)

Inductive error : Type :=
| RangeError_InvalidTypedArrayLength        (* new Int32Array(n), n invalid *)
| Error_UnexpectedEndOfVarint (i : Z)       (* decodeVarintArray *)
| Error_NoPalette                           (* parseSchem *)
| Error_NoBlockData                         (* parseSchem *)
| Error_NoRegions                           (* parseLitematic *)
| Error_EmptyRegions                        (* parseLitematic *)
| Error_NoBlockStatePalette                 (* parseLitematic *)
| Error_NoBlockStates                       (* parseLitematic *)
| TypeError_UndefinedToBigInt.              (* BigInt(undefined) *)

Definition result (A : Type) : Type := (error + A)%type.
Definition ok {A} (a : A) : result A := inr a.
Definition throw {A} (e : error) : result A := inl e.

Definition bind {A B} (r : result A) (k : A -> result B) : result B :=
  match r with
  | inl e => inl e
  | inr a => k a
  end.

Notation "'let*' x ':=' r 'in' k" := (bind r (fun x => k))
  (at level 10, x name, r at level 100, k at level 200).

(** ** parser.js: the varint decoder *)

Module Varint.

Import JS.

(** The [do ... while ((b & 0x80) !== 0)] loop of [decodeVarintArray]. The
    cursor is the list of bytes not yet consumed; [None] is the [throw]
    taken when the cursor has reached the end of the buffer. *)
Fixpoint readVarint (bytes : list Z) (value shift : Z) : option (Z * list Z) :=
  match bytes with
  | [] => None
  | b :: rest =>
      let value' := or32 value (shl32 (and32 b 127) shift) in
      let shift' := shift + 7 in
      if negb (and32 b 128 =? 0) then readVarint rest value' shift'
      else Some (value', rest)
  end.

(** The [for] loop over [i], with [n] iterations left. *)
Fixpoint decodeFrom (n : nat) (i : Z) (bytes : list Z) : result (list Z) :=
  match n with
  | O => ok []
  | S k =>
      match readVarint bytes 0 0 with
      | None => throw (Error_UnexpectedEndOfVarint i)
      | Some (value, rest) =>
          let* tail := decodeFrom k (i + 1) rest in
          ok (toInt32 value :: tail)
      end
  end.

(** [decodeVarintArray(bytes, expectedCount)]. The array is allocated
    before the first byte is read: [new Int32Array(expectedCount)] throws
    a [RangeError] for a negative and for an oversized count. *)
Definition decodeVarintArray (bytes : list Z) (expectedCount : Z) : result (list Z) :=
  if invalidLength expectedCount then throw RangeError_InvalidTypedArrayLength
  else decodeFrom (Z.to_nat expectedCount) 0 bytes.

(** Modelled from the spec: the LEB128 encoder of the round-trip property,
    which the repository does not contain. Seven low bits per byte, least
    significant group first, the high bit set on every byte but the last
    of a value. *)
Equations? encodeVarint (v : Z) : list Z by wf (Z.to_nat (Z.log2 v)) lt :=
  encodeVarint v with Z_lt_dec v 128 := {
    | left _ => [v]
    | right _ => (v mod 128 + 128) :: encodeVarint (v / 128) }.
Proof.
  change 128 with (2 ^ 7). rewrite <- Z.shiftr_div_pow2, Z.log2_shiftr by lia.
  assert (7 <= Z.log2 v) by (apply Z.log2_le_pow2; lia).
  lia.
Qed.

Definition encodeVarintArray (vs : list Z) : list Z := flat_map encodeVarint vs.

(** A byte that ends a varint: its continuation bit is clear. *)
Definition terminator (b : Z) : bool := and32 b 128 =? 0.

(** The number of complete varints a buffer holds: one per terminating
    byte. *)
Definition completeVarints (bytes : list Z) : Z :=
  Z.of_nat (List.length (filter terminator bytes)).

End Varint.

(** ** blockColors.js: base identifier and air classification *)

Module BlockColors.

Import JS.

(** [getBaseBlockId(blockState)]: the descriptor without properties and
    namespace, or [null] for a falsy descriptor. *)
Definition getBaseBlockId (blockState : option string) : option string :=
  match blockState with
  | Some s =>
      if truthy blockState
      then Some (remove_first "minecraft:" (toLowerCase (split_head "[" s)))
      else None
  | None => None
  end.

(** [isAir(blockState)]. *)
Definition isAir (blockState : option string) : bool :=
  match blockState with
  | Some s =>
      if truthy blockState
      then
        let b := toLowerCase (split_head "[" s) in
        (b =? "minecraft:air")%string || (b =? "minecraft:cave_air")%string
        || (b =? "minecraft:void_air")%string || (b =? "air")%string
      else true
  | None => true
  end.

End BlockColors.

(** ** parser.js: the unified schematic object *)

(** A JavaScript array of strings as [parseSchem] builds it: the elements
    [0 .. length-1] (a [null] element is [None]) and, apart from them, the
    properties that an assignment at a negative index creates. [forEach]
    walks the elements only; a read [a[i]] sees both. *)
Record JSArray : Type := mkArray {
  elems : list (option string);
  negs : list (Z * string)
}.

Module JSArray.

Fixpoint assoc (i : Z) (l : list (Z * string)) : option string :=
  match l with
  | [] => None
  | (k, v) :: r => if k =? i then Some v else assoc i r
  end.

(** [a[i]], [None] standing for [null] and [undefined] alike. *)
Definition get (a : JSArray) (i : Z) : option string :=
  if i <? 0 then assoc i (negs a)
  else match nth_error (elems a) (Z.to_nat i) with
       | Some e => e
       | None => None
       end.

Fixpoint update (l : list (option string)) (n : nat) (v : string) : list (option string) :=
  match l, n with
  | [], O => [Some v]
  | [], S k => None :: update [] k v
  | _ :: r, O => Some v :: r
  | e :: r, S k => e :: update r k v
  end.

(** [a[i] = v]: an element inside the array is overwritten, a negative
    index adds a property. An index past the end would extend the array
    (the holes are rendered as [None]); [buildPalette] never does that, its
    array reaching up to the largest index. *)
Definition set (a : JSArray) (i : Z) (v : string) : JSArray :=
  if i <? 0 then mkArray (elems a) ((i, v) :: negs a)
  else mkArray (update (elems a) (Z.to_nat i) v) (negs a).

(** [new Array(n).fill(null)]. *)
Definition filled (n : Z) : JSArray := mkArray (repeat None (Z.to_nat n)) [].

Definition of_list (l : list string) : JSArray := mkArray (map Some l) [].

Definition length (a : JSArray) : Z := Z.of_nat (List.length (elems a)).

End JSArray.

Record Schematic : Type := mkSchematic {
  width : Z;
  height : Z;
  length : Z;
  name : string;
  paletteList : JSArray;
  getBlock : Z -> Z -> Z -> option string;
  totalNonAir : Z
}.

(** ** parser.js: Sponge Schematic v2 (.schem) *)

Module Schem.

Import JS Varint.

(** The compound tree [parseSchem] reads. [Width], [Height] and [Length]
    are NBT integers. *)
Record Metadata : Type := mkMetadata {
  Name : option string;
  name_lower : option string          (* the key [name] *)
}.

Record Root : Type := mkRoot {
  Width : Z;
  Height : Z;
  Length : Z;
  Metadata_ : option Metadata;
  Palette : option (list (string * Z));   (* entries in enumeration order *)
  BlockData : option (list Z)             (* signed or unsigned bytes *)
}.

(** [nbtData]: its own fields, and the optional [Schematic] compound that
    may wrap the root. *)
Record Nbt : Type := mkNbt {
  Schematic_ : option Root;
  self : Root
}.

Definition index (width length x y z : Z) : Z :=
  x + z * width + y * width * length.

Definition out_of_range (width height length x y z : Z) : bool :=
  (x <? 0) || (x >=? width) || (y <? 0) || (y >=? height)
  || (z <? 0) || (z >=? length).

(** [blockIndices[index]] on an [Int32Array]. *)
Definition typed_get (a : list Z) (i : Z) : option Z :=
  if i <? 0 then None else nth_error a (Z.to_nat i).

(** The closure [getBlock] of [parseSchem]. *)
Definition getBlock (width height length : Z) (blockIndices : list Z)
    (paletteList : JSArray) (x y z : Z) : option string :=
  if out_of_range width height length x y z then None
  else
    let index := index width length x y z in
    match typed_get blockIndices index with
    | Some paletteIdx => or_else (JSArray.get paletteList paletteIdx) None
    | None => None
    end.

(** The test inside [paletteList.forEach]. *)
Definition air_state (state : option string) : bool :=
  negb (truthy state)
  || strict_eq state (Some "minecraft:air"%string)
  || strict_eq state (Some "minecraft:cave_air"%string)
  || strict_eq state (Some "minecraft:void_air"%string).

(** [airIndices] after the [forEach], as the list of the indices added. *)
Fixpoint airIndicesFrom (idx : Z) (states : list (option string)) : list Z :=
  match states with
  | [] => []
  | state :: r =>
      if air_state state then idx :: airIndicesFrom (idx + 1) r
      else airIndicesFrom (idx + 1) r
  end.

Definition has (s : list Z) (v : Z) : bool := existsb (Z.eqb v) s.

Definition countNonAir (airIndices blockIndices : list Z) : Z :=
  fold_left (fun total v => if negb (has airIndices v) then total + 1 else total)
            blockIndices 0.

Definition buildPalette (paletteTag : list (string * Z)) : JSArray :=
  let maxIndex := fold_left (fun a e => Z.max a (snd e)) paletteTag 0 in
  fold_left (fun pl e => JSArray.set pl (snd e) (fst e)) paletteTag
            (JSArray.filled (maxIndex + 1)).

(** [nbtData.Schematic || nbtData]. *)
Definition rootOf (nbtData : Nbt) : Root :=
  match Schematic_ nbtData with Some r => r | None => self nbtData end.

Definition parseSchem (nbtData : Nbt) : result Schematic :=
  let root := rootOf nbtData in
  let width := Width root in
  let height := Height root in
  let length := Length root in
  let name :=
    or_else (match Metadata_ root with Some m => Name m | None => None end)
      (or_else (match Metadata_ root with Some m => name_lower m | None => None end)
         (Some "Unnamed"%string)) in
  match Palette root with
  | None => throw Error_NoPalette
  | Some paletteTag =>
      let paletteList := buildPalette paletteTag in
      match BlockData root with
      | None => throw Error_NoBlockData
      | Some blockDataRaw =>
          let bytes := map (fun b => b mod 256) blockDataRaw in
          let totalBlocks := width * height * length in
          let* blockIndices := decodeVarintArray bytes totalBlocks in
          let airIndices := airIndicesFrom 0 (elems paletteList) in
          let totalNonAir := countNonAir airIndices blockIndices in
          ok (mkSchematic width height length
                (match name with Some n => n | None => EmptyString end)
                paletteList
                (getBlock width height length blockIndices paletteList)
                totalNonAir)
      end
  end.

End Schem.

(** ** parser.js: Litematic (.litematic) *)

Module Litematic.

Import JS.

Record Metadata : Type := mkMetadata {
  Name : option string
}.

Record Entry : Type := mkEntry {
  entryName : string;                              (* the key [Name] *)
  Properties : option (list (string * string))     (* in enumeration order *)
}.

(** [Size], each component already resolved by [size.x ?? size.X]. *)
Record SizeTag : Type := mkSize { x : Z; y : Z; z : Z }.

Record Region : Type := mkRegion {
  Size : SizeTag;
  BlockStatePalette : option (list Entry);
  BlockStates : option (list Z)                    (* signed 64-bit words *)
}.

(** [nbtData]; the keys of [Regions] in the order [Object.keys] lists
    them. *)
Record Nbt : Type := mkNbt {
  Regions : option (list (string * Region));
  Metadata_ : option Metadata
}.

(** [regions[key]]. *)
Fixpoint lookup (key : string) (regions : list (string * Region)) : option Region :=
  match regions with
  | [] => None
  | (k, r) :: rest => if String.eqb k key then Some r else lookup key rest
  end.

Definition bitsPerEntry (paletteLength : Z) : Z := Z.max 2 (ceil_log2 paletteLength).
Definition entriesPerLong (bitsPerEntry : Z) : Z := 64 / bitsPerEntry.
Definition mask (bitsPerEntry : Z) : Z := Z.shiftl 1 bitsPerEntry - 1.

Definition expectedSpanning (totalBlocks bitsPerEntry : Z) : Z :=
  ceil_div (totalBlocks * bitsPerEntry) 64.
Definition expectedNonSpanning (totalBlocks bitsPerEntry : Z) : Z :=
  ceil_div totalBlocks (64 / bitsPerEntry).
Definition isSpanning (blockStatesLong : list Z) (totalBlocks bitsPerEntry : Z) : bool :=
  (Z.of_nat (List.length blockStatesLong) =? expectedSpanning totalBlocks bitsPerEntry)
  && negb (expectedSpanning totalBlocks bitsPerEntry
           =? expectedNonSpanning totalBlocks bitsPerEntry).

(** [blockStatesLong[i]], [None] for [undefined]. *)
Definition word (blockStatesLong : list Z) (i : Z) : option Z :=
  if i <? 0 then None else nth_error blockStatesLong (Z.to_nat i).

(** The body of the spanning loop: the palette index of entry [i].
    [BigInt(undefined)] throws a [TypeError]. *)
Definition spanningEntry (blockStatesLong : list Z) (bitsPerEntry i : Z) : result Z :=
  let mask := mask bitsPerEntry in
  let startBit := i * bitsPerEntry in
  let startIndex := startBit / 64 in
  let endBit := startBit + bitsPerEntry - 1 in
  let endIndex := endBit / 64 in
  let startBitOffset := startBit mod 64 in
  match word blockStatesLong startIndex with
  | None => throw TypeError_UndefinedToBigInt
  | Some w =>
      let val1 := asUintN64 w in
      if startIndex =? endIndex then
        ok (Z.land (Z.shiftr val1 startBitOffset) mask)
      else
        let endBitOffset := 64 - startBitOffset in
        let nextLong :=
          match word blockStatesLong endIndex with Some n => n | None => 0 end in
        let val2 := asUintN64 nextLong in
        let part1 := Z.land (Z.shiftr val1 startBitOffset) mask in
        let part2 := Z.land (Z.shiftl val2 endBitOffset) mask in
        ok (Z.lor part1 part2)
  end.

(** The body of the non-spanning loop. *)
Definition nonSpanningEntry (blockStatesLong : list Z) (bitsPerEntry i : Z) : result Z :=
  let entriesPerLong := entriesPerLong bitsPerEntry in
  let longIndex := i / entriesPerLong in
  let bitOffset := (i mod entriesPerLong) * bitsPerEntry in
  let longVal :=
    match word blockStatesLong longIndex with Some w => w | None => 0 end in
  let unsignedLong := asUintN64 longVal in
  ok (Z.land (Z.shiftr unsignedLong bitOffset) (mask bitsPerEntry)).

(** [for (let i = ...; i < totalBlocks; i++) blockIndices[i] = entry(i)],
    with [n] iterations left; the store into the [Int32Array] wraps. *)
Fixpoint fillFrom (entry : Z -> result Z) (n : nat) (i : Z) : result (list Z) :=
  match n with
  | O => ok []
  | S k =>
      let* paletteIdx := entry i in
      let* tail := fillFrom entry k (i + 1) in
      ok (toInt32 paletteIdx :: tail)
  end.

Definition decodeBlockStates (blockStatesLong : list Z) (paletteLength totalBlocks : Z)
    : result (list Z) :=
  let bitsPerEntry := bitsPerEntry paletteLength in
  if isSpanning blockStatesLong totalBlocks bitsPerEntry
  then fillFrom (spanningEntry blockStatesLong bitsPerEntry) (Z.to_nat totalBlocks) 0
  else fillFrom (nonSpanningEntry blockStatesLong bitsPerEntry) (Z.to_nat totalBlocks) 0.

Definition index (width length x y z : Z) : Z :=
  y * length * width + z * width + x.

(** The closure [getBlock] of [parseLitematic]. *)
Definition getBlock (width height length : Z) (blockIndices : list Z)
    (paletteList : JSArray) (x y z : Z) : option string :=
  if Schem.out_of_range width height length x y z then None
  else
    let index := index width length x y z in
    match Schem.typed_get blockIndices index with
    | Some paletteIdx => or_else (JSArray.get paletteList paletteIdx) None
    | None => None
    end.

(** The test inside [paletteList.forEach]. *)
Definition air_state (state : string) : bool :=
  let base := toLowerCase (split_head "[" state) in
  (base =? "minecraft:air")%string || (base =? "minecraft:cave_air")%string
  || (base =? "minecraft:void_air")%string.

Fixpoint airIndicesFrom (idx : Z) (states : list string) : list Z :=
  match states with
  | [] => []
  | state :: r =>
      if air_state state then idx :: airIndicesFrom (idx + 1) r
      else airIndicesFrom (idx + 1) r
  end.

Section WithCollation.

(** [a.localeCompare(b)], which depends on the host's locale. *)
Variable localeCompare : string -> string -> comparison.

Fixpoint insert (e : string * string) (sorted : list (string * string))
    : list (string * string) :=
  match sorted with
  | [] => [e]
  | h :: t =>
      match localeCompare (fst e) (fst h) with
      | Lt => e :: sorted
      | _ => h :: insert e t
      end
  end.

(** [entries.sort(([a], [b]) => a.localeCompare(b))]; the sort is
    stable. *)
Definition sortEntries (entries : list (string * string)) : list (string * string) :=
  fold_left (fun sorted e => insert e sorted) entries [].

(** The callback of [palette.map]. *)
Definition descriptor (entry : Entry) : string :=
  match Properties entry with
  | Some ((_ :: _) as properties) =>
      let props :=
        String.concat ","
          (map (fun kv => fst kv ++ "=" ++ snd kv) (sortEntries properties)) in
      entryName entry ++ "[" ++ props ++ "]"
  | _ => entryName entry
  end%string.

Definition parseLitematic (nbtData : Nbt) : result Schematic :=
  match Regions nbtData with
  | None => throw Error_NoRegions
  | Some regions =>
      let regionName := option_map fst (hd_error regions) in
      match match regionName with Some k => lookup k regions | None => None end with
      | None => throw Error_EmptyRegions
      | Some region =>
          let size := Size region in
          let width := Z.abs (x size) in
          let height := Z.abs (y size) in
          let length := Z.abs (z size) in
          match BlockStatePalette region with
          | None | Some [] => throw Error_NoBlockStatePalette
          | Some palette =>
              let paletteList := map descriptor palette in
              match BlockStates region with
              | None => throw Error_NoBlockStates
              | Some blockStatesLong =>
                  let totalBlocks := width * height * length in
                  (* const blockIndices = new Int32Array(totalBlocks) *)
                  if invalidLength totalBlocks
                  then throw RangeError_InvalidTypedArrayLength
                  else
                  let* blockIndices :=
                    decodeBlockStates blockStatesLong
                      (Z.of_nat (List.length palette)) totalBlocks in
                  let airIndices := airIndicesFrom 0 paletteList in
                  let totalNonAir := Schem.countNonAir airIndices blockIndices in
                  let name :=
                    or_else
                      (match Metadata_ nbtData with Some m => Name m | None => None end)
                      (or_else regionName (Some "Unnamed"%string)) in
                  ok (mkSchematic width height length
                        (match name with Some n => n | None => EmptyString end)
                        (JSArray.of_list paletteList)
                        (getBlock width height length blockIndices
                           (JSArray.of_list paletteList))
                        totalNonAir)
              end
          end
      end
  end.

End WithCollation.

End Litematic.

(** ** app.js: flood fill over one layer *)

Module App.

Import JS BlockColors.

Definition cell : Type := (Z * Z)%type.

Definition cell_eqb (a b : cell) : bool :=
  (fst a =? fst b) && (snd a =? snd b).

(** The result object of [floodFill]. [cells] is the [Set] of keys in
    insertion order; the key ["x,z"] of a cell is the pair [(x, z)], the
    decimal rendering of two integers around a comma being injective. *)
Record Region : Type := mkRegion {
  cells : list cell;
  minX : Z;
  minZ : Z;
  maxX : Z;
  maxZ : Z;
  w : Z;
  h : Z;
  count : Z
}.

(** The variables the [while] loop updates. *)
Record Fill : Type := mkFill {
  f_cells : list cell;
  f_queue : list cell;
  f_minX : Z;
  f_maxX : Z;
  f_minZ : Z;
  f_maxZ : Z
}.

Section WithSchematic.

(** The module-level variables [schematic] and [currentLayer]. *)
Variable schematic : Schematic.
Variable currentLayer : Z.

Definition has (cells : list cell) (key : cell) : bool :=
  existsb (cell_eqb key) cells.

(** The body of [for (const [nx, nz] of neighbors)]. *)
Definition visit (baseId : string) (st : Fill) (n : cell) : Fill :=
  let (nx, nz) := n in
  if has (f_cells st) n then st
  else if (nx <? 0) || (nx >=? width schematic)
          || (nz <? 0) || (nz >=? length schematic) then st
  else
    let neighborId := getBaseBlockId (getBlock schematic nx currentLayer nz) in
    if strict_eq neighborId (Some baseId) then
      mkFill (f_cells st ++ [n]) (f_queue st ++ [n])
             (if nx <? f_minX st then nx else f_minX st)
             (if nx >? f_maxX st then nx else f_maxX st)
             (if nz <? f_minZ st then nz else f_minZ st)
             (if nz >? f_maxZ st then nz else f_maxZ st)
    else st.

Definition neighbors (c : cell) : list cell :=
  let (cx, cz) := c in
  [(cx - 1, cz); (cx + 1, cz); (cx, cz - 1); (cx, cz + 1)].

(** One iteration of [while (queue.length > 0)]: [queue.shift()], then
    the four neighbours in order. *)
Definition step (baseId : string) (st : Fill) (c : cell) (rest : list cell) : Fill :=
  fold_left (visit baseId) (neighbors c)
    (mkFill (f_cells st) rest (f_minX st) (f_maxX st) (f_minZ st) (f_maxZ st)).

(** The [while] loop, cut off after [fuel] iterations ([None]). *)
Fixpoint loop (fuel : nat) (baseId : string) (st : Fill) : option Fill :=
  match f_queue st with
  | [] => Some st
  | c :: rest =>
      match fuel with
      | O => None
      | S fuel' => loop fuel' baseId (step baseId st c rest)
      end
  end.

(** [floodFill(startX, startZ)] with an explicit iteration budget. The
    outer [None] is the budget running out, the inner one is [null]. *)
Definition floodFillWith (fuel : nat) (startX startZ : Z) : option (option Region) :=
  let baseId := getBaseBlockId (getBlock schematic startX currentLayer startZ) in
  match baseId with
  | Some id =>
      if negb (truthy baseId) || isAir (Some ("minecraft:" ++ id)%string)
      then Some None
      else
        match loop fuel id
                (mkFill [(startX, startZ)] [(startX, startZ)]
                   startX startX startZ startZ) with
        | None => None
        | Some st =>
            let w := f_maxX st - f_minX st + 1 in
            let h := f_maxZ st - f_minZ st + 1 in
            Some (Some (mkRegion (f_cells st) (f_minX st) (f_minZ st)
                          (f_maxX st) (f_maxZ st) w h
                          (Z.of_nat (List.length (f_cells st)))))
        end
  | None => Some None
  end.

(** Every iteration dequeues a cell that was admitted once, and only
    cells of the layer are admitted: a budget of one iteration per cell
    of the layer is enough (see [loop_terminates]). *)
Definition floodFill (startX startZ : Z) : option (option Region) :=
  floodFillWith (Z.to_nat (width schematic * length schematic)) startX startZ.

End WithSchematic.

End App.

(** ** Reference notions the properties are stated against *)

Module Spec.

Import JS.

(** The bit stream a word array stands for: the words read as unsigned
    64-bit numbers, the first one lowest. *)
Fixpoint bitstream (words : list Z) : Z :=
  match words with
  | [] => 0
  | w :: rest => asUintN64 w + 2 ^ 64 * bitstream rest
  end.

(** The entry of [bitsPerEntry] bits at absolute bit offset
    [i * bitsPerEntry] of the stream. *)
Definition entryAt (words : list Z) (bitsPerEntry i : Z) : Z :=
  Z.land (Z.shiftr (bitstream words) (i * bitsPerEntry)) (Z.ones bitsPerEntry).

(** [0, 1, ..., n-1]. *)
Definition range (n : Z) : list Z := map Z.of_nat (seq 0 (Z.to_nat n)).

(** The coordinates of a grid, in the scan order of [computeMaterials]. *)
Definition allCells (g : Schematic) : list (Z * Z * Z) :=
  flat_map (fun y =>
    flat_map (fun z =>
      map (fun x => (x, y, z)) (range (width g)))
      (range (length g)))
    (range (height g)).

(** The number of cells whose block [isAir] does not classify as air. *)
Definition nonAirCells (g : Schematic) : Z :=
  Z.of_nat (List.length
    (filter (fun c => negb (BlockColors.isAir
                              (getBlock g (fst (fst c)) (snd (fst c)) (snd c))))
            (allCells g))).

(** The grid invariant: [getBlock] answers only inside the dimensions. *)
Definition bounded (g : Schematic) : Prop :=
  forall x y z, getBlock g x y z <> None ->
    0 <= x < width g /\ 0 <= y < height g /\ 0 <= z < length g.

Section Component.

Variable g : Schematic.
Variable layer : Z.
Variable startX startZ : Z.

(** A cell of the layer that is inside the grid and has the base
    identifier of the start cell. *)
Definition member (c : App.cell) : Prop :=
  0 <= fst c < width g /\ 0 <= snd c < length g /\
  BlockColors.getBaseBlockId (getBlock g (fst c) layer (snd c))
  = BlockColors.getBaseBlockId (getBlock g startX layer startZ).

(** Four-directional adjacency, diagonals excluded. *)
Definition adjacent (a b : App.cell) : Prop :=
  (fst b = fst a - 1 /\ snd b = snd a) \/ (fst b = fst a + 1 /\ snd b = snd a)
  \/ (fst b = fst a /\ snd b = snd a - 1) \/ (fst b = fst a /\ snd b = snd a + 1).

(** The connected component of the start cell. *)
Inductive connected : App.cell -> Prop :=
| connected_start : member (startX, startZ) -> connected (startX, startZ)
| connected_step a b :
    connected a -> adjacent a b -> member b -> connected b.

End Component.

(** The first region [Object.keys] lists, if [Regions] is there at all. *)
Definition firstRegion (nbtData : Litematic.Nbt)
    : option (option (string * Litematic.Region)) :=
  option_map (@hd_error _) (Litematic.Regions nbtData).

(** The four values make the exact axis-aligned bounding box of [cells]. *)
Definition boundingBox (cells : list App.cell) (minX minZ maxX maxZ : Z) : Prop :=
  (forall c, In c cells -> minX <= fst c <= maxX /\ minZ <= snd c <= maxZ)
  /\ (exists c, In c cells /\ fst c = minX)
  /\ (exists c, In c cells /\ fst c = maxX)
  /\ (exists c, In c cells /\ snd c = minZ)
  /\ (exists c, In c cells /\ snd c = maxZ).

End Spec.

(** ** The invariant of the flood-fill loop *)

Module FloodInvariant.

Import App Spec.

Section Invariant.

Variable g : Schematic.
Variable layer startX startZ : Z.

(** Every neighbour of [c] that belongs to the component is in [cells]. *)
Definition closed (cells : list cell) (c : cell) : Prop :=
  forall n, adjacent c n -> member g layer startX startZ n -> In n cells.

(** [cur] is the cell whose neighbours are being visited, [pending] the
    neighbours still to visit. *)
Record Inv (cur : option cell) (pending : list cell) (st : Fill) : Prop := {
  inv_nodup : NoDup (f_cells st);
  inv_conn : forall c, In c (f_cells st) -> connected g layer startX startZ c;
  inv_start : In (startX, startZ) (f_cells st);
  inv_queue : forall c, In c (f_queue st) -> In c (f_cells st);
  inv_closed : forall c, In c (f_cells st) ->
    In c (f_queue st) \/ closed (f_cells st) c
    \/ (cur = Some c /\
        forall n, adjacent c n -> member g layer startX startZ n ->
                  In n (f_cells st) \/ In n pending);
  inv_pending : forall c n, cur = Some c -> In n pending ->
    adjacent c n /\ In c (f_cells st);
  inv_box : boundingBox (f_cells st) (f_minX st) (f_minZ st) (f_maxX st) (f_maxZ st)
}.

End Invariant.

End FloodInvariant.

(** ** Concrete inputs used by the examples below *)

Module Examples.

Definition schemNbt (w h l : Z) (palette : list (string * Z)) (data : list Z)
    : Schem.Nbt :=
  let root := Schem.mkRoot w h l None (Some palette) (Some data) in
  Schem.mkNbt None root.

(** A single cell whose descriptor is the bare identifier [air]. *)
Definition bareAirSchem : Schem.Nbt := schemNbt 1 1 1 [("air"%string, 0)] [0].

Definition bareAirLitematic : Litematic.Nbt :=
  Litematic.mkNbt
    (Some [("main"%string,
            Litematic.mkRegion (Litematic.mkSize 1 1 1)
              (Some [Litematic.mkEntry "air" None]) (Some [0]))])
    None.

(** A single cell whose palette index, 1, is past a one-entry palette. *)
Definition strayIndexSchem : Schem.Nbt :=
  schemNbt 1 1 1 [("minecraft:stone"%string, 0)] [1].

(** A single cell of bare [cave_air]. *)
Definition caveAirSchem : Schem.Nbt := schemNbt 1 1 1 [("cave_air"%string, 0)] [0].

(** A 3 by 1 by 2 grid: a row of three stairs facing different ways, and
    behind it air, stone, and one more stair that touches the row. *)
Definition stairsSchem : Schem.Nbt :=
  schemNbt 3 1 2
    [("minecraft:air"%string, 0);
     ("minecraft:oak_stairs[facing=north]"%string, 1);
     ("minecraft:oak_stairs[facing=south]"%string, 2);
     ("minecraft:stone"%string, 3)]
    [1; 2; 1; 0; 3; 2].







(** For a palette of 17 entries (five bits per entry) and 25 cells: 125
    bits, two words under the spanning layout and three under the
    non-spanning one. Entry 12 lies across the two words. *)
Definition spanningWords : list Z := [-1; 2].

(** The host collation used in the examples: code-unit order. *)
Definition codeUnitCompare : string -> string -> comparison := String.compare.

(** Two trees with the same metadata and first region; the second has one
    more region. *)
Definition oneRegion : Litematic.Nbt :=
  Litematic.mkNbt
    (Some [("main"%string,
            Litematic.mkRegion (Litematic.mkSize 2 1 1)
              (Some [Litematic.mkEntry "minecraft:air" None;
                     Litematic.mkEntry "minecraft:oak_stairs"
                       (Some [("half"%string, "top"%string);
                              ("facing"%string, "north"%string)])])
              (Some [4]))])
    (Some (Litematic.mkMetadata (Some "house"%string))).

Definition twoRegions : Litematic.Nbt :=
  Litematic.mkNbt
    (Some [("main"%string,
            Litematic.mkRegion (Litematic.mkSize 2 1 1)
              (Some [Litematic.mkEntry "minecraft:air" None;
                     Litematic.mkEntry "minecraft:oak_stairs"
                       (Some [("half"%string, "top"%string);
                              ("facing"%string, "north"%string)])])
              (Some [4]));
           ("annex"%string,
            Litematic.mkRegion (Litematic.mkSize 1 1 1)
              (Some [Litematic.mkEntry "minecraft:stone" None]) (Some [0]))])
    (Some (Litematic.mkMetadata (Some "house"%string))).

End Examples.

Module Names.

Import JS.

(** [toUpperCase] on one character, as ASCII upper-casing (block state
    descriptors are ASCII). *)
Definition upper_ascii (c : ascii) : ascii :=
  let n := nat_of_ascii c in
  if (Nat.leb 97 n && Nat.leb n 122)%bool then ascii_of_nat (n - 32)%nat else c.

(** [s.replace(/_/g, ' ')]. *)
Fixpoint underscoresToSpaces (s : string) : string :=
  match s with
  | EmptyString => EmptyString
  | String c r =>
      String (if Ascii.eqb c "_" then " "%char else c) (underscoresToSpaces r)
  end.

(** [s.split(sep)] for a one-character separator; the empty string gives
    one empty word. *)
Fixpoint split (sep : ascii) (s : string) : list string :=
  match s with
  | EmptyString => [EmptyString]
  | String c r =>
      if Ascii.eqb c sep then EmptyString :: split sep r
      else match split sep r with
           | w :: ws => String c w :: ws
           | [] => [String c EmptyString]
           end
  end.

(** [w.charAt(0).toUpperCase() + w.slice(1)]. *)
Definition capitalize (w : string) : string :=
  match w with
  | EmptyString => EmptyString
  | String c r => String (upper_ascii c) r
  end.

(** [getBlockDisplayName(blockState)]. *)
Definition getBlockDisplayName (blockState : option string) : string :=
  match blockState with
  | Some s =>
      if truthy blockState then
        let baseId :=
          underscoresToSpaces (remove_first "minecraft:" (split_head "[" s)) in
        String.concat " " (map capitalize (split " " baseId))
      else "Air"
  | None => "Air"
  end.

End Names.

Module Spec2.

(** The block state of the last entry of a [Palette] tag mapped to index
    [i], if any entry is. *)
Fixpoint lastMapped (paletteTag : list (string * Z)) (i : Z) : option string :=
  match paletteTag with
  | [] => None
  | e :: rest =>
      match lastMapped rest i with
      | Some s => Some s
      | None => if snd e =? i then Some (fst e) else None
      end
  end.

(** The largest index of a [Palette] tag, 0 at least. *)
Definition maxIndex (paletteTag : list (string * Z)) : Z :=
  fold_right (fun e a => Z.max (snd e) a) 0 paletteTag.

(** A coordinate inside the dimensions of a grid. *)
Definition inside (g : Schematic) (x y z : Z) : Prop :=
  0 <= x < width g /\ 0 <= y < height g /\ 0 <= z < length g.

(** A grid as both adapters return it: a decoded index array of one entry
    per cell, read through the closure of [parseSchem]. *)
Definition backed (g : Schematic) (blockIndices : list Z) : Prop :=
  Z.of_nat (List.length blockIndices) = width g * height g * length g
  /\ forall x y z,
       getBlock g x y z
       = Schem.getBlock (width g) (height g) (length g) blockIndices
           (paletteList g) x y z.

(** Title case: the first character, and every character after a space,
    in upper case ([first] tells whether the next character starts a
    word). *)
Fixpoint titleCase (first : bool) (s : string) : string :=
  match s with
  | EmptyString => EmptyString
  | String c r =>
      if Ascii.eqb c " " then String c (titleCase true r)
      else String (if first then Names.upper_ascii c else c) (titleCase false r)
  end.

(** The words of a name with all but possibly the first capitalised. *)
Definition capFirst (first : bool) (l : list string) : list string :=
  match l with
  | w :: ws => (if first then Names.capitalize w else w) :: map Names.capitalize ws
  | [] => []
  end.

(** Whether the character [c] occurs in [s]. *)
Fixpoint occurs (c : ascii) (s : string) : bool :=
  match s with
  | EmptyString => false
  | String d r => Ascii.eqb d c || occurs c r
  end.

(** The linear index of a cell [(x, y, z)]. *)
Definition cellIndex (W L : Z) (c : Z * Z * Z) : Z :=
  Schem.index W L (fst (fst c)) (snd (fst c)) (snd c).

End Spec2.

(** ** app.js: the materials list *)

Module Materials.

Import JS BlockColors.

(** An entry of [materialsData]. *)
Record Material : Type := mkMaterial {
  baseId : string;
  name : string;
  count : Z;
  texFile : option string
}.

(** [counts.set(baseId, (counts.get(baseId) || 0) + 1)] on a [Map] kept as
    the list of its entries in insertion order: a key that is there keeps
    its place. *)
Fixpoint bump (counts : list (string * Z)) (baseId : string) : list (string * Z) :=
  match counts with
  | [] => [(baseId, 0 + 1)]
  | (k, n) :: rest =>
      if String.eqb k baseId then (k, (if n =? 0 then 0 else n) + 1) :: rest
      else (k, n) :: bump rest baseId
  end.

(** The body of the innermost loop of [computeMaterials]. *)
Definition visitCell (schematic : Schematic) (counts : list (string * Z))
    (c : Z * Z * Z) : list (string * Z) :=
  let bs := getBlock schematic (fst (fst c)) (snd (fst c)) (snd c) in
  if isAir bs then counts
  else
    let baseId := getBaseBlockId bs in
    match baseId with
    | Some id => if truthy baseId then bump counts id else counts
    | None => counts
    end.

(** The three nested loops: y, then z, then x. *)
Definition countCells (schematic : Schematic) : list (string * Z) :=
  fold_left
    (fun counts y =>
       fold_left
         (fun counts z =>
            fold_left (fun counts x => visitCell schematic counts (x, y, z))
                      (Spec.range (width schematic)) counts)
         (Spec.range (length schematic)) counts)
    (Spec.range (height schematic)) [].

(** Where [m] goes in a list already sorted by [(a, b) => b.count - a.count]:
    behind every entry that does not have a smaller count. *)
Fixpoint insert (m : Material) (sorted : list Material) : list Material :=
  match sorted with
  | [] => [m]
  | h :: t => if count h - count m <? 0 then m :: sorted else h :: insert m t
  end.

(** [materialsData.sort((a, b) => b.count - a.count)]; the sort is stable,
    which fixes its result. *)
Definition sortByCount (l : list Material) : list Material :=
  fold_left (fun sorted m => insert m sorted) l [].

Section WithTextures.

(** [getTextureFile], which reads the texture cache. *)
Variable getTextureFile : option string -> option string.

(** [computeMaterials()]: the value of [materialsData] it leaves. The
    updates of the page are not modelled. *)
Definition computeMaterials (schematic : Schematic) : list Material :=
  let counts := countCells schematic in
  let materialsData :=
    map (fun e =>
           mkMaterial (fst e)
             (Names.getBlockDisplayName (Some ("minecraft:" ++ fst e)%string))
             (snd e)
             (getTextureFile (Some ("minecraft:" ++ fst e)%string)))
        counts in
  sortByCount materialsData.

End WithTextures.

End Materials.

(** ** app.js: placed blocks and layer navigation *)

Module Placed.

Import App.

(** [placedBlocks], a [Map] from layer to [Set] of keys, as the list of its
    entries in insertion order; a [Set] as the list of its keys in
    insertion order. *)
Definition PlacedBlocks : Type := list (Z * list cell).

(** [placedBlocks.get(layer)]. *)
Fixpoint get (placedBlocks : PlacedBlocks) (layer : Z) : option (list cell) :=
  match placedBlocks with
  | [] => None
  | (k, s) :: rest => if k =? layer then Some s else get rest layer
  end.

(** [placedBlocks.set(layer, s)]. *)
Fixpoint set (placedBlocks : PlacedBlocks) (layer : Z) (s : list cell) : PlacedBlocks :=
  match placedBlocks with
  | [] => [(layer, s)]
  | (k, old) :: rest =>
      if k =? layer then (k, s) :: rest else (k, old) :: set rest layer s
  end.

(** [layerSet.add(key)]. *)
Definition add (layerSet : list cell) (key : cell) : list cell :=
  if has layerSet key then layerSet else layerSet ++ [key].

(** [layerSet.delete(key)]. *)
Definition delete (layerSet : list cell) (key : cell) : list cell :=
  filter (fun k => negb (cell_eqb key k)) layerSet.

(** [togglePlaced(layer, cells)]. The set taken from the map is the object
    the map holds: its changes are changes of the map. *)
Definition togglePlaced (placedBlocks : PlacedBlocks) (layer : Z) (cells : list cell)
    : PlacedBlocks :=
  let placedBlocks :=
    match get placedBlocks layer with
    | Some _ => placedBlocks
    | None => set placedBlocks layer []
    end in
  let layerSet :=
    match get placedBlocks layer with Some s => s | None => [] end in
  let allPlaced := forallb (fun key => has layerSet key) cells in
  if allPlaced then set placedBlocks layer (fold_left delete cells layerSet)
  else set placedBlocks layer (fold_left add cells layerSet).

(** [layerPlaced && layerPlaced.has(key)], the test [render] draws the
    placed overlay by. *)
Definition isPlaced (placedBlocks : PlacedBlocks) (layer : Z) (key : cell) : bool :=
  match get placedBlocks layer with
  | Some layerPlaced => has layerPlaced key
  | None => false
  end.

End Placed.

Module Layers.

Import App.

(** The module-level variables [changeLayer] reads and writes. *)
Record View : Type := mkView {
  schematic : option Schematic;
  currentLayer : Z;
  highlightedGroup : option (list cell);
  highlightBounds : option Region
}.

(** [changeLayer(delta)]. The updates of the slider, of the layer display
    and of the canvas are not modelled. *)
Definition changeLayer (v : View) (delta : Z) : View :=
  match schematic v with
  | None => v
  | Some s =>
      let newLayer := Z.max 0 (Z.min (height s - 1) (currentLayer v + delta)) in
      if negb (newLayer =? currentLayer v)
      then mkView (schematic v) newLayer None None
      else v
  end.

End Layers.

(** ** Reference notions for the materials list *)

(** ** [app.js]: pointer actions and the stack indicator *)

Module Interaction.

Import JS BlockColors App Layers.

(** The module-level variables [updateTooltip] reads and writes besides
    those of [View]. *)
Record Hover : Type := mkHover {
  view : View;
  lastHoverX : Z;
  lastHoverZ : Z
}.

(** [highlightedGroup = null; highlightBounds = null]. *)
Definition clearHighlight (v : View) : View :=
  mkView (schematic v) (currentLayer v) None None.

(** The part of [updateTooltip(e)] that maintains the highlight; [bx] and
    [bz] are the cell coordinates computed from the pointer position. The
    text of the tooltip and the redraw are not modelled. [None] is the
    iteration budget of [floodFill] running out. *)
Definition updateTooltip (st : Hover) (bx bz : Z) : option Hover :=
  match schematic (view st) with
  | None => Some st
  | Some s =>
      if (bx <? 0) || (bx >=? width s) || (bz <? 0) || (bz >=? length s) then
        match highlightedGroup (view st) with
        | Some _ => Some (mkHover (clearHighlight (view st)) (-1) (-1))
        | None => Some st
        end
      else if negb (bx =? lastHoverX st) || negb (bz =? lastHoverZ st) then
        let blockState := getBlock s bx (currentLayer (view st)) bz in
        if isAir blockState then Some (mkHover (clearHighlight (view st)) bx bz)
        else
          match floodFill s (currentLayer (view st)) bx bz with
          | None => None
          | Some (Some result) =>
              Some (mkHover (mkView (schematic (view st)) (currentLayer (view st))
                               (Some (cells result)) (Some result)) bx bz)
          | Some None => Some (mkHover (clearHighlight (view st)) bx bz)
          end
      else Some st
  end.

(** The [mouseup] listener, from the computed cell coordinates on: a click
    that was not a drag toggles the group of the cell under the pointer. *)
Definition mouseup (v : View) (placedBlocks : Placed.PlacedBlocks) (wasDrag : bool)
    (bx bz : Z) : option Placed.PlacedBlocks :=
  match schematic v with
  | Some s =>
      if negb wasDrag then
        if (bx >=? 0) && (bx <? width s) && (bz >=? 0) && (bz <? length s) then
          let blockState := getBlock s bx (currentLayer v) bz in
          if negb (isAir blockState) then
            match floodFill s (currentLayer v) bx bz with
            | None => None
            | Some (Some group) =>
                Some (Placed.togglePlaced placedBlocks (currentLayer v) (cells group))
            | Some None => Some placedBlocks
            end
          else Some placedBlocks
        else Some placedBlocks
      else Some placedBlocks
  | None => Some placedBlocks
  end.

Section StackIndicator.

Variable schematic : Schematic.
Variable x z : Z.
Variable baseId : option string.

(** [for (let y = ...; y < schematic.height; y++)] of the vertical stack
    indicator in [render], with [n] layers left to scan. *)
Fixpoint stackLoop (n : nat) (y stackCount : Z) : Z :=
  match n with
  | O => stackCount
  | S n' =>
      let aboveState := getBlock schematic x y z in
      if isAir aboveState then stackCount
      else if strict_eq (getBaseBlockId aboveState) baseId
           then stackLoop n' (y + 1) (stackCount + 1)
           else stackCount
  end.

End StackIndicator.

(** [stackCount] as [render] computes it for the cell [(x, z)] of the
    current layer. *)
Definition stackCount (schematic : Schematic) (currentLayer x z : Z) : Z :=
  let blockState := getBlock schematic x currentLayer z in
  let baseId := getBaseBlockId blockState in
  stackLoop schematic x z baseId
    (Z.to_nat (height schematic - (currentLayer + 1))) (currentLayer + 1) 0.

End Interaction.

(** ** [app.js]: the dimension lines along the perimeter of a group *)

Module Perimeter.

Import App.

(** A [Map] from numbers to numbers, as the list of its entries in
    insertion order. *)
Definition ZMap : Type := list (Z * Z).

Fixpoint get (m : ZMap) (k : Z) : option Z :=
  match m with
  | [] => None
  | (k', v) :: rest => if k' =? k then Some v else get rest k
  end.

Fixpoint set (m : ZMap) (k v : Z) : ZMap :=
  match m with
  | [] => [(k, v)]
  | (k', old) :: rest =>
      if k' =? k then (k', v) :: rest else (k', old) :: set rest k v
  end.

Definition keys (m : ZMap) : list Z := map fst m.

(** One of the four maps [render] fills in
    [for (const key of highlightedGroup)]:
    [if (!m.has(k) || l < m.get(k)) m.set(k, l)], with [>] for the far
    side. The four maps do not read each other. *)
Definition note (keyOf lineOf : cell -> Z) (before : Z -> Z -> bool)
    (m : ZMap) (c : cell) : ZMap :=
  match get m (keyOf c) with
  | None => set m (keyOf c) (lineOf c)
  | Some v => if before (lineOf c) v then set m (keyOf c) (lineOf c) else m
  end.

Definition extreme (keyOf lineOf : cell -> Z) (before : Z -> Z -> bool)
    (highlightedGroup : list cell) : ZMap :=
  fold_left (note keyOf lineOf before) highlightedGroup [].

Definition colTop : list cell -> ZMap := extreme fst snd Z.ltb.
Definition colBot : list cell -> ZMap := extreme fst snd Z.gtb.
Definition rowLeft : list cell -> ZMap := extreme snd fst Z.ltb.
Definition rowRight : list cell -> ZMap := extreme snd fst Z.gtb.

(** [.sort((a, b) => a - b)]: a stable sort by the comparator. *)
Fixpoint insert (x : Z) (sorted : list Z) : list Z :=
  match sorted with
  | [] => [x]
  | h :: t => if x - h <? 0 then x :: h :: t else h :: insert x t
  end.

Definition sortAsc (l : list Z) : list Z :=
  fold_left (fun sorted x => insert x sorted) l [].

(** A segment [{ startX, endX, z }] (or [{ startZ, endZ, x }]): the keys
    [startK .. endK] and the coordinate [line] of the edge; [None] is
    [undefined]. *)
Record Seg : Type := mkSeg {
  startK : Z;
  endK : Z;
  line : option Z
}.

(** [a === b] on number-or-undefined values. *)
Definition same (a b : option Z) : bool :=
  match a, b with
  | Some x, Some y => x =? y
  | None, None => true
  | _, _ => false
  end.

(** The body of [for (const x of sortedXs)]: the last segment grows by
    one key, or a new segment is pushed. *)
Fixpoint addKey (segs : list Seg) (k : Z) (l : option Z) : list Seg :=
  match segs with
  | [] => [mkSeg k k l]
  | s :: rest =>
      match rest with
      | [] =>
          if same (line s) l && (k =? endK s + 1)
          then [mkSeg (startK s) k (line s)]
          else [s; mkSeg k k l]
      | _ :: _ => s :: addKey rest k l
      end
  end.

(** The four segment loops are one loop up to the names of the fields. *)
Definition segsOf (m : ZMap) (sortedKeys : list Z) : list Seg :=
  fold_left (fun segs k => addKey segs k (get m k)) sortedKeys [].

Definition topSegs (highlightedGroup : list cell) : list Seg :=
  segsOf (colTop highlightedGroup) (sortAsc (keys (colTop highlightedGroup))).

Definition botSegs (highlightedGroup : list cell) : list Seg :=
  segsOf (colBot highlightedGroup) (sortAsc (keys (colTop highlightedGroup))).

Definition leftSegs (highlightedGroup : list cell) : list Seg :=
  segsOf (rowLeft highlightedGroup) (sortAsc (keys (rowLeft highlightedGroup))).

Definition rightSegs (highlightedGroup : list cell) : list Seg :=
  segsOf (rowRight highlightedGroup) (sortAsc (keys (rowLeft highlightedGroup))).

End Perimeter.

Module PerimeterSpec.

Import App Perimeter.

(** The keys a segment stands for. *)
Definition span (s : Seg) : list Z :=
  map (fun i => startK s + Z.of_nat i) (seq 0 (Z.to_nat (endK s - startK s + 1))).

(** [segs] are the runs of an edge of [group]: [keyOf] is the coordinate
    along the edge, [lineOf] the one across, and [better a b] says that [a]
    is at least as far out as [b]. *)
Definition edgeRuns (keyOf lineOf : cell -> Z) (better : Z -> Z -> Prop)
    (group : list cell) (segs : list Seg) : Prop :=
  StronglySorted Z.lt (flat_map span segs)
  /\ (forall k, In k (flat_map span segs) <-> exists c, In c group /\ keyOf c = k)
  /\ (forall s, In s segs ->
        startK s <= endK s
        /\ forall k, startK s <= k <= endK s ->
             exists c, In c group /\ keyOf c = k /\ line s = Some (lineOf c)
                       /\ forall c', In c' group -> keyOf c' = k ->
                                     better (lineOf c) (lineOf c'))
  /\ (forall l1 s1 s2 l2, segs = l1 ++ s1 :: s2 :: l2 ->
        startK s2 = endK s1 + 1 -> line s1 <> line s2).

End PerimeterSpec.

(** ** [app.js]: counts shown as stacks *)

Module Stacks.

(** The decimal rendering of an integer, as a template literal gives it
    for integers of magnitude below 10^21. *)
Definition numberToString (z : Z) : string :=
  DecimalString.NilEmpty.string_of_int (Z.to_int z).

(** [formatStacks(count)] for an integer [count]: [Math.floor] of the
    quotient rounds down, [%] takes the sign of [count]. *)
Definition formatStacks (count : Z) : string :=
  let stackSize := 64 in
  let stacks := count / stackSize in
  let remainder := Z.rem count stackSize in
  if stacks =? 0 then numberToString count
  else if remainder =? 0 then (numberToString stacks ++ "×64")%string
  else (numberToString stacks ++ "×64 + " ++ numberToString remainder)%string.

End Stacks.

(** ** [app.js]: loading a file *)

Module Loader.

Import JS Names.

(** [file.name.split('.').pop().toLowerCase()]. The result is only
    compared with [schem] and [litematic]; no character outside ASCII
    lower-cases to a string of their letters, so ASCII lower-casing decides
    the comparisons as [toLowerCase] does. *)
Definition extensionOf (fileName : string) : string :=
  toLowerCase (List.last (split "." fileName) EmptyString).

(** [s.includes(c)] for a one-character [c]. *)
Fixpoint includes (s : string) (c : ascii) : bool :=
  match s with
  | EmptyString => false
  | String d r => Ascii.eqb d c || includes r c
  end.

(** [fileName.replace(/\.[^.]+$/, '')]: the first dot that is followed, up
    to the end of the name, by at least one character and by no other dot
    is cut off together with what follows it. *)
Fixpoint stripExtension (fileName : string) : string :=
  match fileName with
  | EmptyString => EmptyString
  | String c r =>
      if Ascii.eqb c "." && negb (r =? "")%string && negb (includes r ".")
      then EmptyString
      else String c (stripExtension r)
  end.

(** [schematic.name = newName]. *)
Definition withName (schematic : Schematic) (newName : string) : Schematic :=
  mkSchematic (width schematic) (height schematic) (length schematic) newName
    (paletteList schematic) (getBlock schematic) (totalNonAir schematic).

(** What [loadFile] leaves behind. *)
Inductive Outcome : Type :=
| Unsupported                       (* the alert about the format; nothing is read *)
| Failed (err : error)              (* the [catch] clause *)
| Loaded (schematic : Schematic).   (* the new value of [schematic] *)

Section WithCollation.

Variable localeCompare : string -> string -> comparison.

(** [loadFile(file)] from the decoded NBT tree on. The tree is given as
    each of the two parsers reads it; reading the file, preloading the
    textures and [onSchematicLoaded] are not modelled. *)
Definition loadFile (fileName : string) (asSchem : Schem.Nbt)
    (asLitematic : Litematic.Nbt) : Outcome :=
  let ext := extensionOf fileName in
  if negb (ext =? "schem")%string && negb (ext =? "litematic")%string
  then Unsupported
  else
    let parsed :=
      if (ext =? "schem")%string then Schem.parseSchem asSchem
      else Litematic.parseLitematic localeCompare asLitematic in
    match parsed with
    | inl err => Failed err
    | inr schematic =>
        if (name schematic =? "Unnamed")%string
        then Loaded (withName schematic (stripExtension fileName))
        else Loaded schematic
    end.

End WithCollation.

End Loader.

Module MaterialsSpec.

Import JS BlockColors.

(** The base identifier a cell is counted under, if it is counted: the
    cell is not air and its base identifier is not empty. *)
Definition countedId (g : Schematic) (c : Z * Z * Z) : option string :=
  let bs := getBlock g (fst (fst c)) (snd (fst c)) (snd c) in
  if isAir bs then None
  else match getBaseBlockId bs with
       | Some id => if truthy (Some id) then Some id else None
       | None => None
       end.

(** The number of cells of the grid counted under [id]. *)
Definition occurrences (g : Schematic) (id : string) : Z :=
  Z.of_nat (List.length
    (filter (fun c => strict_eq (countedId g c) (Some id)) (Spec.allCells g))).

(** The count a [Map] of counts holds for [id], 0 when it holds none. *)
Fixpoint lookup (counts : list (string * Z)) (id : string) : Z :=
  match counts with
  | [] => 0
  | (k, n) :: rest => if String.eqb k id then n else lookup rest id
  end.

Definition total (counts : list (string * Z)) : Z :=
  fold_right (fun e a => snd e + a) 0 counts.

(** One cell of the scan, given the identifier it is counted under. *)
Definition step (counts : list (string * Z)) (o : option string)
    : list (string * Z) :=
  match o with Some id => Materials.bump counts id | None => counts end.

(** The number of entries of [l] that are [id]. *)
Definition hits (id : string) (l : list (option string)) : Z :=
  Z.of_nat (List.length (filter (fun o => strict_eq o (Some id)) l)).

(** The number of entries of [l] that are an identifier. *)
Definition counted (l : list (option string)) : Z :=
  Z.of_nat (List.length
    (filter (fun o => match o with Some _ => true | None => false end) l)).

(** [a] may stand before [b] in a list sorted by decreasing count. *)
Definition notFewer (a b : Materials.Material) : Prop :=
  Materials.count b <= Materials.count a.

(** The entries with count [n], in the order of the list. *)
Definition withCount (n : Z) (l : list Materials.Material) : list Materials.Material :=
  filter (fun m => Materials.count m =? n) l.

(** [materialsData] before it is sorted: one entry per key of [counts], in
    the order the keys were first met. *)
Definition unsorted (getTextureFile : option string -> option string)
    (g : Schematic) : list Materials.Material :=
  map (fun e =>
         Materials.mkMaterial (fst e)
           (Names.getBlockDisplayName (Some ("minecraft:" ++ fst e)%string))
           (snd e)
           (getTextureFile (Some ("minecraft:" ++ fst e)%string)))
      (Materials.countCells g).

End MaterialsSpec.

(** ** More concrete inputs *)

Module Examples2.

Definition stairsPalette : JSArray :=
  mkArray [Some "minecraft:air"%string;
           Some "minecraft:oak_stairs[facing=north]"%string;
           Some "minecraft:oak_stairs[facing=south]"%string;
           Some "minecraft:stone"%string] [].

(** The grid [parseSchem] returns for [Examples.stairsSchem]. *)
Definition stairsGrid : Schematic :=
  mkSchematic 3 1 2 "Unnamed" stairsPalette
    (Schem.getBlock 3 1 2 [1; 2; 1; 0; 3; 2] stairsPalette) 5.

(** The region of the stairs on layer 0 of [stairsGrid]. *)
Definition stairsRegion : App.Region :=
  App.mkRegion [(0, 0); (1, 0); (2, 0); (2, 1)] 0 0 2 1 3 2 4.

(** A column of three layers: stone, stone, dirt. *)
Definition towerPalette : JSArray :=
  mkArray [Some "minecraft:air"%string;
           Some "minecraft:stone"%string;
           Some "minecraft:dirt"%string] [].

Definition towerGrid : Schematic :=
  mkSchematic 1 3 1 "Unnamed" towerPalette
    (Schem.getBlock 1 3 1 [1; 1; 2] towerPalette) 3.

End Examples2.

Module BitFacts.
Import JS.

Lemma toInt32_small z : - 2 ^ 31 <= z < 2 ^ 31 -> toInt32 z = z.
Proof. intros H. unfold toInt32. rewrite Z.mod_small; lia. Qed.

Lemma land_low_high a x s : 0 <= s -> 0 <= a < 2 ^ s -> Z.land a (Z.shiftl x s) = 0.
Proof.
  intros Hs Ha. apply Z.bits_inj'. intros n Hn.
  rewrite Z.land_spec, Z.bits_0.
  destruct (Z.lt_ge_cases n s) as [L | G].
  - rewrite Z.shiftl_spec_low by assumption. apply andb_false_r.
  - replace a with (a mod 2 ^ s) by (apply Z.mod_small; assumption).
    rewrite Z.mod_pow2_bits_high by lia. reflexivity.
Qed.

Lemma lor_low_high a x s :
  0 <= s -> 0 <= a < 2 ^ s -> Z.lor a (Z.shiftl x s) = a + x * 2 ^ s.
Proof.
  intros Hs Ha.
  pose proof (Z.add_lor_land a (Z.shiftl x s)) as E.
  rewrite land_low_high in E by assumption.
  rewrite Z.shiftl_mul_pow2 in * by assumption. lia.
Qed.

Lemma land_127 b : Z.land b 127 = b mod 128.
Proof. change 127 with (Z.ones 7). rewrite Z.land_ones by lia. reflexivity. Qed.

Lemma land_128_low b : 0 <= b < 128 -> Z.land b 128 = 0.
Proof. intros H. apply (land_low_high b 1 7); lia. Qed.

Lemma land_128_high b : 128 <= b < 256 -> Z.land b 128 = 128.
Proof.
  intros H.
  replace b with (Z.lor (b - 128) (Z.shiftl 1 7)).
  - change 128 with (Z.shiftl 1 7) at 2. rewrite Z.land_lor_distr_l.
    rewrite (land_low_high (b - 128) 1 7) by lia. reflexivity.
  - rewrite lor_low_high by lia. lia.
Qed.

End BitFacts.

Module VarintFacts.
Import JS Varint BitFacts.

Lemma and32_127 b : 0 <= b < 256 -> and32 b 127 = b mod 128.
Proof.
  intros H. unfold and32. rewrite (toInt32_small b) by lia.
  change (toInt32 127) with 127. apply land_127.
Qed.

Lemma and32_128_low b : 0 <= b < 128 -> and32 b 128 = 0.
Proof.
  intros H. unfold and32. rewrite (toInt32_small b) by lia.
  change (toInt32 128) with 128. apply land_128_low; lia.
Qed.

Lemma and32_128_high b : 128 <= b < 256 -> and32 b 128 = 128.
Proof.
  intros H. unfold and32. rewrite (toInt32_small b) by lia.
  change (toInt32 128) with 128. apply land_128_high; lia.
Qed.

(** Accumulating a seven-bit group [g] at [shift] below bit 31 adds it. *)
Lemma accumulate value g shift :
  0 <= shift < 32 -> 0 <= value < 2 ^ shift -> 0 <= g ->
  value + g * 2 ^ shift < 2 ^ 31 ->
  or32 value (shl32 g shift) = value + g * 2 ^ shift.
Proof.
  intros Hs Hv Hg Hb.
  assert (0 < 2 ^ shift) by (apply Z.pow_pos_nonneg; lia).
  assert (0 <= g * 2 ^ shift) by nia.
  assert (g <= g * 2 ^ shift) by nia.
  unfold or32, shl32.
  rewrite (Z.mod_small shift 32) by lia.
  rewrite (toInt32_small g) by lia.
  rewrite Z.shiftl_mul_pow2 by lia.
  rewrite (toInt32_small (g * 2 ^ shift)) by lia.
  rewrite (toInt32_small (g * 2 ^ shift)) by lia.
  rewrite (toInt32_small value) by lia.
  rewrite <- lor_low_high by lia.
  rewrite Z.shiftl_mul_pow2 by lia. reflexivity.
Qed.

Lemma readVarint_encode v : forall rest value shift,
  0 <= v -> 0 <= shift < 32 -> 0 <= value < 2 ^ shift ->
  value + v * 2 ^ shift < 2 ^ 31 ->
  readVarint (encodeVarint v ++ rest) value shift
  = Some (value + v * 2 ^ shift, rest).
Proof.
  funelim (encodeVarint v); intros rest value shift Hv Hs Hval Hb.
  - cbn [app readVarint].
    rewrite and32_127, and32_128_low by lia. cbn [Z.eqb negb].
    rewrite Z.mod_small by lia.
    rewrite accumulate by lia. reflexivity.
  - cbn [app readVarint].
    assert (0 <= v mod 128 < 128) by (apply Z.mod_pos_bound; lia).
    assert (Hd : v = 128 * (v / 128) + v mod 128) by (apply Z.div_mod; lia).
    assert (1 <= v / 128) by lia.
    assert (0 < 2 ^ shift) by (apply Z.pow_pos_nonneg; lia).
    assert (shift + 7 < 32).
    { destruct (Z.lt_ge_cases (shift + 7) 32) as [L | G]; [assumption | exfalso].
      assert (2 ^ 24 <= 2 ^ shift) by (apply Z.pow_le_mono_r; lia).
      nia. }
    assert (E7 : 2 ^ (shift + 7) = 128 * 2 ^ shift)
      by (rewrite Z.pow_add_r by lia; lia).
    rewrite and32_127, and32_128_high by lia.
    change (negb (128 =? 0)) with true. cbv iota.
    replace ((v mod 128 + 128) mod 128) with (v mod 128)
      by (rewrite <- Z.add_mod_idemp_r, Z.add_0_r, Z.mod_mod by lia; reflexivity).
    rewrite accumulate by nia.
    rewrite H by nia.
    f_equal. f_equal. nia.
Qed.

Lemma decodeFrom_encode vs : forall i,
  Forall (fun v => 0 <= v < 2 ^ 31) vs ->
  decodeFrom (List.length vs) i (encodeVarintArray vs) = ok vs.
Proof.
  induction vs as [| v vs IH]; intros i Hall; [reflexivity |].
  inversion Hall as [| ? ? Hv Hvs]; subst.
  cbn [List.length decodeFrom encodeVarintArray flat_map].
  rewrite readVarint_encode by (cbn; lia).
  fold (encodeVarintArray vs). rewrite IH by assumption.
  cbn [bind ok]. rewrite toInt32_small by lia.
  do 2 f_equal. lia.
Qed.

(** *** Truncation *)

Lemma completeVarints_cons b bytes :
  completeVarints (b :: bytes)
  = (if terminator b then 1 else 0) + completeVarints bytes.
Proof.
  unfold completeVarints. cbn [filter].
  destruct (terminator b); cbn [List.length]; lia.
Qed.

Lemma completeVarints_nonneg bytes : 0 <= completeVarints bytes.
Proof. unfold completeVarints. lia. Qed.

(** The inner loop throws exactly on a buffer without a terminating byte;
    otherwise it consumes one complete varint. *)
Lemma readVarint_complete bytes : forall value shift,
  match readVarint bytes value shift with
  | None => completeVarints bytes = 0
  | Some (_, rest) => completeVarints bytes = 1 + completeVarints rest
  end.
Proof.
  induction bytes as [| b bytes IH]; intros value shift; [reflexivity |].
  cbn [readVarint]. rewrite completeVarints_cons. unfold terminator.
  destruct (and32 b 128 =? 0); cbn [negb].
  - reflexivity.
  - specialize (IH (or32 value (shl32 (and32 b 127) shift)) (shift + 7)).
    destruct (readVarint bytes _ _) as [[v rest] |]; lia.
Qed.

Lemma decodeFrom_enough n : forall i bytes,
  Z.of_nat n <= completeVarints bytes ->
  exists vs, decodeFrom n i bytes = ok vs /\ List.length vs = n.
Proof.
  induction n as [| n IH]; intros i bytes Hc.
  - exists []. split; reflexivity.
  - cbn [decodeFrom].
    pose proof (readVarint_complete bytes 0 0) as R.
    destruct (readVarint bytes 0 0) as [[v rest] |]; [| lia].
    destruct (IH (i + 1) rest) as [vs [E L]]; [lia |].
    rewrite E. exists (toInt32 v :: vs). split; [reflexivity | cbn; congruence].
Qed.

Lemma decodeFrom_short n : forall i bytes,
  completeVarints bytes < Z.of_nat n ->
  decodeFrom n i bytes
  = throw (Error_UnexpectedEndOfVarint (i + completeVarints bytes)).
Proof.
  induction n as [| n IH]; intros i bytes Hc.
  - pose proof (completeVarints_nonneg bytes). lia.
  - cbn [decodeFrom].
    pose proof (readVarint_complete bytes 0 0) as R.
    destruct (readVarint bytes 0 0) as [[v rest] |].
    + rewrite IH by lia. cbn [bind throw]. unfold throw. do 2 f_equal. lia.
    + rewrite R. unfold throw. do 2 f_equal. lia.
Qed.

Lemma invalidLength_false n :
  invalidLength n = false <-> 0 <= n <= maxTypedArrayLength.
Proof.
  unfold invalidLength. rewrite orb_false_iff, Z.ltb_ge, Z.gtb_ltb, Z.ltb_ge. tauto.
Qed.


Lemma decodeVarintArray_valid bytes N :
  0 <= N <= maxTypedArrayLength ->
  decodeVarintArray bytes N = decodeFrom (Z.to_nat N) 0 bytes.
Proof.
  intros R. unfold decodeVarintArray.
  rewrite (proj2 (invalidLength_false N) R). reflexivity.
Qed.


Lemma decodeVarintArray_short bytes N :
  N <= maxTypedArrayLength ->
  completeVarints bytes < N ->
  decodeVarintArray bytes N
  = throw (Error_UnexpectedEndOfVarint (completeVarints bytes)).
Proof.
  intros Hm Hc. pose proof (completeVarints_nonneg bytes).
  rewrite decodeVarintArray_valid by lia.
  rewrite decodeFrom_short by lia. reflexivity.
Qed.

Lemma decodeVarintArray_enough bytes N :
  0 <= N <= completeVarints bytes ->
  N <= maxTypedArrayLength ->
  exists vs, decodeVarintArray bytes N = ok vs /\ Z.of_nat (List.length vs) = N.
Proof.
  intros Hc Hm. rewrite decodeVarintArray_valid by lia.
  destruct (decodeFrom_enough (Z.to_nat N) 0 bytes) as [vs [D L]]; [lia |].
  exists vs. split; [assumption | lia].
Qed.

Lemma decodeVarintArray_ok bytes N vs :
  decodeVarintArray bytes N = ok vs ->
  0 <= N <= maxTypedArrayLength
  /\ decodeFrom (Z.to_nat N) 0 bytes = ok vs.
Proof.
  unfold decodeVarintArray. destruct (invalidLength N) eqn:E; [discriminate |].
  apply invalidLength_false in E. auto.
Qed.

End VarintFacts.

Module LayoutFacts.
Import JS Litematic BitFacts.

Lemma ceil_div_spec a b : 0 < b -> b * (ceil_div a b - 1) < a <= b * ceil_div a b.
Proof.
  intros Hb. unfold ceil_div.
  pose proof (Z.div_mod (- a) b ltac:(lia)).
  pose proof (Z.mod_pos_bound (- a) b Hb). lia.
Qed.

Lemma bitsPerEntry_lower P : 2 <= bitsPerEntry P.
Proof. unfold bitsPerEntry. lia. Qed.

Lemma bitsPerEntry_fits P : P <= 2 ^ bitsPerEntry P.
Proof.
  unfold bitsPerEntry, ceil_log2.
  destruct (Z.le_gt_cases P 1) as [L | G].
  - assert (1 <= 2 ^ Z.max 2 (Z.log2_up P)) by (apply Z.pow_le_mono_r with (b := 0); lia).
    lia.
  - pose proof (Z.log2_up_spec P G) as [_ U].
    assert (2 ^ Z.log2_up P <= 2 ^ Z.max 2 (Z.log2_up P))
      by (apply Z.pow_le_mono_r; lia).
    lia.
Qed.

Lemma bitsPerEntry_least P b : 2 <= b -> P <= 2 ^ b -> bitsPerEntry P <= b.
Proof.
  intros Hb HP. unfold bitsPerEntry, ceil_log2.
  destruct (Z.le_gt_cases P 1) as [L | G].
  - rewrite Z.log2_up_eqn0 by assumption. lia.
  - apply Z.max_lub; [assumption |].
    apply Z.log2_up_le_pow2; lia.
Qed.

End LayoutFacts.

Module SpanningFacts.
Import JS Litematic BitFacts LayoutFacts Spec.

Lemma asUintN64_range w : 0 <= asUintN64 w < 2 ^ 64.
Proof. unfold asUintN64. apply Z.mod_pos_bound. lia. Qed.

Lemma asUintN64_high w k : 64 <= k -> Z.testbit (asUintN64 w) k = false.
Proof. intros H. unfold asUintN64. apply Z.mod_pow2_bits_high. lia. Qed.

Lemma bitstream_cons_bits w rest k :
  0 <= k ->
  Z.testbit (bitstream (w :: rest)) k
  = if k <? 64 then Z.testbit (asUintN64 w) k else Z.testbit (bitstream rest) (k - 64).
Proof.
  intros Hk. cbn [bitstream].
  rewrite (Z.mul_comm (2 ^ 64)), <- lor_low_high by (pose proof (asUintN64_range w); lia).
  rewrite Z.lor_spec.
  destruct (k <? 64) eqn:E.
  - apply Z.ltb_lt in E. rewrite Z.shiftl_spec_low by assumption. apply orb_false_r.
  - apply Z.ltb_ge in E. rewrite asUintN64_high by assumption.
    rewrite Z.shiftl_spec by assumption. reflexivity.
Qed.

(** Bit [k] of the stream is bit [k mod 64] of word [k / 64], a word past
    the end of the array reading as zero. *)
Lemma bitstream_bits words : forall k,
  0 <= k ->
  Z.testbit (bitstream words) k
  = Z.testbit (asUintN64 (nth (Z.to_nat (k / 64)) words 0)) (k mod 64).
Proof.
  induction words as [| w rest IH]; intros k Hk.
  - cbn [bitstream]. destruct (Z.to_nat (k / 64)); cbn [nth];
      change (asUintN64 0) with 0; rewrite !Z.bits_0; reflexivity.
  - rewrite bitstream_cons_bits by assumption.
    destruct (k <? 64) eqn:E.
    + apply Z.ltb_lt in E.
      rewrite Z.div_small, Z.mod_small by lia. reflexivity.
    + apply Z.ltb_ge in E. rewrite IH by lia.
      replace (k / 64) with ((k - 64) / 64 + 1)
        by (Z.to_euclidean_division_equations; lia).
      replace (Z.to_nat ((k - 64) / 64 + 1)) with (S (Z.to_nat ((k - 64) / 64)))
        by (Z.to_euclidean_division_equations; lia).
      cbn [nth]. f_equal. Z.to_euclidean_division_equations; lia.
Qed.

Lemma word_nth words i : 0 <= i ->
  match word words i with Some n => n | None => 0 end = nth (Z.to_nat i) words 0.
Proof.
  intros Hi. unfold word.
  destruct (i <? 0) eqn:E; [apply Z.ltb_lt in E; lia |].
  generalize (Z.to_nat i). clear. induction words as [| w r IH]; intros [| n]; cbn; auto.
Qed.

Lemma word_some words i w : word words i = Some w -> nth (Z.to_nat i) words 0 = w.
Proof.
  intros H. assert (0 <= i).
  { unfold word in H. destruct (i <? 0) eqn:E; [discriminate | apply Z.ltb_ge in E; lia]. }
  rewrite <- word_nth by assumption. rewrite H. reflexivity.
Qed.

Lemma word_present words i :
  0 <= i < Z.of_nat (List.length words) -> exists w, word words i = Some w.
Proof.
  intros H. unfold word.
  destruct (i <? 0) eqn:E; [apply Z.ltb_lt in E; lia |].
  destruct (nth_error words (Z.to_nat i)) eqn:N; [eauto |].
  apply nth_error_None in N. lia.
Qed.

Lemma mask_ones b : mask b = Z.ones b.
Proof. unfold mask, Z.ones. lia. Qed.

Lemma ones_bit b n : 0 <= b -> 0 <= n -> Z.testbit (Z.ones b) n = (n <? b).
Proof.
  intros Hb Hn. destruct (n <? b) eqn:E.
  - apply Z.ltb_lt in E. apply Z.ones_spec_low. lia.
  - apply Z.ltb_ge in E. apply Z.ones_spec_high. lia.
Qed.

(** The two branches of the spanning loop both read the entry at bit
    offset [i * bitsPerEntry] of the stream. *)
Lemma spanningEntry_entryAt words b i w :
  1 <= b <= 64 -> 0 <= i ->
  word words (i * b / 64) = Some w ->
  spanningEntry words b i = ok (entryAt words b i).
Proof.
  intros Hb Hi Hw. unfold spanningEntry. rewrite Hw.
  apply word_some in Hw.
  set (s := i * b) in *. assert (Hs : 0 <= s) by (unfold s; nia).
  set (q := s / 64) in *. set (r := s mod 64).
  assert (Hq : s = 64 * q + r /\ 0 <= r < 64 /\ 0 <= q)
    by (unfold q, r; Z.to_euclidean_division_equations; lia).
  destruct Hq as [Hsq [Hr Hq]].
  assert (Bit : forall n, 0 <= n ->
            Z.testbit (entryAt words b i) n
            = Z.testbit (bitstream words) (n + s) && (n <? b)).
  { intros n Hn. unfold entryAt. fold s.
    rewrite Z.land_spec, Z.shiftr_spec, ones_bit by lia. reflexivity. }
  destruct (q =? (s + b - 1) / 64) eqn:Same.
  - apply Z.eqb_eq in Same.
    assert (r + b - 1 < 64) by (Z.to_euclidean_division_equations; lia).
    unfold ok. f_equal. apply Z.bits_inj'. intros n Hn.
    rewrite Bit, mask_ones, Z.land_spec, Z.shiftr_spec, ones_bit by lia.
    destruct (n <? b) eqn:E; [| rewrite !andb_false_r; reflexivity].
    apply Z.ltb_lt in E. rewrite bitstream_bits by lia.
    replace ((n + s) / 64) with q by (Z.to_euclidean_division_equations; lia).
    replace ((n + s) mod 64) with (n + r) by (Z.to_euclidean_division_equations; lia).
    rewrite Hw. reflexivity.
  - apply Z.eqb_neq in Same.
    assert (He : (s + b - 1) / 64 = q + 1) by (Z.to_euclidean_division_equations; lia).
    assert (64 <= r + b - 1) by (Z.to_euclidean_division_equations; lia).
    rewrite He, word_nth by lia.
    unfold ok. f_equal. apply Z.bits_inj'. intros n Hn.
    rewrite Bit, mask_ones, Z.lor_spec, !Z.land_spec, Z.shiftr_spec, ones_bit by lia.
    destruct (n <? b) eqn:E; [| rewrite !andb_false_r; reflexivity].
    apply Z.ltb_lt in E. rewrite !andb_true_r, bitstream_bits by lia.
    destruct (Z.lt_ge_cases (n + r) 64) as [L | G].
    + rewrite Z.shiftl_spec_low by lia. rewrite orb_false_r.
      replace ((n + s) / 64) with q by (Z.to_euclidean_division_equations; lia).
      replace ((n + s) mod 64) with (n + r) by (Z.to_euclidean_division_equations; lia).
      rewrite Hw. reflexivity.
    + rewrite asUintN64_high by lia. rewrite Z.shiftl_spec by lia. cbn [orb].
      replace ((n + s) / 64) with (q + 1) by (Z.to_euclidean_division_equations; lia).
      replace ((n + s) mod 64) with (n - (64 - r))
        by (Z.to_euclidean_division_equations; lia).
      reflexivity.
Qed.

End SpanningFacts.

Module DecodeFacts.
Import JS Litematic BitFacts LayoutFacts SpanningFacts Spec.

Lemma fillFrom_ok entry f n : forall i0,
  (forall k, (k < n)%nat -> entry (i0 + Z.of_nat k) = ok (f (i0 + Z.of_nat k))) ->
  fillFrom entry n i0
  = ok (map (fun k => toInt32 (f (i0 + Z.of_nat k))) (seq 0 n)).
Proof.
  induction n as [| n IH]; intros i0 H; [reflexivity |].
  cbn [fillFrom].
  pose proof (H 0%nat ltac:(lia)) as H0. cbn [Z.of_nat] in H0.
  rewrite Z.add_0_r in H0. rewrite H0. cbn [bind ok].
  rewrite IH.
  - cbn [bind ok seq map]. rewrite <- seq_shift, map_map.
    cbn [Z.of_nat]. rewrite Z.add_0_r. do 2 f_equal.
    apply map_ext. intros k. do 2 f_equal. lia.
  - intros k Hk. replace (i0 + 1 + Z.of_nat k) with (i0 + Z.of_nat (S k)) by lia.
    apply H. lia.
Qed.

Lemma nth_map_seq (g : nat -> Z) n k d :
  (k < n)%nat -> nth k (map g (seq 0 n)) d = g k.
Proof.
  intros Hk. rewrite nth_indep with (d' := g 0%nat)
    by (rewrite length_map, length_seq; assumption).
  rewrite map_nth, seq_nth by assumption. reflexivity.
Qed.

Lemma nth_fill (f : Z -> Z) n i :
  0 <= i < Z.of_nat n ->
  nth (Z.to_nat i) (map (fun k => toInt32 (f (0 + Z.of_nat k))) (seq 0 n)) 0
  = toInt32 (f i).
Proof.
  intros Hi. rewrite nth_map_seq by lia. do 2 f_equal. lia.
Qed.

Lemma entryAt_range words b i : 0 <= b -> 0 <= entryAt words b i < 2 ^ b.
Proof.
  intros Hb. unfold entryAt. rewrite Z.land_ones by assumption.
  apply Z.mod_pos_bound. apply Z.pow_pos_nonneg; lia.
Qed.

(** Under the spanning layout every start word is inside the array. *)
Lemma spanning_start_present (words : list Z) N b i :
  1 <= b -> 0 <= i < N ->
  Z.of_nat (List.length words) = expectedSpanning N b ->
  0 <= i * b / 64 < Z.of_nat (List.length words)
  /\ 0 <= (i * b + b - 1) / 64 < Z.of_nat (List.length words).
Proof.
  intros Hb Hi Hlen. rewrite Hlen. unfold expectedSpanning.
  pose proof (ceil_div_spec (N * b) 64 ltac:(lia)) as C.
  assert (i * b + b <= N * b) by nia.
  assert (0 <= i * b) by nia.
  split; Z.to_euclidean_division_equations; lia.
Qed.

Lemma isSpanning_true (words : list Z) N b :
  isSpanning words N b = true <->
  Z.of_nat (List.length words) = expectedSpanning N b
  /\ expectedSpanning N b <> expectedNonSpanning N b.
Proof.
  unfold isSpanning. rewrite andb_true_iff, negb_true_iff, Z.eqb_eq, Z.eqb_neq.
  reflexivity.
Qed.

Lemma decode_spanning words P N :
  1 <= P -> isSpanning words N (bitsPerEntry P) = true ->
  bitsPerEntry P <= 64 ->
  decodeBlockStates words P N
  = ok (map (fun k => toInt32 (entryAt words (bitsPerEntry P) (0 + Z.of_nat k)))
            (seq 0 (Z.to_nat N))).
Proof.
  intros HP Hsp Hb. unfold decodeBlockStates. rewrite Hsp.
  apply isSpanning_true in Hsp. destruct Hsp as [Hlen _].
  pose proof (bitsPerEntry_lower P).
  apply fillFrom_ok. intros k Hk.
  destruct (spanning_start_present words N (bitsPerEntry P) (0 + Z.of_nat k))
    as [Hs _]; [lia | lia | assumption |].
  destruct (word_present words _ Hs) as [w Hw].
  apply spanningEntry_entryAt with (w := w); [lia | lia | assumption].
Qed.



End DecodeFacts.

Module FloodFacts.
Import JS BlockColors App Spec FloodInvariant.

Lemma cell_eqb_eq (a b : cell) : cell_eqb a b = true <-> a = b.
Proof.
  destruct a as [ax az], b as [bx bz]. unfold cell_eqb. cbn [fst snd].
  rewrite andb_true_iff, !Z.eqb_eq. split.
  - intros [-> ->]. reflexivity.
  - intros E. injection E as -> ->. split; reflexivity.
Qed.

Lemma has_In cells c : has cells c = true <-> In c cells.
Proof.
  unfold has. rewrite existsb_exists. split.
  - intros [x [Hx E]]. apply cell_eqb_eq in E. subst. assumption.
  - intros H. exists c. split; [assumption | apply cell_eqb_eq; reflexivity].
Qed.

Lemma strict_eq_some a s : strict_eq a (Some s) = true <-> a = Some s.
Proof.
  destruct a as [t |]; cbn [strict_eq].
  - rewrite String.eqb_eq. split; [intros -> | intros E; injection E as ->]; reflexivity.
  - split; discriminate.
Qed.

Lemma adjacent_neighbors c n : Spec.adjacent c n <-> In n (neighbors c).
Proof.
  destruct c as [cx cz], n as [nx nz]. unfold adjacent, neighbors. cbn [fst snd In].
  split.
  - intros [[-> ->] | [[-> ->] | [[-> ->] | [-> ->]]]]; auto.
  - intros [E | [E | [E | [E | []]]]]; injection E as <- <-; auto.
Qed.

Lemma In_range x n : In x (range n) <-> 0 <= x < n.
Proof.
  unfold range. rewrite in_map_iff. split.
  - intros [k [<- Hk]]. apply in_seq in Hk. lia.
  - intros H. exists (Z.to_nat x). split; [lia | apply in_seq; lia].
Qed.

Lemma length_range n : List.length (range n) = Z.to_nat n.
Proof. unfold range. rewrite length_map, length_seq. reflexivity. Qed.

(** Distinct cells inside a [W] by [L] layer are at most [W * L]. *)
Lemma cells_bound (cells : list cell) W L :
  NoDup cells ->
  (forall c, In c cells -> 0 <= fst c < W /\ 0 <= snd c < L) ->
  Z.of_nat (List.length cells) <= Z.max 0 W * Z.max 0 L.
Proof.
  intros ND Hin.
  assert (I : incl cells (list_prod (range W) (range L))).
  { intros [x z] Hc. apply in_prod; apply In_range; apply Hin in Hc; cbn in Hc; lia. }
  apply (NoDup_incl_length ND) in I.
  unfold cell in I. rewrite length_prod, !length_range in I.
  apply Nat2Z.inj_le in I. rewrite Nat2Z.inj_mul in I.
  replace (Z.of_nat (Z.to_nat W)) with (Z.max 0 W) in I by lia.
  replace (Z.of_nat (Z.to_nat L)) with (Z.max 0 L) in I by lia. exact I.
Qed.

Section Fill.

Variable g : Schematic.
Variable layer startX startZ : Z.
Variable id : string.
Hypothesis Hid : getBaseBlockId (getBlock g startX layer startZ) = Some id.


Lemma connected_member c :
  Spec.connected g layer startX startZ c -> Spec.member g layer startX startZ c.
Proof. intros H. destruct H; assumption. Qed.

Lemma box_add cells mnX mnZ mxX mxZ nx nz :
  boundingBox cells mnX mnZ mxX mxZ ->
  boundingBox (cells ++ [(nx, nz)])
    (if nx <? mnX then nx else mnX) (if nz <? mnZ then nz else mnZ)
    (if nx >? mxX then nx else mxX) (if nz >? mxZ then nz else mxZ).
Proof.
  intros [B [[c1 [I1 E1]] [[c2 [I2 E2]] [[c3 [I3 E3]] [c4 [I4 E4]]]]]].
  pose proof (B c1 I1). pose proof (B c2 I2). pose proof (B c3 I3). pose proof (B c4 I4).
  destruct (Z.ltb_spec nx mnX), (Z.ltb_spec nz mnZ), (Z.gtb_spec nx mxX),
    (Z.gtb_spec nz mxZ);
    (split; [intros c Hc; apply in_app_iff in Hc; destruct Hc as [Hc | [<- | []]];
             [specialize (B c Hc) |]; cbn [fst snd]; lia |]);
    repeat split;
    first [ exists (nx, nz); split; [apply in_app_iff; right; left; reflexivity | reflexivity]
          | exists c1; split; [apply in_app_iff; left; assumption | assumption]
          | exists c2; split; [apply in_app_iff; left; assumption | assumption]
          | exists c3; split; [apply in_app_iff; left; assumption | assumption]
          | exists c4; split; [apply in_app_iff; left; assumption | assumption] ].
Qed.

(** Visiting one neighbour keeps the invariant and appends the same
    cells (none or the neighbour) to the set and to the queue. *)
Lemma visit_inv c n pending st :
  Inv g layer startX startZ (Some c) (n :: pending) st ->
  Inv g layer startX startZ (Some c) pending (visit g layer id st n)
  /\ exists new, f_cells (visit g layer id st n) = f_cells st ++ new
                 /\ f_queue (visit g layer id st n) = f_queue st ++ new.
Proof.
  intros I. unfold visit. destruct n as [nx nz].
  assert (Keep : (In (nx, nz) (f_cells st)
                  \/ ~ Spec.member g layer startX startZ (nx, nz)) ->
            Inv g layer startX startZ (Some c) pending st).
  { intros K. destruct I. constructor; auto.
    - intros c0 Hc0. destruct (inv_closed0 c0 Hc0) as [Q | [C | [E F]]]; auto.
      right. right. split; [assumption |]. intros m Am Mm.
      destruct (F m Am Mm) as [? | [<- | ?]]; auto.
      destruct K; [auto | contradiction].
    - intros c0 m E Hm. apply inv_pending0; [assumption | right; assumption]. }
  destruct (has (f_cells st) (nx, nz)) eqn:Hhas.
  { apply has_In in Hhas. split; [auto |]. exists []. rewrite !app_nil_r. auto. }
  destruct ((nx <? 0) || (nx >=? width g) || (nz <? 0) || (nz >=? length g)) eqn:Hout.
  { split; [| exists []; rewrite !app_nil_r; auto].
    apply Keep. right. intros [Hx [Hz _]]. cbn [fst snd] in *.
    rewrite !orb_true_iff in Hout.
    rewrite !Z.ltb_lt, !Z.geb_le in Hout. lia. }
  destruct (strict_eq (getBaseBlockId (getBlock g nx layer nz)) (Some id)) eqn:Hsame.
  2:{ split; [| exists []; rewrite !app_nil_r; auto].
      apply Keep. right. intros [_ [_ E]]. cbn [fst snd] in E.
      rewrite Hid in E. apply strict_eq_some in E. congruence. }
  apply strict_eq_some in Hsame.
  assert (Hnot : ~ In (nx, nz) (f_cells st)).
  { intros Hin. apply has_In in Hin. congruence. }
  assert (Hmem : Spec.member g layer startX startZ (nx, nz)).
  { rewrite !orb_false_iff in Hout. rewrite !Z.ltb_ge, !Z.geb_leb, !Z.leb_gt in Hout.
    unfold Spec.member. cbn [fst snd]. rewrite Hid. repeat split; try lia; assumption. }
  split; [| exists [(nx, nz)]; auto].
  destruct I. constructor; cbn [f_cells f_queue f_minX f_minZ f_maxX f_maxZ].
  - apply NoDup_app; [assumption | repeat constructor; intros [] | ].
    intros x Hx [<- | []]. contradiction.
  - intros c0 Hc0. apply in_app_iff in Hc0. destruct Hc0 as [Hc0 | [<- | []]]; [auto |].
    destruct (inv_pending0 c (nx, nz) eq_refl (or_introl eq_refl)) as [A Ic].
    apply Spec.connected_step with (a := c); auto.
  - apply in_app_iff. left. assumption.
  - intros c0 Hc0. apply in_app_iff in Hc0. apply in_app_iff.
    destruct Hc0 as [Hc0 | Hc0]; [left; auto | right; assumption].
  - intros c0 Hc0. apply in_app_iff in Hc0.
    destruct Hc0 as [Hc0 | [<- | []]].
    + destruct (inv_closed0 c0 Hc0) as [Q | [C | [E F]]].
      * left. apply in_app_iff. left. assumption.
      * right. left. intros m Am Mm. apply in_app_iff. left. apply C; assumption.
      * right. right. split; [assumption |]. intros m Am Mm.
        destruct (F m Am Mm) as [? | [<- | ?]].
        -- left. apply in_app_iff. left. assumption.
        -- left. apply in_app_iff. right. left. reflexivity.
        -- right. assumption.
    + left. apply in_app_iff. right. left. reflexivity.
  - intros c0 m E Hm.
    destruct (inv_pending0 c0 m E (or_intror Hm)) as [A Ic].
    split; [assumption | apply in_app_iff; left; assumption].
  - apply box_add. assumption.
Qed.

Lemma visits_inv c pending : forall st,
  Inv g layer startX startZ (Some c) pending st ->
  Inv g layer startX startZ (Some c) [] (fold_left (visit g layer id) pending st)
  /\ exists new,
       f_cells (fold_left (visit g layer id) pending st) = f_cells st ++ new
       /\ f_queue (fold_left (visit g layer id) pending st) = f_queue st ++ new.
Proof.
  induction pending as [| n pending IH]; intros st I.
  - split; [assumption |]. exists []. rewrite !app_nil_r. auto.
  - cbn [fold_left]. destruct (visit_inv c n pending st I) as [I1 [new1 [C1 Q1]]].
    destruct (IH _ I1) as [I2 [new2 [C2 Q2]]].
    split; [assumption |]. exists (new1 ++ new2).
    rewrite C2, Q2, C1, Q1, !app_assoc. auto.
Qed.

(** One iteration of the loop keeps the invariant and settles one more
    cell. *)
Lemma step_inv st c rest :
  Inv g layer startX startZ None [] st -> f_queue st = c :: rest ->
  Inv g layer startX startZ None [] (step g layer id st c rest)
  /\ Z.of_nat (List.length (f_cells (step g layer id st c rest)))
     - Z.of_nat (List.length (f_queue (step g layer id st c rest)))
     = Z.of_nat (List.length (f_cells st)) - Z.of_nat (List.length (f_queue st)) + 1.
Proof.
  intros I Q. unfold step.
  set (st0 := mkFill (f_cells st) rest (f_minX st) (f_maxX st) (f_minZ st) (f_maxZ st)).
  assert (I0 : Inv g layer startX startZ (Some c) (neighbors c) st0).
  { destruct I. rewrite Q in *.
    constructor; cbn [st0 f_cells f_queue f_minX f_minZ f_maxX f_maxZ]; auto.
    - intros c0 Hc0. apply inv_queue0. right. assumption.
    - intros c0 Hc0. destruct (inv_closed0 c0 Hc0) as [[<- | R] | [C | [E _]]];
        [| auto | auto | discriminate].
      right. right. split; [reflexivity |]. intros m Am _. right.
      apply adjacent_neighbors. assumption.
    - intros c0 m E Hm. injection E as <-. split.
      + apply adjacent_neighbors. assumption.
      + apply inv_queue0. left. reflexivity. }
  destruct (visits_inv c (neighbors c) st0 I0) as [I1 [new [C1 Q1]]].
  split.
  - destruct I1. constructor; auto.
    + intros c0 Hc0. destruct (inv_closed0 c0 Hc0) as [? | [? | [E F]]]; auto.
      right. left. intros m Am Mm. destruct (F m Am Mm) as [? | []]. assumption.
    + intros c0 m E.  discriminate.
  - rewrite C1, Q1, Q. cbn [st0 f_cells f_queue].
    rewrite !length_app. cbn [List.length]. lia.
Qed.

Lemma inv_cells_bound cur pending st :
  Inv g layer startX startZ cur pending st ->
  Z.of_nat (List.length (f_cells st)) <= Z.max 0 (width g) * Z.max 0 (length g).
Proof.
  intros I. apply cells_bound; [apply (inv_nodup _ _ _ _ _ _ _ I) |].
  intros c Hc. apply (inv_conn _ _ _ _ _ _ _ I), connected_member in Hc.
  destruct Hc as [? [? _]]. auto.
Qed.

(** The loop ends within the budget, with an empty queue. *)
Lemma loop_terminates fuel : forall st,
  Inv g layer startX startZ None [] st ->
  Z.max 0 (width g) * Z.max 0 (length g)
  <= Z.of_nat fuel
     + (Z.of_nat (List.length (f_cells st)) - Z.of_nat (List.length (f_queue st))) ->
  exists st', loop g layer fuel id st = Some st'
              /\ Inv g layer startX startZ None [] st' /\ f_queue st' = [].
Proof.
  induction fuel as [| fuel IH]; intros st I B.
  - destruct (f_queue st) as [| c rest] eqn:Q.
    + exists st. cbn [loop]. rewrite Q. auto.
    + pose proof (inv_cells_bound _ _ _ I). cbn [List.length] in B. lia.
  - cbn [loop]. destruct (f_queue st) as [| c rest] eqn:Q.
    + exists st. auto.
    + destruct (step_inv st c rest I Q) as [I1 D].
      apply IH; [assumption |]. rewrite D, Q. lia.
Qed.

(** With an empty queue the set is exactly the component. *)
Lemma inv_component st c :
  Inv g layer startX startZ None [] st -> f_queue st = [] ->
  (In c (f_cells st) <-> Spec.connected g layer startX startZ c).
Proof.
  intros I Q. split; [apply (inv_conn _ _ _ _ _ _ _ I) |].
  intros H. induction H as [| a b Ha IHa Ab Mb].
  - apply (inv_start _ _ _ _ _ _ _ I).
  - destruct (inv_closed _ _ _ _ _ _ _ I a IHa) as [Qa | [C | [E _]]].
    + rewrite Q in Qa. destruct Qa.
    + apply C; assumption.
    + discriminate.
Qed.

End Fill.

End FloodFacts.

Module GridFacts.
Import JS Spec.

Lemma out_of_range_false W H L x y z :
  Schem.out_of_range W H L x y z = false <->
  0 <= x < W /\ 0 <= y < H /\ 0 <= z < L.
Proof.
  unfold Schem.out_of_range.
  rewrite !orb_false_iff, !Z.ltb_ge, !Z.geb_leb, !Z.leb_gt. lia.
Qed.

Lemma schem_getBlock_bounded W H L bi pl x y z :
  Schem.getBlock W H L bi pl x y z <> None ->
  0 <= x < W /\ 0 <= y < H /\ 0 <= z < L.
Proof.
  unfold Schem.getBlock. intros Hg. apply out_of_range_false.
  destruct (Schem.out_of_range W H L x y z); [contradiction | reflexivity].
Qed.

Lemma litematic_getBlock_bounded W H L bi pl x y z :
  Litematic.getBlock W H L bi pl x y z <> None ->
  0 <= x < W /\ 0 <= y < H /\ 0 <= z < L.
Proof.
  unfold Litematic.getBlock. intros Hg. apply out_of_range_false.
  destruct (Schem.out_of_range W H L x y z); [contradiction | reflexivity].
Qed.

(** What a successful [parseSchem] returns. *)
Lemma parseSchem_ok nbt g :
  Schem.parseSchem nbt = ok g ->
  exists paletteTag blockDataRaw blockIndices,
    Schem.Palette (Schem.rootOf nbt) = Some paletteTag
    /\ Schem.BlockData (Schem.rootOf nbt) = Some blockDataRaw
    /\ Varint.decodeVarintArray (map (fun b => b mod 256) blockDataRaw)
         (Schem.Width (Schem.rootOf nbt) * Schem.Height (Schem.rootOf nbt)
          * Schem.Length (Schem.rootOf nbt)) = ok blockIndices
    /\ width g = Schem.Width (Schem.rootOf nbt)
    /\ height g = Schem.Height (Schem.rootOf nbt)
    /\ length g = Schem.Length (Schem.rootOf nbt)
    /\ paletteList g = Schem.buildPalette paletteTag
    /\ getBlock g = Schem.getBlock (width g) (height g) (length g) blockIndices
                      (paletteList g)
    /\ totalNonAir g
       = Schem.countNonAir (Schem.airIndicesFrom 0 (elems (paletteList g)))
           blockIndices.
Proof.
  unfold Schem.parseSchem. intros H.
  destruct (Schem.Palette (Schem.rootOf nbt)) as [paletteTag |]; [| discriminate].
  destruct (Schem.BlockData (Schem.rootOf nbt)) as [raw |]; [| discriminate].
  destruct (Varint.decodeVarintArray _ _) as [e | blockIndices] eqn:D; [discriminate |].
  cbn [bind ok] in H. injection H as <-.
  exists paletteTag, raw, blockIndices. cbn. repeat split; auto.
Qed.

Lemma parseSchem_bounded nbt g : Schem.parseSchem nbt = ok g -> bounded g.
Proof.
  intros H. apply parseSchem_ok in H.
  destruct H as (p & raw & bi & _ & _ & _ & _ & _ & _ & _ & G & _).
  intros x y z. rewrite G. apply schem_getBlock_bounded.
Qed.

Lemma parseLitematic_bounded localeCompare nbt g :
  Litematic.parseLitematic localeCompare nbt = ok g -> bounded g.
Proof.
  unfold Litematic.parseLitematic. intros H.
  destruct (Litematic.Regions nbt) as [regions |]; [| discriminate].
  destruct (match option_map fst (hd_error regions) with
            | Some k => Litematic.lookup k regions
            | None => None
            end) as [region |]; [| discriminate].
  destruct (Litematic.BlockStatePalette region) as [[| entry palette] |];
    try discriminate.
  destruct (Litematic.BlockStates region) as [words |]; [| discriminate].
  destruct (invalidLength _); [discriminate |].
  destruct (Litematic.decodeBlockStates _ _ _) as [e | blockIndices];
    [discriminate |].
  cbn [bind ok] in H. injection H as <-.
  intros x y z. cbn [getBlock width height length].
  apply litematic_getBlock_bounded.
Qed.

(** *** The non-air count of [parseSchem] *)

Lemma airIndices_has_In (s : list Z) v : Schem.has s v = true <-> In v s.
Proof.
  unfold Schem.has. rewrite existsb_exists. split.
  - intros [x [Hx E]]. apply Z.eqb_eq in E. subst. assumption.
  - intros H. exists v. split; [assumption | apply Z.eqb_refl].
Qed.

(** [airIndices] holds exactly the indices of the palette slots that pass
    the test of the [forEach]. *)
Lemma airIndicesFrom_In states : forall idx v,
  In v (Schem.airIndicesFrom idx states) <->
  exists k state, v = idx + Z.of_nat k /\ nth_error states k = Some state
                  /\ Schem.air_state state = true.
Proof.
  induction states as [| s states IH]; intros idx v; cbn [Schem.airIndicesFrom].
  - split; [intros [] | intros [[| k] [state [_ [E _]]]]; discriminate].
  - assert (Tail : In v (Schem.airIndicesFrom (idx + 1) states) <->
              exists k state, v = idx + Z.of_nat (S k)
                /\ nth_error states k = Some state
                /\ Schem.air_state state = true).
    { rewrite IH. split; intros [k [state [E R]]]; exists k, state;
        (split; [lia | exact R]). }
    destruct (Schem.air_state s) eqn:A; cbn [In]; rewrite ?Tail; split.
    + intros [<- | [k [state [E R]]]].
      * exists 0%nat, s. cbn. repeat split; [lia | assumption].
      * exists (S k), state. cbn [nth_error]. split; assumption.
    + intros [[| k] [state [E [N Hs]]]]; cbn [nth_error] in N.
      * left. lia.
      * right. exists k, state. auto.
    + intros [k [state [E R]]]. exists (S k), state. cbn [nth_error]. auto.
    + intros [[| k] [state [E [N Hs]]]]; cbn [nth_error] in N.
      * injection N as <-. congruence.
      * exists k, state. auto.
Qed.

(** An unmapped ([null]) slot of the palette is in [airIndices]. *)
Lemma null_slot_is_air (pl : JSArray) v :
  0 <= v -> nth_error (elems pl) (Z.to_nat v) = Some None ->
  Schem.has (Schem.airIndicesFrom 0 (elems pl)) v = true.
Proof.
  intros Hv N. apply airIndices_has_In, airIndicesFrom_In.
  exists (Z.to_nat v), None. repeat split; [lia | assumption].
Qed.

(** An index outside the palette array is not: the cell is counted. *)
Lemma stray_index_is_not_air (pl : JSArray) v :
  v < 0 \/ JSArray.length pl <= v ->
  Schem.has (Schem.airIndicesFrom 0 (elems pl)) v = false.
Proof.
  intros Hv. destruct (Schem.has _ v) eqn:E; [| reflexivity].
  apply airIndices_has_In, airIndicesFrom_In in E. destruct E as [k [state [Ev [N _]]]].
  assert (k < List.length (elems pl))%nat
    by (apply nth_error_Some; congruence).
  unfold JSArray.length in Hv. lia.
Qed.

(** Past the end of the palette array [getBlock] finds no block. *)
Lemma get_past_end (pl : JSArray) v :
  JSArray.length pl <= v -> JSArray.get pl v = None.
Proof.
  intros Hv. unfold JSArray.get, JSArray.length in *.
  destruct (v <? 0) eqn:E; [apply Z.ltb_lt in E; lia |].
  destruct (nth_error (elems pl) (Z.to_nat v)) eqn:N; [| reflexivity].
  assert (Z.to_nat v < List.length (elems pl))%nat
    by (apply nth_error_Some; congruence).
  lia.
Qed.

End GridFacts.

Module VarintProps.
Import JS Varint BitFacts VarintFacts GridFacts.

(** C6. For every list of non-negative 32-bit integers (values from 0 to
    2^31 - 1, the non-negative range of the decoder's [Int32Array]) that is
    no longer than a typed array may be, encoding the list with the LEB128
    scheme and decoding the bytes with [decodeVarintArray], the expected
    count being the length of the list, gives the list back. *)
Theorem varint_roundtrip (vs : list Z) :
  Forall (fun v => 0 <= v < 2 ^ 31) vs ->
  Z.of_nat (List.length vs) <= maxTypedArrayLength ->
  decodeVarintArray (encodeVarintArray vs) (Z.of_nat (List.length vs)) = ok vs.
Proof.
  intros Hall Hlen. rewrite decodeVarintArray_valid by lia.
  rewrite Nat2Z.id. apply decodeFrom_encode. assumption.
Qed.

Lemma varint_roundtrip_witness :
  decodeVarintArray (encodeVarintArray [0; 127; 128; 300; 2147483647]) 5
  = ok [0; 127; 128; 300; 2147483647].
Proof.
  apply (varint_roundtrip [0; 127; 128; 300; 2147483647]).
  - repeat constructor; lia.
  - vm_compute. discriminate.
Defined.



End VarintProps.

Module LayoutProps.
Import JS Litematic BitFacts LayoutFacts SpanningFacts DecodeFacts Spec.

(** C1. For a palette of P entries and N expected elements the bit-packed
    decoder works with bitsPerEntry = max(2, ceil(log2 P)), the least
    width of at least two bits that holds P values, with
    expectedSpanning = ceil(N * bitsPerEntry / 64) and
    expectedNonSpanning = ceil(N / floor(64 / bitsPerEntry)); it decodes
    with the spanning loop exactly when the two expected counts differ and
    the word array has expectedSpanning words, and with the non-spanning
    loop in every other case. *)
Theorem layout_selection (blockStatesLong : list Z) (P N : Z) :
  1 <= P <= 2 ^ 32 ->
  let b := bitsPerEntry P in
  let e := entriesPerLong b in
  (2 <= b /\ P <= 2 ^ b /\ forall k, 2 <= k -> P <= 2 ^ k -> b <= k)
  /\ 64 * (expectedSpanning N b - 1) < N * b <= 64 * expectedSpanning N b
  /\ (e * b <= 64 < (e + 1) * b
      /\ e * (expectedNonSpanning N b - 1) < N <= e * expectedNonSpanning N b)
  /\ (isSpanning blockStatesLong N b = true <->
      expectedSpanning N b <> expectedNonSpanning N b
      /\ Z.of_nat (List.length blockStatesLong) = expectedSpanning N b)
  /\ decodeBlockStates blockStatesLong P N
     = if isSpanning blockStatesLong N b
       then fillFrom (spanningEntry blockStatesLong b) (Z.to_nat N) 0
       else fillFrom (nonSpanningEntry blockStatesLong b) (Z.to_nat N) 0.
Proof.
  intros HP b e.
  assert (Hb : 2 <= b <= 32).
  { split; [apply bitsPerEntry_lower | apply bitsPerEntry_least; lia]. }
  assert (He : e * b <= 64 < (e + 1) * b).
  { unfold e, entriesPerLong. Z.to_euclidean_division_equations. nia. }
  assert (0 < e) by nia.
  split; [| split; [| split; [| split]]].
  - split; [apply Hb |]. split; [apply bitsPerEntry_fits |].
    intros k. apply bitsPerEntry_least.
  - apply ceil_div_spec. lia.
  - split; [assumption |]. apply (ceil_div_spec N e). assumption.
  - rewrite isSpanning_true. tauto.
  - reflexivity.
Qed.

Lemma layout_selection_witness :
  isSpanning Examples.spanningWords 25 (bitsPerEntry 17) = true
  /\ isSpanning [-1; 2; 0] 25 (bitsPerEntry 17) = false.
Proof.
  split.
  - apply (layout_selection Examples.spanningWords 17 25); [lia |].
    split; [discriminate | reflexivity].
  - destruct (isSpanning [-1; 2; 0] 25 (bitsPerEntry 17)) eqn:E; [| reflexivity].
    apply (layout_selection [-1; 2; 0] 17 25) in E; [| lia].
    destruct E as [_ E]. discriminate E.
Defined.

(** C2. Under the spanning layout entry i is the value at absolute bit
    offset i * bitsPerEntry of the word stream: when its first and last
    bit are in one word it is (word >> startBitOffset) & mask, otherwise
    it is the start word shifted right by startBitOffset, OR-ed with the
    next word shifted left by 64 - startBitOffset, masked. Words are read
    as unsigned 64-bit numbers, a missing next word reads as zero, and the
    decode of the whole array does not fail. *)
Theorem spanning_decode (blockStatesLong : list Z) (P N i : Z) :
  1 <= P <= 2 ^ 31 -> 0 <= i < N ->
  let b := bitsPerEntry P in
  let startIndex := i * b / 64 in
  let endIndex := (i * b + b - 1) / 64 in
  let startBitOffset := (i * b) mod 64 in
  let startWord := asUintN64 (nth (Z.to_nat startIndex) blockStatesLong 0) in
  let nextWord := asUintN64 (nth (Z.to_nat endIndex) blockStatesLong 0) in
  (0 <= startIndex < Z.of_nat (List.length blockStatesLong) ->
     spanningEntry blockStatesLong b i = ok (entryAt blockStatesLong b i)
     /\ (startIndex = endIndex ->
           entryAt blockStatesLong b i
           = Z.land (Z.shiftr startWord startBitOffset) (mask b))
     /\ (startIndex <> endIndex ->
           entryAt blockStatesLong b i
           = Z.land (Z.lor (Z.shiftr startWord startBitOffset)
                           (Z.shiftl nextWord (64 - startBitOffset)))
                    (mask b)))
  /\ (isSpanning blockStatesLong N b = true ->
        0 <= startIndex <= endIndex
        /\ endIndex < Z.of_nat (List.length blockStatesLong)
        /\ exists blockIndices,
             decodeBlockStates blockStatesLong P N = ok blockIndices
             /\ List.length blockIndices = Z.to_nat N
             /\ nth (Z.to_nat i) blockIndices 0 = entryAt blockStatesLong b i).
Proof.
  intros HP Hi b startIndex endIndex startBitOffset startWord nextWord.
  assert (Hb : 2 <= b <= 31).
  { split; [apply bitsPerEntry_lower | apply bitsPerEntry_least; lia]. }
  split.
  - intros Hstart. destruct (word_present _ _ Hstart) as [w Hw].
    pose proof (spanningEntry_entryAt blockStatesLong b i w ltac:(lia) ltac:(lia) Hw) as E.
    split; [assumption |].
    unfold spanningEntry in E. fold startIndex endIndex startBitOffset in E.
    fold startIndex in Hw. rewrite Hw in E.
    assert (Hsw : asUintN64 w = startWord).
    { unfold startWord. rewrite (word_some _ _ _ Hw). reflexivity. }
    rewrite Hsw in E.
    split; intros Hcase.
    + apply Z.eqb_eq in Hcase. rewrite Hcase in E. injection E as <-. reflexivity.
    + apply Z.eqb_neq in Hcase. rewrite Hcase in E. injection E as <-.
      rewrite word_nth by (unfold endIndex; Z.to_euclidean_division_equations; nia).
      fold nextWord. rewrite Z.land_lor_distr_l. reflexivity.
  - intros Hsp. pose proof Hsp as Hlen. apply isSpanning_true in Hlen.
    destruct Hlen as [Hlen _].
    destruct (spanning_start_present blockStatesLong N b i ltac:(lia) Hi Hlen)
      as [Hs He].
    split; [unfold startIndex, endIndex in *; Z.to_euclidean_division_equations; nia |].
    split; [apply He |].
    fold b in Hsp. unfold b in *.
    rewrite decode_spanning by (assumption || lia).
    eexists. split; [reflexivity |]. split.
    + rewrite length_map, length_seq. reflexivity.
    + rewrite (nth_fill (entryAt blockStatesLong (bitsPerEntry P))) by lia.
      apply toInt32_small.
      pose proof (entryAt_range blockStatesLong (bitsPerEntry P) i ltac:(lia)).
      assert (2 ^ bitsPerEntry P <= 2 ^ 31) by (apply Z.pow_le_mono_r; lia).
      lia.
Qed.

Lemma spanning_decode_witness :
  spanningEntry Examples.spanningWords (bitsPerEntry 17) 12
  = ok (entryAt Examples.spanningWords (bitsPerEntry 17) 12)
  /\ exists blockIndices,
       decodeBlockStates Examples.spanningWords 17 25 = ok blockIndices
       /\ nth 12 blockIndices 0 = 15.
Proof.
  destruct (spanning_decode Examples.spanningWords 17 25 12) as [A B];
    [lia | lia |].
  split.
  - apply A. vm_compute. split; [discriminate | reflexivity].
  - destruct B as [_ [_ [blockIndices [D [_ E]]]]]; [reflexivity |].
    exists blockIndices. split; [exact D | exact E].
Defined.

End LayoutProps.

Module GridProps.
Import JS BlockColors Spec GridFacts DecodeFacts LayoutFacts.

(** C5. The two adapters address the flat array alike: the index
    [x + z*Width + y*Width*Length] of the dense-varint adapter and the
    index [y*Length*Width + z*Width + x] of the bit-packed adapter are the
    same function of (x, y, z), and over the same captured data the two
    [getBlock] closures return the same block for every coordinate. *)
Theorem linear_index_agreement (W H L : Z) (blockIndices : list Z)
    (paletteList : JSArray) (x y z : Z) :
  Schem.index W L x y z = Litematic.index W L x y z
  /\ Schem.getBlock W H L blockIndices paletteList x y z
     = Litematic.getBlock W H L blockIndices paletteList x y z.
Proof.
  assert (E : Schem.index W L x y z = Litematic.index W L x y z)
    by (unfold Schem.index, Litematic.index; ring).
  split; [exact E |].
  unfold Schem.getBlock, Litematic.getBlock. rewrite E. reflexivity.
Qed.

(** C3, as the code has it. [totalNonAir] is not the number of cells that
    [isAir] classifies as not air: for a one-cell grid holding the bare
    descriptor [air], both adapters report one non-air block, while
    [isAir] classifies the only cell as air. *)
Theorem totalNonAir_disagrees_with_isAir :
  (exists g, Schem.parseSchem Examples.bareAirSchem = ok g
             /\ isAir (getBlock g 0 0 0) = true
             /\ nonAirCells g = 0
             /\ totalNonAir g = 1)
  /\ (exists g, Litematic.parseLitematic Examples.codeUnitCompare
                  Examples.bareAirLitematic = ok g
                /\ isAir (getBlock g 0 0 0) = true
                /\ nonAirCells g = 0
                /\ totalNonAir g = 1).
Proof.
  split; eexists; (split; [reflexivity |]); repeat split.
Qed.

(** C9, as the code has it. A cell whose palette index lies past the end
    of the palette reads as "no block", yet it is counted in
    [totalNonAir]. *)
Theorem stray_index_counted_as_block :
  exists g, Schem.parseSchem Examples.strayIndexSchem = ok g
            /\ JSArray.length (paletteList g) = 1
            /\ getBlock g 0 0 0 = None
            /\ nonAirCells g = 0
            /\ totalNonAir g = 1.
Proof.
  eexists. split; [reflexivity |]. repeat split.
Qed.




(** C10. [parseLitematic] reads the tree's metadata and its first region
    only: two trees with the same [Metadata] and the same first region
    (key and contents) give the same result, whatever other regions they
    hold: the same dimensions, palette list, [getBlock], name and
    [totalNonAir], or the same error. *)
Theorem first_region_only (localeCompare : string -> string -> comparison)
    (nbt1 nbt2 : Litematic.Nbt) :
  Litematic.Metadata_ nbt1 = Litematic.Metadata_ nbt2 ->
  firstRegion nbt1 = firstRegion nbt2 ->
  Litematic.parseLitematic localeCompare nbt1
  = Litematic.parseLitematic localeCompare nbt2.
Proof.
  intros HM HR. unfold Litematic.parseLitematic, firstRegion in *.
  rewrite HM.
  destruct (Litematic.Regions nbt1) as [r1 |], (Litematic.Regions nbt2) as [r2 |];
    cbn [option_map] in HR; try discriminate; [| reflexivity].
  injection HR as HR.
  destruct r1 as [| [k1 g1] r1], r2 as [| [k2 g2] r2];
    cbn [hd_error] in HR; try discriminate; [reflexivity |].
  injection HR as -> ->.
  cbn [hd_error option_map fst Litematic.lookup]. rewrite String.eqb_refl.
  reflexivity.
Qed.

Lemma first_region_only_witness :
  Litematic.parseLitematic Examples.codeUnitCompare Examples.oneRegion
  = Litematic.parseLitematic Examples.codeUnitCompare Examples.twoRegions.
Proof.
  apply first_region_only; reflexivity.
Defined.

End GridProps.

Module FloodProps.
Import JS BlockColors App Spec FloodInvariant GridFacts FloodFacts.

Lemma getBaseBlockId_some bs id : getBaseBlockId bs = Some id -> bs <> None.
Proof. intros H E. subst. discriminate. Qed.

(** An air start cell never passes the guard of [floodFill]. *)
Lemma isAir_guard bs :
  isAir bs = true ->
  truthy (getBaseBlockId bs) = false
  \/ exists id, getBaseBlockId bs = Some id
                /\ isAir (Some ("minecraft:" ++ id)%string) = true.
Proof.
  destruct bs as [s |]; [| left; reflexivity].
  unfold isAir, getBaseBlockId.
  destruct (truthy (Some s)); [| left; reflexivity].
  intros H. right. eexists. split; [reflexivity |].
  rewrite !orb_true_iff, !String.eqb_eq in H.
  destruct H as [[[-> | ->] | ->] | ->]; reflexivity.
Qed.

(** C4, as the code has it. A cell holding the bare descriptor
    [cave_air] is a block for every other path of the viewer: [isAir]
    does not classify it as air, so [render] draws it and the pointer
    handlers ask for its group, and [computeMaterials] counts it under the
    base identifier [cave_air]. [floodFill], whose guard tests
    'minecraft:' + the base identifier instead of the block state, answers
    "no region" for it. *)
Theorem bare_cave_air_start :
  exists g, Schem.parseSchem Examples.caveAirSchem = ok g
            /\ isAir (getBlock g 0 0 0) = false
            /\ getBaseBlockId (getBlock g 0 0 0) = Some "cave_air"%string
            /\ Materials.countCells g = [("cave_air"%string, 1)]
            /\ floodFill g 0 0 0 = Some None.
Proof.
  eexists. split; [reflexivity |]. repeat split.
Qed.

(** What [floodFill] returns, guard included. It answers "no region" when
    the start cell has no base identifier or when 'minecraft:' + its base
    identifier is classified as air, which is the case of every air start
    cell. Otherwise it returns, without repetition, exactly the cells of
    the four-directionally connected component of the start cell among the
    in-bounds cells of the layer with the start cell's base identifier,
    with the exact bounding box of that set, w and h its extents, and
    count its size. *)
Theorem floodFill_component (g : Schematic) (layer startX startZ : Z) :
  bounded g ->
  let start := getBlock g startX layer startZ in
  let baseId := getBaseBlockId start in
  (isAir start = true -> floodFill g layer startX startZ = Some None)
  /\ (truthy baseId = false -> floodFill g layer startX startZ = Some None)
  /\ (forall id, baseId = Some id ->
        isAir (Some ("minecraft:" ++ id)%string) = true ->
        floodFill g layer startX startZ = Some None)
  /\ (forall id, baseId = Some id -> truthy baseId = true ->
        isAir (Some ("minecraft:" ++ id)%string) = false ->
        exists r,
          floodFill g layer startX startZ = Some (Some r)
          /\ NoDup (cells r)
          /\ (forall c, In c (cells r) <-> connected g layer startX startZ c)
          /\ boundingBox (cells r) (minX r) (minZ r) (maxX r) (maxZ r)
          /\ w r = maxX r - minX r + 1
          /\ h r = maxZ r - minZ r + 1
          /\ count r = Z.of_nat (List.length (cells r))).
Proof.
  intros Hb start baseId.
  assert (Falsy : truthy baseId = false -> floodFill g layer startX startZ = Some None).
  { intros Hf. unfold floodFill, floodFillWith. fold start. fold baseId.
    destruct baseId as [id |]; [| reflexivity]. rewrite Hf. reflexivity. }
  assert (Guard : forall id, baseId = Some id ->
            isAir (Some ("minecraft:" ++ id)%string) = true ->
            floodFill g layer startX startZ = Some None).
  { intros id Hid Hair. unfold floodFill, floodFillWith. fold start. fold baseId.
    rewrite Hid, Hair. rewrite orb_true_r. reflexivity. }
  split; [| split; [exact Falsy | split; [exact Guard |]]].
  - intros Hair. destruct (isAir_guard start Hair) as [Hf | [id [Hid Hg]]].
    + apply Falsy. exact Hf.
    + apply (Guard id); assumption.
  - intros id Hid Htruthy Hnot.
    assert (Hstart : 0 <= startX < width g /\ 0 <= startZ < length g).
    { destruct (Hb startX layer startZ) as [? [_ ?]]; [| auto].
      apply getBaseBlockId_some with id. exact Hid. }
    assert (Hmem : member g layer startX startZ (startX, startZ)).
    { unfold member. cbn [fst snd]. repeat split; try lia. }
    set (st0 := mkFill [(startX, startZ)] [(startX, startZ)]
                  startX startX startZ startZ).
    assert (I0 : Inv g layer startX startZ None [] st0).
    { constructor; cbn [st0 f_cells f_queue f_minX f_minZ f_maxX f_maxZ].
      - repeat constructor. intros [].
      - intros c [<- | []]. apply connected_start. exact Hmem.
      - left. reflexivity.
      - auto.
      - intros c Hc. left. exact Hc.
      - intros c n E. discriminate.
      - unfold boundingBox.
        split; [intros c [<- | []]; cbn [fst snd]; lia |].
        repeat split; exists (startX, startZ); (split; [left |]; reflexivity). }
    destruct (loop_terminates g layer startX startZ id Hid
                (Z.to_nat (width g * length g)) st0 I0)
      as [st [Hloop [I Q]]].
    { cbn [st0 f_cells f_queue List.length]. nia. }
    unfold floodFill, floodFillWith. fold start. fold baseId.
    rewrite Hid. rewrite <- Hid, Htruthy, Hnot. cbn [negb orb].
    fold st0. rewrite Hloop. eexists. split; [reflexivity |].
    cbn [cells minX minZ maxX maxZ w h count].
    split; [apply (inv_nodup _ _ _ _ _ _ _ I) |].
    split; [intros c; apply (inv_component g layer startX startZ st c I Q) |].
    split; [apply (inv_box _ _ _ _ _ _ _ I) |].
    auto.
Qed.

Lemma floodFill_component_witness :
  exists g, Schem.parseSchem Examples.stairsSchem = ok g
    /\ exists r, floodFill g 0 0 0 = Some (Some r)
         /\ count r = 4
         /\ forall c, In c (cells r) <-> connected g 0 0 0 c.
Proof.
  destruct (Schem.parseSchem Examples.stairsSchem) as [e | g] eqn:P.
  - vm_compute in P. discriminate P.
  - exists g. split; [reflexivity |].
    pose proof (floodFill_component g 0 0 0 (parseSchem_bounded _ _ P))
      as [_ [_ [_ H]]].
    vm_compute in P. injection P as <-.
    destruct (H "oak_stairs"%string) as [r [F [_ [C _]]]];
      [reflexivity | reflexivity | reflexivity |].
    exists r. split; [exact F |]. split; [| exact C].
    vm_compute in F. injection F as <-. reflexivity.
Defined.

End FloodProps.

Module VarintMore.
Import JS Varint BitFacts VarintFacts.

Lemma toInt32_range z : - 2 ^ 31 <= toInt32 z < 2 ^ 31.
Proof.
  unfold toInt32. pose proof (Z.mod_pos_bound (z + 2 ^ 31) (2 ^ 32)). lia.
Qed.

Lemma readVarint_app bytes extra : forall value shift r rest,
  readVarint bytes value shift = Some (r, rest) ->
  readVarint (bytes ++ extra) value shift = Some (r, rest ++ extra).
Proof.
  induction bytes as [| b bytes IH]; intros value shift r rest H; [discriminate |].
  cbn [readVarint app] in *.
  destruct (negb (and32 b 128 =? 0)).
  - apply IH. exact H.
  - injection H as <- <-. reflexivity.
Qed.

Lemma decodeFrom_app n extra : forall i bytes values,
  decodeFrom n i bytes = ok values ->
  decodeFrom n i (bytes ++ extra) = ok values.
Proof.
  induction n as [| n IH]; intros i bytes values H; [exact H |].
  cbn [decodeFrom] in *.
  destruct (readVarint bytes 0 0) as [[v rest] |] eqn:R; [| discriminate].
  rewrite (readVarint_app _ extra _ _ _ _ R).
  destruct (decodeFrom n (i + 1) rest) as [e | tail] eqn:D; [discriminate |].
  rewrite (IH _ _ _ D). exact H.
Qed.

Lemma decodeFrom_values n : forall i bytes values,
  decodeFrom n i bytes = ok values ->
  List.length values = n /\ Forall (fun v => - 2 ^ 31 <= v < 2 ^ 31) values.
Proof.
  induction n as [| n IH]; intros i bytes values H; cbn [decodeFrom] in H.
  - injection H as <-. split; [reflexivity | constructor].
  - destruct (readVarint bytes 0 0) as [[v rest] |]; [| discriminate].
    destruct (decodeFrom n (i + 1) rest) as [e | tail] eqn:D; [discriminate |].
    injection H as <-. destruct (IH _ _ _ D) as [L F].
    split; [cbn; congruence |]. constructor; [apply toInt32_range | exact F].
Qed.

(** X1. Bytes that follow the last expected varint are ignored: a buffer
    that decodes to N values decodes to the same values whatever is
    appended to it. *)
Theorem trailing_bytes_ignored (bytes extra : list Z) (N : Z) (values : list Z) :
  decodeVarintArray bytes N = ok values ->
  decodeVarintArray (bytes ++ extra) N = ok values.
Proof.
  unfold decodeVarintArray. destruct (invalidLength N); [discriminate |].
  apply decodeFrom_app.
Qed.

Lemma trailing_bytes_ignored_witness :
  decodeVarintArray ([172; 2; 5] ++ [255; 255]) 2 = ok [300; 5].
Proof.
  apply (trailing_bytes_ignored [172; 2; 5] [255; 255] 2 [300; 5]).
  reflexivity.
Defined.

(** X2. A successful decode returns exactly N values, each a signed
    32-bit integer, whatever the bytes are (over-long varints wrap). *)
Theorem decoded_values_are_int32 (bytes : list Z) (N : Z) (values : list Z) :
  decodeVarintArray bytes N = ok values ->
  Z.of_nat (List.length values) = N
  /\ Forall (fun v => - 2 ^ 31 <= v < 2 ^ 31) values.
Proof.
  unfold decodeVarintArray. destruct (invalidLength N) eqn:E; [discriminate |].
  apply VarintFacts.invalidLength_false in E. intros H. apply decodeFrom_values in H.
  destruct H as [L F]. split; [lia | exact F].
Qed.

Lemma decoded_values_are_int32_witness :
  Z.of_nat (List.length [-1; 0]) = 2
  /\ Forall (fun v => - 2 ^ 31 <= v < 2 ^ 31) [-1; 0].
Proof.
  apply (decoded_values_are_int32 [255; 255; 255; 255; 15; 128; 128; 128; 128; 128; 0] 2).
  reflexivity.
Defined.

End VarintMore.

Module LayoutMore.
Import JS Litematic BitFacts LayoutFacts SpanningFacts DecodeFacts Spec.

Lemma fillFrom_Forall (Q : Z -> Prop) entry n : forall i0 l,
  (forall i v, entry i = ok v -> Q (toInt32 v)) ->
  fillFrom entry n i0 = ok l -> Forall Q l.
Proof.
  induction n as [| n IH]; intros i0 l HQ H; cbn [fillFrom] in H.
  - injection H as <-. constructor.
  - destruct (entry i0) as [e | v] eqn:E; [discriminate |].
    cbn [bind] in H.
    destruct (fillFrom entry n (i0 + 1)) as [e | tail] eqn:F; [discriminate |].
    injection H as <-. constructor; [apply (HQ i0); exact E | eauto].
Qed.

Lemma land_mask_range x b : 0 <= b -> 0 <= Z.land x (mask b) < 2 ^ b.
Proof.
  intros Hb. rewrite mask_ones, Z.land_ones by assumption.
  apply Z.mod_pos_bound. apply Z.pow_pos_nonneg; lia.
Qed.

Lemma spanningEntry_range words b i v :
  0 <= b -> spanningEntry words b i = ok v -> 0 <= v < 2 ^ b.
Proof.
  intros Hb H. unfold spanningEntry in H.
  destruct (word words (i * b / 64)) as [w |]; [| discriminate].
  destruct (_ =? _).
  - injection H as <-. apply land_mask_range. assumption.
  - injection H as <-. rewrite <- Z.land_lor_distr_l. apply land_mask_range. assumption.
Qed.

Lemma nonSpanningEntry_range words b i v :
  0 <= b -> nonSpanningEntry words b i = ok v -> 0 <= v < 2 ^ b.
Proof.
  intros Hb H. unfold nonSpanningEntry in H. injection H as <-.
  apply land_mask_range. assumption.
Qed.

(** X3. Whatever the words hold, every index the bit-packed decoder
    returns lies between 0 and 2^bitsPerEntry - 1: never negative, but
    possibly past the end of a palette whose size is not a power of two. *)
Theorem decoded_indices_in_range (blockStatesLong : list Z) (P N : Z)
    (blockIndices : list Z) :
  1 <= P <= 2 ^ 31 ->
  decodeBlockStates blockStatesLong P N = ok blockIndices ->
  Forall (fun v => 0 <= v < 2 ^ bitsPerEntry P) blockIndices.
Proof.
  intros HP H.
  assert (Hb : 2 <= bitsPerEntry P <= 31).
  { split; [apply bitsPerEntry_lower | apply bitsPerEntry_least; lia]. }
  assert (Small : forall v, 0 <= v < 2 ^ bitsPerEntry P -> toInt32 v = v).
  { intros v Hv. apply toInt32_small.
    assert (2 ^ bitsPerEntry P <= 2 ^ 31) by (apply Z.pow_le_mono_r; lia). lia. }
  unfold decodeBlockStates in H.
  destruct (isSpanning _ _ _); eapply fillFrom_Forall; try exact H;
    intros i v E; cbv beta.
  - apply spanningEntry_range in E; [| lia]. rewrite Small; assumption.
  - apply nonSpanningEntry_range in E; [| lia]. rewrite Small; assumption.
Qed.

Lemma decoded_indices_in_range_witness :
  Forall (fun v => 0 <= v < 2 ^ bitsPerEntry 5) [7; 7; 7; 7].
Proof.
  apply (decoded_indices_in_range [-1] 5 4); [lia | reflexivity].
Defined.

(** X4. Under the non-spanning layout the decode never fails and entry i
    is read from word floor(i / entriesPerLong) alone, at bit
    (i mod entriesPerLong) * bitsPerEntry: the entry ends inside that word,
    it is the bitsPerEntry bits of the unsigned word stream at that place,
    and a word past the end of the array reads as zero. *)
Theorem nonSpanning_decode (blockStatesLong : list Z) (P N i : Z) :
  1 <= P <= 2 ^ 31 -> 0 <= i < N ->
  isSpanning blockStatesLong N (bitsPerEntry P) = false ->
  let b := bitsPerEntry P in
  let e := entriesPerLong b in
  let longIndex := i / e in
  let bitOffset := (i mod e) * b in
  0 <= bitOffset /\ bitOffset + b <= 64
  /\ exists blockIndices,
       decodeBlockStates blockStatesLong P N = ok blockIndices
       /\ List.length blockIndices = Z.to_nat N
       /\ nth (Z.to_nat i) blockIndices 0
          = Z.land (Z.shiftr (asUintN64 (nth (Z.to_nat longIndex) blockStatesLong 0))
                             bitOffset)
                   (mask b)
       /\ nth (Z.to_nat i) blockIndices 0
          = Z.land (Z.shiftr (bitstream blockStatesLong) (64 * longIndex + bitOffset))
                   (Z.ones b).
Proof.
  intros HP Hi Hsp b e longIndex bitOffset.
  assert (Hb : 2 <= b <= 31).
  { split; [apply bitsPerEntry_lower | apply bitsPerEntry_least; lia]. }
  assert (He : e * b <= 64 < (e + 1) * b).
  { unfold e, entriesPerLong. Z.to_euclidean_division_equations. nia. }
  assert (He0 : 0 < e) by nia.
  assert (Hm : 0 <= i mod e < e) by (apply Z.mod_pos_bound; lia).
  assert (Hq : 0 <= longIndex) by (apply Z.div_pos; lia).
  assert (Hoff : 0 <= bitOffset /\ bitOffset + b <= 64) by (unfold bitOffset; nia).
  split; [apply Hoff |]. split; [apply Hoff |].
  set (f := fun k =>
         Z.land (Z.shiftr (asUintN64
                   match word blockStatesLong (k / e) with Some w => w | None => 0 end)
                   (k mod e * b)) (mask b)).
  assert (D : decodeBlockStates blockStatesLong P N
              = ok (map (fun k => toInt32 (f (0 + Z.of_nat k))) (seq 0 (Z.to_nat N)))).
  { unfold decodeBlockStates. fold b. fold b in Hsp. rewrite Hsp.
    apply fillFrom_ok. intros k Hk. reflexivity. }
  rewrite D. eexists. split; [reflexivity |].
  split; [rewrite length_map, length_seq; reflexivity |].
  rewrite (nth_fill f) by lia.
  assert (Ev : toInt32 (f i)
               = Z.land (Z.shiftr (asUintN64 (nth (Z.to_nat longIndex) blockStatesLong 0))
                                  bitOffset) (mask b)).
  { unfold f. fold longIndex. fold bitOffset. rewrite word_nth by assumption.
    apply toInt32_small.
    pose proof (land_mask_range
                  (Z.shiftr (asUintN64 (nth (Z.to_nat longIndex) blockStatesLong 0))
                            bitOffset) b ltac:(lia)).
    assert (2 ^ b <= 2 ^ 31) by (apply Z.pow_le_mono_r; lia). lia. }
  split; [exact Ev |]. rewrite Ev.
  apply Z.bits_inj'. intros n Hn.
  rewrite mask_ones, !Z.land_spec, !Z.shiftr_spec, ones_bit by lia.
  destruct (n <? b) eqn:E; [| rewrite !andb_false_r; reflexivity].
  apply Z.ltb_lt in E. rewrite !andb_true_r.
  rewrite bitstream_bits by lia.
  replace ((n + (64 * longIndex + bitOffset)) / 64) with longIndex
    by (Z.to_euclidean_division_equations; lia).
  replace ((n + (64 * longIndex + bitOffset)) mod 64) with (n + bitOffset)
    by (Z.to_euclidean_division_equations; lia).
  reflexivity.
Qed.

Lemma nonSpanning_decode_witness :
  exists blockIndices,
    decodeBlockStates [-1; 2; 0] 17 25 = ok blockIndices
    /\ nth 12 blockIndices 0 = 2.
Proof.
  destruct (nonSpanning_decode [-1; 2; 0] 17 25 12) as [_ [_ [l [D [_ [E _]]]]]];
    [lia | lia | reflexivity |].
  exists l. split; [exact D | exact E].
Defined.

End LayoutMore.

Module PaletteFacts.
Import JS Spec Spec2 GridFacts.

Lemma update_length l : forall n v,
  (n < List.length l)%nat -> List.length (JSArray.update l n v) = List.length l.
Proof.
  induction l as [| e l IH]; intros [| n] v H; cbn in *; try lia.
  rewrite IH by lia. reflexivity.
Qed.

Lemma update_nth l : forall n v m,
  match nth_error (JSArray.update l n v) m with Some e => e | None => None end
  = if Nat.eqb n m then Some v
    else match nth_error l m with Some e => e | None => None end.
Proof.
  induction l as [| e l IH]; intros n v m.
  - revert m. induction n as [| n IHn]; intros [| m]; cbn [JSArray.update nth_error Nat.eqb];
      try reflexivity.
    + destruct m; reflexivity.
    + rewrite IHn. destruct (Nat.eqb n m); [reflexivity | destruct m; reflexivity].
  - destruct n as [| n], m as [| m]; cbn [JSArray.update nth_error Nat.eqb];
      try reflexivity. apply IH.
Qed.

Lemma get_set a i v j :
  JSArray.get (JSArray.set a i v) j
  = if i =? j then Some v else JSArray.get a j.
Proof.
  unfold JSArray.get, JSArray.set.
  destruct (i <? 0) eqn:Ei; cbn [elems negs];
    destruct (j <? 0) eqn:Ej;
    try apply Z.ltb_lt in Ei; try apply Z.ltb_ge in Ei;
    try apply Z.ltb_lt in Ej; try apply Z.ltb_ge in Ej.
  - cbn [JSArray.assoc]. reflexivity.
  - destruct (i =? j) eqn:E; [apply Z.eqb_eq in E; lia | reflexivity].
  - destruct (i =? j) eqn:E; [apply Z.eqb_eq in E; lia | reflexivity].
  - rewrite update_nth.
    destruct (i =? j) eqn:E.
    + apply Z.eqb_eq in E. subst. rewrite Nat.eqb_refl. reflexivity.
    + apply Z.eqb_neq in E.
      destruct (Nat.eqb (Z.to_nat i) (Z.to_nat j)) eqn:N; [| reflexivity].
      apply Nat.eqb_eq in N. lia.
Qed.

Lemma get_filled n j : JSArray.get (JSArray.filled n) j = None.
Proof.
  unfold JSArray.get, JSArray.filled. cbn [elems negs JSArray.assoc].
  destruct (j <? 0); [reflexivity |].
  destruct (nth_error (repeat None (Z.to_nat n)) (Z.to_nat j)) as [e |] eqn:N;
    [| reflexivity].
  apply nth_error_In, repeat_spec in N. exact N.
Qed.

Lemma fold_set_get tag : forall a j,
  JSArray.get (fold_left (fun pl e => JSArray.set pl (snd e) (fst e)) tag a) j
  = match lastMapped tag j with
    | Some s => Some s
    | None => JSArray.get a j
    end.
Proof.
  induction tag as [| e tag IH]; intros a j; [reflexivity |].
  cbn [fold_left lastMapped]. rewrite IH, get_set.
  destruct (lastMapped tag j); [reflexivity |].
  destruct (snd e =? j); reflexivity.
Qed.

Lemma fold_max_eq tag : forall a,
  0 <= a ->
  fold_left (fun a e => Z.max a (snd e)) tag a = Z.max a (maxIndex tag).
Proof.
  induction tag as [| e tag IH]; intros a Ha; cbn [fold_left maxIndex fold_right].
  - lia.
  - rewrite IH by lia. fold (maxIndex tag). lia.
Qed.

Lemma maxIndex_bound tag e : In e tag -> snd e <= maxIndex tag.
Proof.
  induction tag as [| e' tag IH]; intros H; [destruct H |].
  cbn [maxIndex fold_right]. fold (maxIndex tag).
  destruct H as [-> | H]; [lia | apply IH in H; lia].
Qed.

Lemma maxIndex_nonneg tag : 0 <= maxIndex tag.
Proof.
  induction tag as [| e tag IH]; cbn [maxIndex fold_right]; [lia |].
  fold (maxIndex tag). lia.
Qed.

Lemma fold_set_length tag : forall a,
  (forall e, In e tag -> snd e < JSArray.length a) ->
  JSArray.length (fold_left (fun pl e => JSArray.set pl (snd e) (fst e)) tag a)
  = JSArray.length a.
Proof.
  induction tag as [| e tag IH]; intros a H; [reflexivity |].
  cbn [fold_left].
  assert (L : JSArray.length (JSArray.set a (snd e) (fst e)) = JSArray.length a).
  { unfold JSArray.set, JSArray.length in *.
    destruct (snd e <? 0) eqn:E; cbn [elems]; [reflexivity |].
    apply Z.ltb_ge in E. rewrite update_length; [reflexivity |].
    specialize (H e (or_introl eq_refl)). lia. }
  rewrite IH; [exact L |].
  intros e' He'. rewrite L. apply H. right. exact He'.
Qed.

Lemma buildPalette_get tag i :
  JSArray.get (Schem.buildPalette tag) i = lastMapped tag i.
Proof.
  unfold Schem.buildPalette. rewrite fold_set_get, get_filled.
  destruct (lastMapped tag i); reflexivity.
Qed.

End PaletteFacts.

Module PaletteProps.
Import JS Spec Spec2 GridFacts PaletteFacts.

(** X5. The palette list [parseSchem] builds has one slot per index from 0
    to the largest index of the [Palette] tag, and reading it at any index
    gives the block state of the last entry of the tag mapped to that
    index, or nothing when no entry is mapped to it. *)
Theorem buildPalette_lookup (paletteTag : list (string * Z)) (i : Z) :
  JSArray.get (Schem.buildPalette paletteTag) i = lastMapped paletteTag i
  /\ JSArray.length (Schem.buildPalette paletteTag) = maxIndex paletteTag + 1.
Proof.
  unfold Schem.buildPalette. rewrite fold_max_eq by lia.
  pose proof (maxIndex_nonneg paletteTag) as M.
  replace (Z.max 0 (maxIndex paletteTag)) with (maxIndex paletteTag) by lia.
  split.
  - rewrite fold_set_get, get_filled. destruct (lastMapped paletteTag i); reflexivity.
  - assert (L : JSArray.length (JSArray.filled (maxIndex paletteTag + 1))
                = maxIndex paletteTag + 1).
    { unfold JSArray.length, JSArray.filled. cbn [elems].
      rewrite repeat_length. lia. }
    rewrite fold_set_length; [exact L |].
    intros e He. rewrite L. apply maxIndex_bound in He. lia.
Qed.

End PaletteProps.

Module AdapterFacts.
Import JS BlockColors Spec Spec2 GridFacts VarintFacts DecodeFacts FloodFacts.

(** What a successful [parseLitematic] returns. *)
Lemma parseLitematic_ok localeCompare nbt g :
  Litematic.parseLitematic localeCompare nbt = ok g ->
  exists key region rest palette blockStatesLong blockIndices,
    Litematic.Regions nbt = Some ((key, region) :: rest)
    /\ Litematic.BlockStatePalette region = Some palette
    /\ palette <> []
    /\ Litematic.BlockStates region = Some blockStatesLong
    /\ Litematic.decodeBlockStates blockStatesLong (Z.of_nat (List.length palette))
         (width g * height g * length g) = ok blockIndices
    /\ width g = Z.abs (Litematic.x (Litematic.Size region))
    /\ height g = Z.abs (Litematic.y (Litematic.Size region))
    /\ length g = Z.abs (Litematic.z (Litematic.Size region))
    /\ paletteList g
       = JSArray.of_list (map (Litematic.descriptor localeCompare) palette)
    /\ getBlock g = Litematic.getBlock (width g) (height g) (length g) blockIndices
                      (paletteList g)
    /\ totalNonAir g
       = Schem.countNonAir
           (Litematic.airIndicesFrom 0
              (map (Litematic.descriptor localeCompare) palette))
           blockIndices.
Proof.
  unfold Litematic.parseLitematic. intros H.
  destruct (Litematic.Regions nbt) as [[| [key region] rest] |] eqn:HR;
    cbn [hd_error option_map fst Litematic.lookup] in H; try discriminate.
  rewrite String.eqb_refl in H.
  destruct (Litematic.BlockStatePalette region) as [[| entry palette] |] eqn:HP;
    try discriminate.
  destruct (Litematic.BlockStates region) as [words |] eqn:HB; [| discriminate].
  destruct (invalidLength _); [discriminate |].
  destruct (Litematic.decodeBlockStates _ _ _) as [e | blockIndices] eqn:D;
    [discriminate |].
  cbn [bind] in H. cbv zeta in H. unfold ok in H.
  assert (E : g = mkSchematic
                (Z.abs (Litematic.x (Litematic.Size region)))
                (Z.abs (Litematic.y (Litematic.Size region)))
                (Z.abs (Litematic.z (Litematic.Size region)))
                (name g)
                (JSArray.of_list
                   (map (Litematic.descriptor localeCompare) (entry :: palette)))
                (Litematic.getBlock
                   (Z.abs (Litematic.x (Litematic.Size region)))
                   (Z.abs (Litematic.y (Litematic.Size region)))
                   (Z.abs (Litematic.z (Litematic.Size region))) blockIndices
                   (JSArray.of_list
                      (map (Litematic.descriptor localeCompare) (entry :: palette))))
                (Schem.countNonAir
                   (Litematic.airIndicesFrom 0
                      (map (Litematic.descriptor localeCompare) (entry :: palette)))
                   blockIndices)).
  { inversion H. reflexivity. }
  exists key, region, rest, (entry :: palette), words, blockIndices.
  rewrite E. cbn [width height length paletteList getBlock totalNonAir].
  repeat split; auto. discriminate.
Qed.

Lemma decodeBlockStates_length words P N blockIndices :
  Litematic.decodeBlockStates words P N = ok blockIndices ->
  List.length blockIndices = Z.to_nat N.
Proof.
  unfold Litematic.decodeBlockStates.
  assert (G : forall entry n i0 l,
             Litematic.fillFrom entry n i0 = ok l -> List.length l = n).
  { intros entry n. induction n as [| n IH]; intros i0 l H; cbn [Litematic.fillFrom] in H.
    - injection H as <-. reflexivity.
    - destruct (entry i0) as [e | v]; [discriminate |]. cbn [bind] in H.
      destruct (Litematic.fillFrom entry n (i0 + 1)) as [e | tail] eqn:F;
        [discriminate |].
      injection H as <-. cbn. f_equal. eauto. }
  destruct (Litematic.isSpanning _ _ _); apply G.
Qed.

Lemma getBlock_same W H L bi pl x y z :
  Litematic.getBlock W H L bi pl x y z = Schem.getBlock W H L bi pl x y z.
Proof.
  unfold Litematic.getBlock, Schem.getBlock, Litematic.index, Schem.index.
  replace (y * L * W + z * W + x) with (x + z * W + y * W * L) by ring.
  reflexivity.
Qed.

(** A grid of [parseSchem]: the palette, the decoded indices behind it,
    and the count. *)
Lemma parseSchem_parts nbt g :
  Schem.parseSchem nbt = ok g ->
  exists paletteTag blockDataRaw blockIndices,
    Schem.Palette (Schem.rootOf nbt) = Some paletteTag
    /\ Schem.BlockData (Schem.rootOf nbt) = Some blockDataRaw
    /\ Varint.decodeVarintArray (map (fun b => b mod 256) blockDataRaw)
         (width g * height g * length g) = ok blockIndices
    /\ backed g blockIndices
    /\ paletteList g = Schem.buildPalette paletteTag
    /\ totalNonAir g
       = Schem.countNonAir (Schem.airIndicesFrom 0 (elems (paletteList g)))
           blockIndices.
Proof.
  intros H. apply parseSchem_ok in H.
  destruct H as (p & raw & bi & HP & HB & D & Hw & Hh & Hl & Hpl & G & T).
  exists p, raw, bi. rewrite Hw, Hh, Hl.
  repeat split; try assumption.
  - apply decodeVarintArray_ok in D. destruct D as [E D].
    apply VarintMore.decodeFrom_values in D. cbn [width height length]. lia.
  - intros x y z. rewrite G, Hw, Hh, Hl. reflexivity.
Qed.

Lemma parseSchem_backed nbt g :
  Schem.parseSchem nbt = ok g ->
  exists blockIndices,
    backed g blockIndices
    /\ totalNonAir g
       = Schem.countNonAir (Schem.airIndicesFrom 0 (elems (paletteList g)))
           blockIndices.
Proof.
  intros H. apply parseSchem_parts in H.
  destruct H as (p & raw & bi & _ & _ & _ & B & _ & T). eauto.
Qed.

Lemma parseLitematic_parts localeCompare nbt g :
  Litematic.parseLitematic localeCompare nbt = ok g ->
  exists key region rest palette blockStatesLong blockIndices,
    Litematic.Regions nbt = Some ((key, region) :: rest)
    /\ Litematic.BlockStatePalette region = Some palette
    /\ Litematic.BlockStates region = Some blockStatesLong
    /\ Litematic.decodeBlockStates blockStatesLong (Z.of_nat (List.length palette))
         (width g * height g * length g) = ok blockIndices
    /\ backed g blockIndices
    /\ paletteList g
       = JSArray.of_list (map (Litematic.descriptor localeCompare) palette)
    /\ totalNonAir g
       = Schem.countNonAir
           (Litematic.airIndicesFrom 0
              (map (Litematic.descriptor localeCompare) palette))
           blockIndices.
Proof.
  intros H. apply parseLitematic_ok in H.
  destruct H as (key & region & rest & palette & words & bi
                 & HR & HP & _ & HB & D & Hw & Hh & Hl & Hp & G & T).
  exists key, region, rest, palette, words, bi.
  repeat split; try assumption.
  - apply decodeBlockStates_length in D.
    assert (0 <= width g * height g * length g).
    { rewrite Hw, Hh, Hl. repeat apply Z.mul_nonneg_nonneg; apply Z.abs_nonneg. }
    lia.
  - intros x y z. rewrite G. apply getBlock_same.
Qed.

Lemma parseLitematic_backed localeCompare nbt g :
  Litematic.parseLitematic localeCompare nbt = ok g ->
  exists palette blockIndices,
    backed g blockIndices
    /\ paletteList g
       = JSArray.of_list (map (Litematic.descriptor localeCompare) palette)
    /\ totalNonAir g
       = Schem.countNonAir
           (Litematic.airIndicesFrom 0
              (map (Litematic.descriptor localeCompare) palette))
           blockIndices.
Proof.
  intros H. apply parseLitematic_parts in H.
  destruct H as (key & region & rest & palette & words & bi
                 & _ & _ & _ & _ & B & Hp & T).
  eauto.
Qed.

(** *** The linear index enumerates the cells *)

Lemma index_bounds W H L x y z :
  0 <= x < W -> 0 <= y < H -> 0 <= z < L ->
  0 <= Schem.index W L x y z < W * H * L.
Proof.
  intros Hx Hy Hz. unfold Schem.index.
  assert (0 <= z * W <= (L - 1) * W) by nia.
  assert (0 <= W * L) by nia.
  assert (0 <= y * (W * L) <= (H - 1) * (W * L)) by nia.
  nia.
Qed.

Lemma range_succ n : 0 <= n -> range (n + 1) = range n ++ [n].
Proof.
  intros Hn. unfold range.
  replace (Z.to_nat (n + 1)) with (S (Z.to_nat n)) by lia.
  rewrite seq_S, map_app. cbn [map Nat.add]. do 2 f_equal. lia.
Qed.

Lemma range_nonpos n : n <= 0 -> range n = [].
Proof.
  intros Hn. unfold range. replace (Z.to_nat n) with 0%nat by lia. reflexivity.
Qed.

Lemma range_add a b :
  0 <= a -> 0 <= b -> range (a + b) = range a ++ map (fun r => a + r) (range b).
Proof.
  intros Ha. revert b. apply natlike_ind.
  - rewrite Z.add_0_r. cbn. rewrite app_nil_r. reflexivity.
  - intros b Hb IH. unfold Z.succ. rewrite Z.add_assoc.
    rewrite range_succ by lia. rewrite IH, (range_succ b) by lia.
    rewrite map_app, app_assoc. reflexivity.
Qed.

Lemma map_flat_map {A B C} (f : B -> C) (g : A -> list B) l :
  map f (flat_map g l) = flat_map (fun x => map f (g x)) l.
Proof.
  induction l as [| a l IH]; [reflexivity |].
  cbn [flat_map]. rewrite map_app, IH. reflexivity.
Qed.

Lemma range_mul a b :
  0 <= a -> 0 <= b ->
  range (a * b) = flat_map (fun q => map (fun r => q * b + r) (range b)) (range a).
Proof.
  intros Ha Hb. revert a Ha. apply natlike_ind.
  - reflexivity.
  - intros a Ha IH. unfold Z.succ.
    replace ((a + 1) * b) with (a * b + b) by ring.
    rewrite range_add by nia. rewrite (range_succ a) by lia.
    rewrite flat_map_app, IH. cbn [flat_map]. rewrite app_nil_r. reflexivity.
Qed.

(** In scan order the cells of a grid have the linear indices
    0, 1, ..., Width*Height*Length - 1. *)
Lemma allCells_indices g :
  0 <= width g -> 0 <= height g -> 0 <= length g ->
  map (cellIndex (width g) (length g)) (allCells g)
  = range (width g * height g * length g).
Proof.
  intros HW HH HL. unfold allCells.
  replace (width g * height g * length g)
    with (height g * (length g * width g)) by ring.
  rewrite range_mul by nia. rewrite map_flat_map.
  apply flat_map_ext. intros y.
  rewrite range_mul by lia. rewrite map_flat_map, map_flat_map.
  apply flat_map_ext. intros z.
  rewrite !map_map. apply map_ext. intros x.
  unfold cellIndex, Schem.index. cbn [fst snd]. ring.
Qed.

Lemma allCells_inside g c :
  In c (allCells g) -> inside g (fst (fst c)) (snd (fst c)) (snd c).
Proof.
  unfold allCells, inside. intros H.
  apply in_flat_map in H. destruct H as [y [Hy H]].
  apply in_flat_map in H. destruct H as [z [Hz H]].
  apply in_map_iff in H. destruct H as [x [<- Hx]].
  apply In_range in Hx, Hy, Hz. cbn [fst snd]. lia.
Qed.

Lemma allCells_empty g :
  width g <= 0 \/ height g <= 0 \/ length g <= 0 -> allCells g = [].
Proof.
  intros H. destruct (allCells g) as [| c l] eqn:E; [reflexivity |].
  assert (I : In c (allCells g)) by (rewrite E; left; reflexivity).
  apply allCells_inside in I. unfold inside in I. lia.
Qed.

(** *** Counting *)

Lemma countNonAir_filter air blockIndices :
  Schem.countNonAir air blockIndices
  = Z.of_nat (List.length (filter (fun v => negb (Schem.has air v)) blockIndices)).
Proof.
  unfold Schem.countNonAir.
  assert (G : forall l acc,
             fold_left (fun total v =>
                          if negb (Schem.has air v) then total + 1 else total) l acc
             = acc + Z.of_nat (List.length
                                 (filter (fun v => negb (Schem.has air v)) l))).
  { induction l as [| v l IH]; intros acc; cbn [fold_left filter].
    - cbn. lia.
    - rewrite IH. destruct (negb (Schem.has air v)); cbn [List.length]; lia. }
  rewrite G. lia.
Qed.

Lemma list_as_map_range (l : list Z) :
  l = map (fun p => nth (Z.to_nat p) l 0) (range (Z.of_nat (List.length l))).
Proof.
  unfold range. rewrite Nat2Z.id, map_map.
  apply nth_ext with (d := 0) (d' := 0).
  - rewrite length_map, length_seq. reflexivity.
  - intros n Hn.
    rewrite (nth_map_seq (fun k => nth (Z.to_nat (Z.of_nat k)) l 0)) by assumption.
    rewrite Nat2Z.id. reflexivity.
Qed.

Lemma filter_length_mono {A} (p q : A -> bool) l :
  (forall x, In x l -> p x = true -> q x = true) ->
  (List.length (filter p l) <= List.length (filter q l))%nat.
Proof.
  induction l as [| a l IH]; intros H; [apply le_n |].
  cbn [filter].
  assert (IH' : (List.length (filter p l) <= List.length (filter q l))%nat).
  { apply IH. intros x Hx. apply H. right. exact Hx. }
  destruct (p a) eqn:Pa.
  - rewrite (H a (or_introl eq_refl) Pa). cbn [List.length]. lia.
  - destruct (q a); cbn [List.length]; lia.
Qed.

Lemma typed_get_nth (l : list Z) p :
  0 <= p < Z.of_nat (List.length l) ->
  Schem.typed_get l p = Some (nth (Z.to_nat p) l 0).
Proof.
  intros Hp. unfold Schem.typed_get.
  destruct (p <? 0) eqn:E; [apply Z.ltb_lt in E; lia |].
  apply nth_error_nth'. lia.
Qed.

(** The block a backed grid shows at an inside cell is the palette entry
    of the decoded index at the cell's linear index. *)
Lemma backed_getBlock g blockIndices x y z :
  backed g blockIndices -> inside g x y z ->
  0 <= Schem.index (width g) (length g) x y z
    < Z.of_nat (List.length blockIndices)
  /\ getBlock g x y z
     = or_else (JSArray.get (paletteList g)
                  (nth (Z.to_nat (Schem.index (width g) (length g) x y z))
                       blockIndices 0))
               None.
Proof.
  intros [Hlen Hget] [Hx [Hy Hz]].
  pose proof (index_bounds (width g) (height g) (length g) x y z Hx Hy Hz) as B.
  rewrite <- Hlen in B. split; [exact B |].
  rewrite Hget. unfold Schem.getBlock.
  replace (Schem.out_of_range (width g) (height g) (length g) x y z) with false
    by (symmetry; apply out_of_range_false; auto).
  rewrite typed_get_nth by exact B. reflexivity.
Qed.

Lemma counts_chain g blockIndices air :
  backed g blockIndices ->
  totalNonAir g = Schem.countNonAir air blockIndices ->
  (forall idx, Schem.has air idx = true ->
     isAir (or_else (JSArray.get (paletteList g) idx) None) = true) ->
  0 <= nonAirCells g <= totalNonAir g
  /\ totalNonAir g <= width g * height g * length g.
Proof.
  intros B T Sound. pose proof B as [Hlen Hget].
  rewrite T, countNonAir_filter.
  split.
  2:{ rewrite <- Hlen. apply inj_le. apply filter_length_le. }
  split; [unfold nonAirCells; lia |].
  destruct (Z.le_gt_cases (width g) 0) as [W0 | W1];
    [unfold nonAirCells; rewrite allCells_empty by auto; cbn; lia |].
  destruct (Z.le_gt_cases (height g) 0) as [H0 | H1];
    [unfold nonAirCells; rewrite allCells_empty by auto; cbn; lia |].
  destruct (Z.le_gt_cases (length g) 0) as [L0 | L1];
    [unfold nonAirCells; rewrite allCells_empty by auto; cbn; lia |].
  set (q := fun p =>
         negb (isAir (or_else (JSArray.get (paletteList g)
                                 (nth (Z.to_nat p) blockIndices 0)) None))).
  assert (E1 : nonAirCells g
               = Z.of_nat (List.length
                   (filter q (range (width g * height g * length g))))).
  { unfold nonAirCells.
    rewrite <- allCells_indices by lia.
    rewrite filter_map_swap, length_map. do 2 f_equal.
    apply filter_ext_in. intros c Hc. apply allCells_inside in Hc.
    destruct (backed_getBlock g blockIndices _ _ _ B Hc) as [_ ->].
    reflexivity. }
  rewrite E1.
  rewrite (list_as_map_range blockIndices) at 1.
  rewrite filter_map_swap, length_map, Hlen.
  apply inj_le. apply filter_length_mono.
  intros p Hp Hq. unfold q in Hq.
  destruct (Schem.has air (nth (Z.to_nat p) blockIndices 0)) eqn:A; [| reflexivity].
  apply Sound in A. rewrite A in Hq. discriminate.
Qed.

Lemma schem_air_sound (pl : JSArray) idx :
  Schem.has (Schem.airIndicesFrom 0 (elems pl)) idx = true ->
  isAir (or_else (JSArray.get pl idx) None) = true.
Proof.
  intros H. apply airIndices_has_In, airIndicesFrom_In in H.
  destruct H as [k [state [Ek [N A]]]].
  assert (G : JSArray.get pl idx = state).
  { unfold JSArray.get. destruct (idx <? 0) eqn:E; [apply Z.ltb_lt in E; lia |].
    replace (Z.to_nat idx) with k by lia. rewrite N. reflexivity. }
  rewrite G. unfold or_else.
  destruct (truthy state) eqn:Tr; [| reflexivity].
  unfold Schem.air_state in A. rewrite Tr in A. cbn [negb orb] in A.
  destruct state as [s |]; [| discriminate].
  rewrite !orb_true_iff in A. cbn [strict_eq] in A. rewrite !String.eqb_eq in A.
  destruct A as [[-> | ->] | ->]; reflexivity.
Qed.

Lemma litematic_airIndicesFrom_In states : forall idx v,
  In v (Litematic.airIndicesFrom idx states) ->
  exists k state, v = idx + Z.of_nat k /\ nth_error states k = Some state
                  /\ Litematic.air_state state = true.
Proof.
  induction states as [| s states IH]; intros idx v H;
    cbn [Litematic.airIndicesFrom] in H; [destruct H |].
  assert (Tail : In v (Litematic.airIndicesFrom (idx + 1) states) ->
            exists k state, v = idx + Z.of_nat k
              /\ nth_error (s :: states) k = Some state
              /\ Litematic.air_state state = true).
  { intros Hv. destruct (IH _ _ Hv) as [k [state [E R]]].
    exists (S k), state. split; [lia | exact R]. }
  destruct (Litematic.air_state s) eqn:A; [| auto].
  destruct H as [<- | H]; [| auto].
  exists 0%nat, s. cbn. repeat split; [lia | assumption].
Qed.

Lemma litematic_air_sound (states : list string) idx :
  Schem.has (Litematic.airIndicesFrom 0 states) idx = true ->
  isAir (or_else (JSArray.get (JSArray.of_list states) idx) None) = true.
Proof.
  intros H. apply airIndices_has_In, litematic_airIndicesFrom_In in H.
  destruct H as [k [state [Ek [N A]]]].
  assert (G : JSArray.get (JSArray.of_list states) idx = Some state).
  { unfold JSArray.get, JSArray.of_list. cbn [elems negs].
    destruct (idx <? 0) eqn:E; [apply Z.ltb_lt in E; lia |].
    replace (Z.to_nat idx) with k by lia.
    rewrite nth_error_map, N. reflexivity. }
  rewrite G. unfold Litematic.air_state in A.
  assert (Tr : truthy (Some state) = true).
  { destruct state; [discriminate A | reflexivity]. }
  unfold or_else. rewrite Tr. unfold isAir. rewrite Tr.
  cbv zeta. rewrite A. reflexivity.
Qed.

End AdapterFacts.

Module AdapterProps.
Import JS BlockColors Spec Spec2 GridFacts VarintFacts DecodeFacts AdapterFacts.

(** X6. [parseSchem] returns a grid exactly when the tree has a [Palette],
    has a [BlockData], and Width*Height*Length is not negative, not more
    than the number of complete varints in [BlockData] and not more than a
    typed array can have; the grid then has the dimensions of the tree. *)
Theorem parseSchem_succeeds_iff (nbt : Schem.Nbt) :
  let root := Schem.rootOf nbt in
  let N := Schem.Width root * Schem.Height root * Schem.Length root in
  ((exists g, Schem.parseSchem nbt = ok g) <->
   (exists paletteTag blockDataRaw,
      Schem.Palette root = Some paletteTag
      /\ Schem.BlockData root = Some blockDataRaw
      /\ 0 <= N <= Varint.completeVarints (map (fun b => b mod 256) blockDataRaw)
      /\ N <= maxTypedArrayLength))
  /\ (forall g, Schem.parseSchem nbt = ok g ->
        width g = Schem.Width root /\ height g = Schem.Height root
        /\ length g = Schem.Length root).
Proof.
  intros root N. split; [split |].
  - intros [g H]. apply parseSchem_ok in H.
    destruct H as (p & raw & bi & HP & HB & D & _).
    exists p, raw. split; [exact HP |]. split; [exact HB |].
    fold root in D. fold N in D.
    pose proof (decodeVarintArray_ok _ _ _ D) as [Valid _].
    split; [| lia]. split; [lia |].
    destruct (Z.lt_ge_cases
                (Varint.completeVarints (map (fun b => b mod 256) raw)) N)
      as [Short | Enough]; [| lia].
    rewrite decodeVarintArray_short in D by lia. discriminate.
  - intros (p & raw & HP & HB & HN & HM).
    destruct (decodeVarintArray_enough _ _ HN HM) as [vs [D _]].
    unfold Schem.parseSchem. fold root. rewrite HP, HB. fold N. rewrite D.
    cbn [bind]. eexists. reflexivity.
  - intros g H. apply parseSchem_ok in H.
    destruct H as (p & raw & bi & _ & _ & _ & Hw & Hh & Hl & _). auto.
Qed.

(** X7. A grid returned by either adapter has no block outside its
    dimensions: [getBlock] answers null for every coordinate that is
    negative or not below the width, height or length. *)
Theorem outside_is_empty (localeCompare : string -> string -> comparison)
    (schemNbt : Schem.Nbt) (litematicNbt : Litematic.Nbt) (g : Schematic)
    (x y z : Z) :
  Schem.parseSchem schemNbt = ok g
  \/ Litematic.parseLitematic localeCompare litematicNbt = ok g ->
  ~ inside g x y z ->
  getBlock g x y z = None.
Proof.
  intros Hg Hout.
  assert (B : bounded g).
  { destruct Hg as [H | H];
      [eapply parseSchem_bounded | eapply parseLitematic_bounded]; exact H. }
  destruct (getBlock g x y z) eqn:E; [| reflexivity].
  exfalso. apply Hout. apply B. rewrite E. discriminate.
Qed.

Lemma outside_is_empty_witness :
  exists g, Schem.parseSchem Examples.stairsSchem = ok g
            /\ getBlock g 3 0 0 = None /\ getBlock g 0 0 (-1) = None.
Proof.
  destruct (Schem.parseSchem Examples.stairsSchem) as [e | g] eqn:P.
  - vm_compute in P. discriminate P.
  - exists g. split; [reflexivity |].
    pose proof (outside_is_empty Examples.codeUnitCompare Examples.stairsSchem
                  Examples.oneRegion g) as O.
    assert (W : width g = 3 /\ length g = 2)
      by (vm_compute in P; injection P as <-; split; reflexivity).
    split; apply O; try (left; exact P); unfold inside; lia.
Defined.

(** X8. The linear index is a bijection between the cells inside a
    Width x Height x Length grid and the positions 0 .. Width*Height*Length-1
    of the flat array: an inside cell gets a position of the array, two
    different inside cells get different positions, and every position is
    the index of an inside cell. *)
Theorem linear_index_bijection (W H L : Z) :
  (forall x y z, 0 <= x < W -> 0 <= y < H -> 0 <= z < L ->
     0 <= Schem.index W L x y z < W * H * L
     /\ Litematic.index W L x y z = Schem.index W L x y z)
  /\ (forall x y z x' y' z',
        0 <= x < W -> 0 <= y < H -> 0 <= z < L ->
        0 <= x' < W -> 0 <= y' < H -> 0 <= z' < L ->
        Schem.index W L x y z = Schem.index W L x' y' z' ->
        x = x' /\ y = y' /\ z = z')
  /\ (forall p, 0 <= W -> 0 <= H -> 0 <= L -> 0 <= p < W * H * L ->
        exists x y z, 0 <= x < W /\ 0 <= y < H /\ 0 <= z < L
                      /\ Schem.index W L x y z = p).
Proof.
  split; [| split].
  - intros x y z Hx Hy Hz. split; [apply index_bounds; assumption |].
    unfold Litematic.index, Schem.index. ring.
  - unfold Schem.index. intros x y z x' y' z' Hx Hy Hz Hx' Hy' Hz' E.
    assert (E1 : x + W * (z + L * y) = x' + W * (z' + L * y')) by lia.
    assert (E2 : z + L * y = z' + L * y').
    { destruct (Z.lt_trichotomy (z + L * y) (z' + L * y')) as [Lt | [Eq | Gt]];
        [exfalso; nia | exact Eq | exfalso; nia]. }
    assert (E3 : y = y').
    { destruct (Z.lt_trichotomy y y') as [Lt | [Eq | Gt]];
        [exfalso; nia | exact Eq | exfalso; nia]. }
    subst y'. split; [nia | split; [reflexivity | lia]].
  - intros p HW HH HL Hp.
    assert (0 < W) by nia. assert (0 < L) by nia. assert (0 < H) by nia.
    exists (p mod W), (p / W / L), ((p / W) mod L).
    assert (0 <= p mod W < W) by (apply Z.mod_pos_bound; lia).
    assert (0 <= (p / W) mod L < L) by (apply Z.mod_pos_bound; lia).
    assert (Ep : p = W * (p / W) + p mod W) by (apply Z.div_mod; lia).
    assert (Eq : p / W = L * (p / W / L) + (p / W) mod L) by (apply Z.div_mod; lia).
    assert (0 <= p / W) by (apply Z.div_pos; lia).
    assert (0 <= p / W / L) by (apply Z.div_pos; lia).
    assert (p / W < H * L).
    { apply Z.div_lt_upper_bound; [lia |]. lia. }
    assert (p / W / L < H).
    { apply Z.div_lt_upper_bound; [lia |]. lia. }
    repeat split; try lia.
    unfold Schem.index. nia.
Qed.

(** X9. In a grid returned by [parseSchem] the block of an inside cell
    (x, y, z) is found in two steps: the index decoded from [BlockData] at
    position x + z*Width + y*Width*Length, which exists, and the block
    state of the last [Palette] entry mapped to that index; the cell is
    empty when no entry is mapped to it or the state is the empty string. *)
Theorem schem_cell_lookup (nbt : Schem.Nbt) (g : Schematic) (x y z : Z) :
  Schem.parseSchem nbt = ok g ->
  inside g x y z ->
  exists paletteTag blockDataRaw blockIndices paletteIdx,
    Schem.Palette (Schem.rootOf nbt) = Some paletteTag
    /\ Schem.BlockData (Schem.rootOf nbt) = Some blockDataRaw
    /\ Varint.decodeVarintArray (map (fun b => b mod 256) blockDataRaw)
         (width g * height g * length g) = ok blockIndices
    /\ nth_error blockIndices
         (Z.to_nat (x + z * width g + y * width g * length g)) = Some paletteIdx
    /\ getBlock g x y z = or_else (lastMapped paletteTag paletteIdx) None.
Proof.
  intros Hg Hin. apply parseSchem_parts in Hg.
  destruct Hg as (p & raw & bi & HP & HB & D & B & Hpl & _).
  destruct (backed_getBlock g bi x y z B Hin) as [Hidx G].
  unfold Schem.index in *.
  exists p, raw, bi, (nth (Z.to_nat (x + z * width g + y * width g * length g)) bi 0).
  repeat split; try assumption.
  - apply nth_error_nth'. lia.
  - rewrite G, Hpl, PaletteFacts.buildPalette_get. reflexivity.
Qed.

Lemma schem_cell_lookup_witness :
  exists g, Schem.parseSchem Examples.stairsSchem = ok g
            /\ getBlock g 2 0 1
               = Some "minecraft:oak_stairs[facing=south]"%string.
Proof.
  destruct (Schem.parseSchem Examples.stairsSchem) as [e | g] eqn:P.
  - vm_compute in P. discriminate P.
  - exists g. split; [reflexivity |].
    pose proof (schem_cell_lookup Examples.stairsSchem g 2 0 1 P) as T.
    vm_compute in P. injection P as <-.
    destruct T as (p & raw & bi & idx & HP & HB & D & N & G);
      [unfold inside; cbn; lia |].
    injection HP as <-. injection HB as <-.
    vm_compute in D. injection D as <-.
    vm_compute in N. injection N as <-.
    exact G.
Defined.

(** X10. In a grid returned by [parseLitematic] the block of an inside
    cell (x, y, z) is the descriptor of the palette entry whose number is
    the index decoded from [BlockStates] at position
    x + z*Width + y*Width*Length, which exists; the cell is empty when the
    index is past the palette or the descriptor is the empty string. *)
Theorem litematic_cell_lookup (localeCompare : string -> string -> comparison)
    (nbt : Litematic.Nbt) (g : Schematic) (x y z : Z) :
  Litematic.parseLitematic localeCompare nbt = ok g ->
  inside g x y z ->
  exists key region rest palette blockStatesLong blockIndices paletteIdx,
    Litematic.Regions nbt = Some ((key, region) :: rest)
    /\ Litematic.BlockStatePalette region = Some palette
    /\ Litematic.BlockStates region = Some blockStatesLong
    /\ Litematic.decodeBlockStates blockStatesLong (Z.of_nat (List.length palette))
         (width g * height g * length g) = ok blockIndices
    /\ nth_error blockIndices
         (Z.to_nat (x + z * width g + y * width g * length g)) = Some paletteIdx
    /\ getBlock g x y z
       = or_else
           (JSArray.get
              (JSArray.of_list (map (Litematic.descriptor localeCompare) palette))
              paletteIdx)
           None.
Proof.
  intros Hg Hin. apply parseLitematic_parts in Hg.
  destruct Hg as (key & region & rest & palette & words & bi
                  & HR & HP & HB & D & B & Hpl & _).
  destruct (backed_getBlock g bi x y z B Hin) as [Hidx G].
  unfold Schem.index in *.
  exists key, region, rest, palette, words, bi,
    (nth (Z.to_nat (x + z * width g + y * width g * length g)) bi 0).
  repeat split; try assumption.
  - apply nth_error_nth'. lia.
  - rewrite G, Hpl. reflexivity.
Qed.

Lemma litematic_cell_lookup_witness :
  exists g, Litematic.parseLitematic Examples.codeUnitCompare Examples.oneRegion = ok g
            /\ getBlock g 1 0 0
               = Some "minecraft:oak_stairs[facing=north,half=top]"%string.
Proof.
  destruct (Litematic.parseLitematic Examples.codeUnitCompare Examples.oneRegion)
    as [e | g] eqn:P.
  - vm_compute in P. discriminate P.
  - exists g. split; [reflexivity |].
    pose proof (litematic_cell_lookup Examples.codeUnitCompare Examples.oneRegion
                  g 1 0 0 P) as T.
    vm_compute in P. injection P as <-.
    destruct T as (key & region & rest & palette & words & bi & idx
                   & HR & HP & HB & D & N & G);
      [unfold inside; cbn; lia |].
    injection HR as <- <- <-. injection HP as <-. injection HB as <-.
    vm_compute in D. injection D as <-.
    vm_compute in N. injection N as <-.
    exact G.
Defined.

(** X11. For a grid returned by either adapter, [totalNonAir] never
    undercounts and never exceeds the grid: it is at least the number of
    cells that [isAir] classifies as not air, and at most
    Width*Height*Length. *)
Theorem totalNonAir_bounds (localeCompare : string -> string -> comparison)
    (schemNbt : Schem.Nbt) (litematicNbt : Litematic.Nbt) (g : Schematic) :
  Schem.parseSchem schemNbt = ok g
  \/ Litematic.parseLitematic localeCompare litematicNbt = ok g ->
  0 <= nonAirCells g <= totalNonAir g
  /\ totalNonAir g <= width g * height g * length g.
Proof.
  intros [H | H].
  - destruct (parseSchem_backed _ _ H) as [bi [B T]].
    apply (counts_chain g bi _ B T). apply schem_air_sound.
  - destruct (parseLitematic_backed _ _ _ H) as [palette [bi [B [Hp T]]]].
    apply (counts_chain g bi _ B T). rewrite Hp. apply litematic_air_sound.
Qed.

Lemma totalNonAir_bounds_witness :
  exists g, Schem.parseSchem Examples.bareAirSchem = ok g
            /\ 0 <= nonAirCells g <= totalNonAir g
            /\ totalNonAir g <= width g * height g * length g.
Proof.
  destruct (Schem.parseSchem Examples.bareAirSchem) as [e | g] eqn:P.
  - vm_compute in P. discriminate P.
  - exists g. split; [reflexivity |].
    apply (totalNonAir_bounds Examples.codeUnitCompare Examples.bareAirSchem
             Examples.bareAirLitematic g).
    left. exact P.
Defined.

End AdapterProps.

Module FloodMoreFacts.
Import JS BlockColors App Spec Spec2 FloodInvariant GridFacts FloodFacts.

(** The record [floodFill] builds from the final loop state. *)
Lemma floodFill_some g layer startX startZ r :
  floodFill g layer startX startZ = Some (Some r) ->
  exists id st,
    getBaseBlockId (getBlock g startX layer startZ) = Some id
    /\ truthy (Some id) = true
    /\ isAir (Some ("minecraft:" ++ id)%string) = false
    /\ loop g layer (Z.to_nat (width g * length g)) id
         (mkFill [(startX, startZ)] [(startX, startZ)] startX startX startZ startZ)
       = Some st
    /\ r = mkRegion (f_cells st) (f_minX st) (f_minZ st) (f_maxX st) (f_maxZ st)
             (f_maxX st - f_minX st + 1) (f_maxZ st - f_minZ st + 1)
             (Z.of_nat (List.length (f_cells st))).
Proof.
  unfold floodFill, floodFillWith. intros H.
  destruct (getBaseBlockId (getBlock g startX layer startZ)) as [id |] eqn:B;
    [| discriminate].
  destruct (truthy (Some id)) eqn:T; cbn [negb orb] in H; [| discriminate].
  destruct (isAir (Some ("minecraft:" ++ id)%string)) eqn:A; [discriminate |].
  destruct (loop _ _ _ _ _) as [st |] eqn:L; [| discriminate].
  injection H as <-. exists id, st. auto.
Qed.

Lemma start_invariant g layer startX startZ id :
  bounded g ->
  getBaseBlockId (getBlock g startX layer startZ) = Some id ->
  Inv g layer startX startZ None []
    (mkFill [(startX, startZ)] [(startX, startZ)] startX startX startZ startZ)
  /\ 0 <= startX < width g /\ 0 <= startZ < length g.
Proof.
  intros Hb Hid.
  assert (Hstart : 0 <= startX < width g /\ 0 <= startZ < length g).
  { destruct (Hb startX layer startZ) as [? [_ ?]]; [| auto].
    intros E. rewrite E in Hid. discriminate. }
  split; [| exact Hstart].
  assert (Hmem : member g layer startX startZ (startX, startZ)).
  { unfold member. cbn [fst snd]. repeat split; lia. }
  constructor; cbn [f_cells f_queue f_minX f_minZ f_maxX f_maxZ].
  - repeat constructor. intros [].
  - intros c [<- | []]. apply connected_start. exact Hmem.
  - left. reflexivity.
  - auto.
  - intros c Hc. left. exact Hc.
  - intros c n E. discriminate.
  - unfold boundingBox.
    split; [intros c [<- | []]; cbn [fst snd]; lia |].
    repeat split; exists (startX, startZ); (split; [left |]; reflexivity).
Qed.

(** What a region returned by [floodFill] is. *)
Lemma floodFill_region g layer startX startZ r :
  bounded g ->
  floodFill g layer startX startZ = Some (Some r) ->
  NoDup (cells r)
  /\ (forall c, In c (cells r) <-> connected g layer startX startZ c)
  /\ boundingBox (cells r) (minX r) (minZ r) (maxX r) (maxZ r)
  /\ w r = maxX r - minX r + 1
  /\ h r = maxZ r - minZ r + 1
  /\ count r = Z.of_nat (List.length (cells r))
  /\ exists id, getBaseBlockId (getBlock g startX layer startZ) = Some id
                /\ truthy (Some id) = true
                /\ isAir (Some ("minecraft:" ++ id)%string) = false.
Proof.
  intros Hb H. apply floodFill_some in H.
  destruct H as (id & st & Hid & T & A & L & ->).
  destruct (start_invariant g layer startX startZ id Hb Hid) as [I0 Hs].
  destruct (loop_terminates g layer startX startZ id Hid
              (Z.to_nat (width g * length g)) _ I0) as [st' [L' [I Q]]].
  { cbn [f_cells f_queue List.length]. nia. }
  rewrite L in L'. injection L' as <-.
  cbn [cells minX minZ maxX maxZ w h count].
  split; [apply (inv_nodup _ _ _ _ _ _ _ I) |].
  split; [intros c; apply (inv_component g layer startX startZ st c I Q) |].
  split; [apply (inv_box _ _ _ _ _ _ _ I) |].
  repeat split. exists id. auto.
Qed.

(** A region is returned for every start cell that passes the guard. *)
Lemma floodFill_runs g layer startX startZ id :
  bounded g ->
  getBaseBlockId (getBlock g startX layer startZ) = Some id ->
  truthy (Some id) = true ->
  isAir (Some ("minecraft:" ++ id)%string) = false ->
  exists r, floodFill g layer startX startZ = Some (Some r).
Proof.
  intros Hb Hid T A.
  destruct (start_invariant g layer startX startZ id Hb Hid) as [I0 Hs].
  destruct (loop_terminates g layer startX startZ id Hid
              (Z.to_nat (width g * length g)) _ I0) as [st [L _]].
  { cbn [f_cells f_queue List.length]. nia. }
  unfold floodFill, floodFillWith. rewrite Hid, T, A. cbn [negb orb].
  rewrite L. eexists. reflexivity.
Qed.

(** *** Components do not depend on the cell they are started from *)

Lemma adjacent_sym a b : adjacent a b -> adjacent b a.
Proof. unfold adjacent. lia. Qed.

Section SameComponent.

Variable g : Schematic.
Variable layer : Z.
Variables sx sz cx cz : Z.
Hypothesis same :
  getBaseBlockId (getBlock g cx layer cz) = getBaseBlockId (getBlock g sx layer sz).

Lemma member_same d : member g layer cx cz d <-> member g layer sx sz d.
Proof. unfold member. rewrite same. reflexivity. Qed.

Lemma connected_trans d :
  connected g layer sx sz (cx, cz) ->
  connected g layer cx cz d -> connected g layer sx sz d.
Proof.
  intros Hc Hd. induction Hd as [M | a b Ha IH Ab Mb].
  - exact Hc.
  - apply connected_step with (a := a); [exact IH | exact Ab |].
    apply member_same. exact Mb.
Qed.

End SameComponent.

Lemma connected_back g layer sx sz c :
  connected g layer sx sz c ->
  connected g layer (fst c) (snd c) (sx, sz)
  /\ getBaseBlockId (getBlock g (fst c) layer (snd c))
     = getBaseBlockId (getBlock g sx layer sz).
Proof.
  intros H. induction H as [M | a b Ha [IH Sa] Ab Mb].
  - cbn [fst snd]. split; [apply connected_start; exact M | reflexivity].
  - assert (Sb : getBaseBlockId (getBlock g (fst b) layer (snd b))
                 = getBaseBlockId (getBlock g sx layer sz))
      by (destruct Mb as [_ [_ E]]; exact E).
    split; [| exact Sb].
    assert (Ma : member g layer (fst b) (snd b) a).
    { apply FloodFacts.connected_member in Ha.
      destruct Ha as [? [? ?]]. unfold member. repeat split; try lia. congruence. }
    assert (Mbb : member g layer (fst b) (snd b) b).
    { destruct Mb as [? [? ?]]. unfold member. repeat split; lia. }
    assert (Cb : connected g layer (fst b) (snd b) b).
    { destruct b as [bx bz]. apply connected_start. exact Mbb. }
    assert (Ca : connected g layer (fst b) (snd b) a).
    { apply connected_step with (a := b); [exact Cb | apply adjacent_sym; exact Ab | exact Ma]. }
    destruct a as [ax az]. cbn [fst snd] in *.
    apply (connected_trans g layer (fst b) (snd b) ax az); [congruence | exact Ca | exact IH].
Qed.

Lemma same_component g layer sx sz c d :
  connected g layer sx sz c ->
  (connected g layer (fst c) (snd c) d <-> connected g layer sx sz d).
Proof.
  intros Hc. destruct (connected_back g layer sx sz c Hc) as [Back Same].
  destruct c as [cx cz]. cbn [fst snd] in *. split; intros Hd.
  - apply (connected_trans g layer sx sz cx cz Same d Hc Hd).
  - apply (connected_trans g layer cx cz sx sz (eq_sym Same) d Back Hd).
Qed.

Lemma box_unique (cells cells' : list cell) a b c d a' b' c' d' :
  (forall x, In x cells' <-> In x cells) ->
  boundingBox cells a b c d -> boundingBox cells' a' b' c' d' ->
  a' = a /\ b' = b /\ c' = c /\ d' = d.
Proof.
  intros E [B [[c1 [I1 E1]] [[c2 [I2 E2]] [[c3 [I3 E3]] [c4 [I4 E4]]]]]]
         [B' [[k1 [J1 F1]] [[k2 [J2 F2]] [[k3 [J3 F3]] [k4 [J4 F4]]]]]].
  pose proof (B' c1 (proj2 (E c1) I1)). pose proof (B' c2 (proj2 (E c2) I2)).
  pose proof (B' c3 (proj2 (E c3) I3)). pose proof (B' c4 (proj2 (E c4) I4)).
  pose proof (B k1 (proj1 (E k1) J1)). pose proof (B k2 (proj1 (E k2) J2)).
  pose proof (B k3 (proj1 (E k3) J3)). pose proof (B k4 (proj1 (E k4) J4)).
  lia.
Qed.

Lemma NoDup_map_inj {A B} (f : A -> B) l :
  (forall x y, In x l -> In y l -> f x = f y -> x = y) ->
  NoDup l -> NoDup (map f l).
Proof.
  intros Inj ND. induction ND as [| a l Hn ND IH]; [constructor |].
  cbn [map]. constructor.
  - intros Hin. apply in_map_iff in Hin. destruct Hin as [y [E Hy]].
    apply Inj in E; [| right; exact Hy | left; reflexivity]. subst. contradiction.
  - apply IH. intros x y Hx Hy. apply Inj; right; assumption.
Qed.

End FloodMoreFacts.

Module FloodMore.
Import JS BlockColors App Spec Spec2 FloodInvariant GridFacts FloodFacts
  FloodMoreFacts.

(** X12. The region does not depend on which of its cells the fill is
    started from: started from any cell of a region that [floodFill]
    returned, [floodFill] returns a region with the same cells, the same
    bounding box, w, h and count. *)
Theorem region_independent_of_start (g : Schematic) (layer startX startZ : Z)
    (r : Region) (c : cell) :
  bounded g ->
  floodFill g layer startX startZ = Some (Some r) ->
  In c (cells r) ->
  exists r',
    floodFill g layer (fst c) (snd c) = Some (Some r')
    /\ (forall d, In d (cells r') <-> In d (cells r))
    /\ minX r' = minX r /\ minZ r' = minZ r
    /\ maxX r' = maxX r /\ maxZ r' = maxZ r
    /\ w r' = w r /\ h r' = h r /\ count r' = count r.
Proof.
  intros Hb Hr Hc.
  destruct (floodFill_region g layer startX startZ r Hb Hr)
    as (ND & Comp & Box & Hw & Hh & Hcount & id & Hid & T & A).
  assert (Cc : connected g layer startX startZ c) by (apply Comp; exact Hc).
  destruct (connected_back g layer startX startZ c Cc) as [_ Same].
  destruct (floodFill_runs g layer (fst c) (snd c) id Hb) as [r' Hr'];
    [congruence | exact T | exact A |].
  destruct (floodFill_region g layer (fst c) (snd c) r' Hb Hr')
    as (ND' & Comp' & Box' & Hw' & Hh' & Hcount' & _).
  assert (E : forall d, In d (cells r') <-> In d (cells r)).
  { intros d. rewrite Comp', Comp. apply same_component. exact Cc. }
  destruct (box_unique _ _ _ _ _ _ _ _ _ _ E Box Box') as (E1 & E2 & E3 & E4).
  exists r'. split; [exact Hr' |]. split; [exact E |].
  repeat split; try assumption; try lia.
  rewrite Hcount, Hcount'. f_equal.
  apply Permutation_length. apply NoDup_Permutation; assumption.
Qed.

Lemma stairsGrid_parsed :
  Schem.parseSchem Examples.stairsSchem = ok Examples2.stairsGrid.
Proof. vm_compute. reflexivity. Qed.

Lemma stairsGrid_bounded : bounded Examples2.stairsGrid.
Proof. apply (parseSchem_bounded Examples.stairsSchem). apply stairsGrid_parsed. Qed.

Lemma stairsGrid_filled :
  floodFill Examples2.stairsGrid 0 0 0 = Some (Some Examples2.stairsRegion).
Proof. vm_compute. reflexivity. Qed.

Lemma region_independent_of_start_witness :
  exists r',
    floodFill Examples2.stairsGrid 0 (fst (2, 1)) (snd (2, 1)) = Some (Some r')
    /\ (forall d, In d (cells r') <-> In d (cells Examples2.stairsRegion))
    /\ minX r' = minX Examples2.stairsRegion
    /\ minZ r' = minZ Examples2.stairsRegion
    /\ maxX r' = maxX Examples2.stairsRegion
    /\ maxZ r' = maxZ Examples2.stairsRegion
    /\ w r' = w Examples2.stairsRegion /\ h r' = h Examples2.stairsRegion
    /\ count r' = count Examples2.stairsRegion.
Proof.
  apply (region_independent_of_start Examples2.stairsGrid 0 0 0
           Examples2.stairsRegion (2, 1) stairsGrid_bounded stairsGrid_filled).
  cbn. auto.
Defined.

(** X13. A region returned by [floodFill] lies inside the layer and inside
    its bounding box, which contains the start cell; its cells are distinct,
    so it has at least one and at most w * h cells, and w and h are at most
    the width and the length of the grid. *)
Theorem region_geometry (g : Schematic) (layer startX startZ : Z) (r : Region) :
  bounded g ->
  floodFill g layer startX startZ = Some (Some r) ->
  In (startX, startZ) (cells r)
  /\ (forall c, In c (cells r) ->
        0 <= minX r <= fst c /\ fst c <= maxX r < width g
        /\ 0 <= minZ r <= snd c /\ snd c <= maxZ r < length g)
  /\ 1 <= count r <= w r * h r
  /\ 1 <= w r <= width g /\ 1 <= h r <= length g.
Proof.
  intros Hb Hr.
  destruct (floodFill_region g layer startX startZ r Hb Hr)
    as (ND & Comp & Box & Hw & Hh & Hcount & id & Hid & T & A).
  assert (Inside : forall c, In c (cells r) ->
            0 <= fst c < width g /\ 0 <= snd c < length g).
  { intros c Hc. apply Comp, FloodFacts.connected_member in Hc.
    destruct Hc as [? [? _]]. auto. }
  assert (Hs : In (startX, startZ) (cells r)).
  { apply Comp. apply connected_start.
    destruct (start_invariant g layer startX startZ id Hb Hid) as [_ [? ?]].
    unfold member. cbn [fst snd]. repeat split; lia. }
  destruct Box as [B [[c1 [I1 E1]] [[c2 [I2 E2]] [[c3 [I3 E3]] [c4 [I4 E4]]]]]].
  pose proof (Inside c1 I1). pose proof (Inside c2 I2).
  pose proof (Inside c3 I3). pose proof (Inside c4 I4).
  pose proof (B _ Hs) as Bs. cbn [fst snd] in Bs.
  split; [exact Hs |].
  split; [intros c Hc; specialize (B c Hc); lia |].
  split; [| lia].
  split.
  - rewrite Hcount. destruct (cells r); [destruct Hs | cbn [List.length]; lia].
  - rewrite Hcount.
    set (shift := fun c : cell => (fst c - minX r, snd c - minZ r)).
    assert (NDs : NoDup (map shift (cells r))).
    { apply NoDup_map_inj; [| exact ND].
      intros [x z] [x' z'] _ _ E. unfold shift in E. cbn [fst snd] in E.
      injection E as E1' E2'. f_equal; lia. }
    pose proof (cells_bound (map shift (cells r)) (w r) (h r) NDs) as CB.
    rewrite length_map in CB.
    replace (Z.max 0 (w r)) with (w r) in CB by lia.
    replace (Z.max 0 (h r)) with (h r) in CB by lia.
    apply CB. intros c Hc. apply in_map_iff in Hc. destruct Hc as [c0 [<- Hc0]].
    specialize (B c0 Hc0). unfold shift. cbn [fst snd]. lia.
Qed.

Lemma region_geometry_witness :
  In (0, 0) (cells Examples2.stairsRegion)
  /\ (forall c, In c (cells Examples2.stairsRegion) ->
        0 <= minX Examples2.stairsRegion <= fst c
        /\ fst c <= maxX Examples2.stairsRegion < width Examples2.stairsGrid
        /\ 0 <= minZ Examples2.stairsRegion <= snd c
        /\ snd c <= maxZ Examples2.stairsRegion < length Examples2.stairsGrid)
  /\ 1 <= count Examples2.stairsRegion
       <= w Examples2.stairsRegion * h Examples2.stairsRegion
  /\ 1 <= w Examples2.stairsRegion <= width Examples2.stairsGrid
  /\ 1 <= h Examples2.stairsRegion <= length Examples2.stairsGrid.
Proof.
  exact (region_geometry Examples2.stairsGrid 0 0 0 Examples2.stairsRegion
           stairsGrid_bounded stairsGrid_filled).
Defined.

(** X14. Every cell of a region returned by [floodFill] holds a block that
    [isAir] does not classify as air, with the base identifier of the
    start cell: the highlighted group never includes an air or empty
    cell. *)
Theorem region_cells_are_blocks (g : Schematic) (layer startX startZ : Z)
    (r : Region) (c : cell) :
  bounded g ->
  floodFill g layer startX startZ = Some (Some r) ->
  In c (cells r) ->
  isAir (getBlock g (fst c) layer (snd c)) = false
  /\ getBaseBlockId (getBlock g (fst c) layer (snd c))
     = getBaseBlockId (getBlock g startX layer startZ).
Proof.
  intros Hb Hr Hc.
  destruct (floodFill_region g layer startX startZ r Hb Hr)
    as (_ & Comp & _ & _ & _ & _ & id & Hid & T & A).
  apply Comp, FloodFacts.connected_member in Hc. destruct Hc as [_ [_ Same]].
  split; [| exact Same].
  destruct (isAir (getBlock g (fst c) layer (snd c))) eqn:Air; [| reflexivity].
  exfalso. apply FloodProps.isAir_guard in Air.
  rewrite Same, Hid in Air.
  destruct Air as [F | [id' [E F]]]; [congruence |].
  injection E as <-. congruence.
Qed.

Lemma region_cells_are_blocks_witness :
  isAir (getBlock Examples2.stairsGrid (fst (2, 1)) 0 (snd (2, 1))) = false
  /\ getBaseBlockId (getBlock Examples2.stairsGrid (fst (2, 1)) 0 (snd (2, 1)))
     = getBaseBlockId (getBlock Examples2.stairsGrid 0 0 0).
Proof.
  apply (region_cells_are_blocks Examples2.stairsGrid 0 0 0
           Examples2.stairsRegion (2, 1) stairsGrid_bounded stairsGrid_filled).
  cbn. auto.
Defined.

End FloodMore.

Module StringFacts.
Import JS BlockColors Names Spec2.

Lemma split_head_app s p :
  split_head "[" (s ++ String "[" p) = split_head "[" s.
Proof.
  induction s as [| c s IH]; cbn [append split_head].
  - reflexivity.
  - destruct (Ascii.eqb c "["); [reflexivity | rewrite IH; reflexivity].
Qed.

Lemma lower_bracket c : Ascii.eqb (lower_ascii c) "[" = Ascii.eqb c "[".
Proof. destruct c as [[] [] [] [] [] [] [] []]; reflexivity. Qed.

Lemma lower_idem c : lower_ascii (lower_ascii c) = lower_ascii c.
Proof. destruct c as [[] [] [] [] [] [] [] []]; reflexivity. Qed.

Lemma toLowerCase_idem s : toLowerCase (toLowerCase s) = toLowerCase s.
Proof.
  induction s as [| c s IH]; cbn [toLowerCase]; [reflexivity |].
  rewrite lower_idem, IH. reflexivity.
Qed.

Lemma split_head_lower s :
  split_head "[" (toLowerCase s) = toLowerCase (split_head "[" s).
Proof.
  induction s as [| c s IH]; cbn [toLowerCase split_head]; [reflexivity |].
  rewrite lower_bracket. destruct (Ascii.eqb c "["); [reflexivity |].
  cbn [toLowerCase]. rewrite IH. reflexivity.
Qed.

Lemma truthy_lower s : truthy (Some (toLowerCase s)) = truthy (Some s).
Proof. destruct s; reflexivity. Qed.

Lemma truthy_app s t : s <> EmptyString -> truthy (Some (s ++ t)%string) = true.
Proof. destruct s; [contradiction | reflexivity]. Qed.

Lemma truthy_nonempty s : s <> EmptyString -> truthy (Some s) = true.
Proof. destruct s; [contradiction | reflexivity]. Qed.

Lemma isAir_lower s : isAir (Some (toLowerCase s)) = isAir (Some s).
Proof.
  unfold isAir. rewrite truthy_lower.
  rewrite split_head_lower, toLowerCase_idem. reflexivity.
Qed.

Lemma getBaseBlockId_lower s :
  getBaseBlockId (Some (toLowerCase s)) = getBaseBlockId (Some s).
Proof.
  unfold getBaseBlockId. rewrite truthy_lower.
  rewrite split_head_lower, toLowerCase_idem. reflexivity.
Qed.

(** *** Title case *)

Lemma split_nonempty sep s : split sep s <> [].
Proof.
  destruct s as [| c r]; cbn [split]; [discriminate |].
  destruct (Ascii.eqb c sep); [discriminate |].
  destruct (split sep r); discriminate.
Qed.

Lemma concat_cons (x : string) l :
  l <> [] -> String.concat " " (x :: l) = (x ++ " " ++ String.concat " " l)%string.
Proof. destruct l; [contradiction | reflexivity]. Qed.

Lemma capFirst_titleCase s : forall first,
  String.concat " " (capFirst first (split " " s)) = titleCase first s.
Proof.
  induction s as [| c r IH]; intros first.
  - cbn. destruct first; reflexivity.
  - cbn [split titleCase]. destruct (Ascii.eqb c " ") eqn:E.
    + apply Ascii.eqb_eq in E. subst c.
      cbn [capFirst].
      assert (C : (if first then capitalize EmptyString else EmptyString) = EmptyString)
        by (destruct first; reflexivity).
      rewrite C. specialize (IH true).
      destruct (split " " r) as [| w ws] eqn:S; [exfalso; eapply split_nonempty; eauto |].
      cbn [capFirst] in IH. cbn [map].
      rewrite concat_cons by discriminate. cbn [append]. rewrite IH. reflexivity.
    + specialize (IH false).
      destruct (split " " r) as [| w ws] eqn:S; [exfalso; eapply split_nonempty; eauto |].
      cbn [capFirst] in *.
      assert (Hd : (if first then capitalize (String c w) else String c w)
                   = String (if first then upper_ascii c else c) w)
        by (destruct first; reflexivity).
      rewrite Hd.
      destruct ws as [| w' ws'].
      * cbn [map String.concat] in *. rewrite IH. reflexivity.
      * cbn [map] in *. rewrite concat_cons in * by discriminate.
        cbn [append] in *. rewrite IH. reflexivity.
Qed.

Lemma titleCase_length s : forall first,
  String.length (titleCase first s) = String.length s.
Proof.
  induction s as [| c r IH]; intros first; cbn [titleCase]; [reflexivity |].
  destruct (Ascii.eqb c " "); cbn [String.length]; rewrite IH; reflexivity.
Qed.

Lemma underscoresToSpaces_length s :
  String.length (underscoresToSpaces s) = String.length s.
Proof.
  induction s as [| c r IH]; cbn [underscoresToSpaces String.length]; congruence.
Qed.

Lemma upper_not_underscore c :
  Ascii.eqb c "_" = false -> Ascii.eqb (upper_ascii c) "_" = false.
Proof. destruct c as [[] [] [] [] [] [] [] []]; intros H; try reflexivity; discriminate H. Qed.

Lemma titleCase_no_underscore s : forall first,
  occurs "_" s = false -> occurs "_" (titleCase first s) = false.
Proof.
  induction s as [| c r IH]; intros first H; cbn [titleCase occurs] in *;
    [reflexivity |].
  apply orb_false_iff in H. destruct H as [Hc Hr].
  destruct (Ascii.eqb c " "); cbn [occurs]; rewrite IH by assumption.
  - rewrite Hc. reflexivity.
  - destruct first; [rewrite upper_not_underscore by assumption | rewrite Hc];
      reflexivity.
Qed.

Lemma underscoresToSpaces_clean s : occurs "_" (underscoresToSpaces s) = false.
Proof.
  induction s as [| c r IH]; cbn [underscoresToSpaces occurs]; [reflexivity |].
  rewrite IH. destruct (Ascii.eqb c "_") eqn:E; [reflexivity |].
  rewrite E. reflexivity.
Qed.

End StringFacts.

Module StringProps.
Import JS BlockColors Names Spec2 StringFacts.

(** X15. The property suffix does not matter: for a non-empty descriptor,
    appending a bracketed property list changes neither the air
    classification, nor the base identifier, nor the display name. *)
Theorem properties_are_ignored (s props : string) :
  s <> EmptyString ->
  isAir (Some (s ++ "[" ++ props)%string) = isAir (Some s)
  /\ getBaseBlockId (Some (s ++ "[" ++ props)%string) = getBaseBlockId (Some s)
  /\ getBlockDisplayName (Some (s ++ "[" ++ props)%string)
     = getBlockDisplayName (Some s).
Proof.
  intros Hs. unfold isAir, getBaseBlockId, getBlockDisplayName.
  rewrite truthy_app, truthy_nonempty by assumption.
  cbn [append]. rewrite split_head_app. auto.
Qed.

Lemma properties_are_ignored_witness :
  isAir (Some ("minecraft:oak_stairs" ++ "[" ++ "facing=north")%string)
  = isAir (Some "minecraft:oak_stairs"%string)
  /\ getBaseBlockId (Some ("minecraft:oak_stairs" ++ "[" ++ "facing=north")%string)
     = getBaseBlockId (Some "minecraft:oak_stairs"%string)
  /\ getBlockDisplayName (Some ("minecraft:oak_stairs" ++ "[" ++ "facing=north")%string)
     = getBlockDisplayName (Some "minecraft:oak_stairs"%string).
Proof.
  apply (properties_are_ignored "minecraft:oak_stairs" "facing=north").
  discriminate.
Defined.

(** X16. Letter case does not matter: two descriptors that are equal once
    lower-cased get the same air classification and the same base
    identifier. *)
Theorem case_is_ignored (s t : string) :
  toLowerCase s = toLowerCase t ->
  isAir (Some s) = isAir (Some t)
  /\ getBaseBlockId (Some s) = getBaseBlockId (Some t).
Proof.
  intros E. split.
  - rewrite <- (isAir_lower s), <- (isAir_lower t), E. reflexivity.
  - rewrite <- (getBaseBlockId_lower s), <- (getBaseBlockId_lower t), E.
    reflexivity.
Qed.

Lemma case_is_ignored_witness :
  isAir (Some "Minecraft:Cave_AIR"%string) = isAir (Some "minecraft:cave_air"%string)
  /\ getBaseBlockId (Some "Minecraft:Cave_AIR"%string)
     = getBaseBlockId (Some "minecraft:cave_air"%string).
Proof.
  apply (case_is_ignored "Minecraft:Cave_AIR" "minecraft:cave_air"). reflexivity.
Defined.

(** X17. The display name of a missing or empty descriptor is "Air". For
    any other descriptor it is the identifier without its property suffix
    and without the first "minecraft:", underscores turned into spaces, in
    title case: it has as many characters as that identifier and holds no
    underscore. *)
Theorem display_name_shape (s : string) :
  getBlockDisplayName None = "Air"%string
  /\ getBlockDisplayName (Some EmptyString) = "Air"%string
  /\ (s <> EmptyString ->
      let id := remove_first "minecraft:" (split_head "[" s) in
      getBlockDisplayName (Some s) = titleCase true (underscoresToSpaces id)
      /\ String.length (getBlockDisplayName (Some s)) = String.length id
      /\ occurs "_" (getBlockDisplayName (Some s)) = false).
Proof.
  split; [reflexivity |]. split; [reflexivity |].
  intros Hs id.
  assert (E : getBlockDisplayName (Some s) = titleCase true (underscoresToSpaces id)).
  { unfold getBlockDisplayName. rewrite truthy_nonempty by assumption.
    cbv zeta. rewrite <- (capFirst_titleCase _ true). fold id.
    destruct (split " " (underscoresToSpaces id)); reflexivity. }
  split; [exact E |]. rewrite E. split.
  - rewrite titleCase_length, underscoresToSpaces_length. reflexivity.
  - apply titleCase_no_underscore, underscoresToSpaces_clean.
Qed.

End StringProps.

Module MaterialsFacts.
Import JS BlockColors Spec Spec2 Materials MaterialsSpec FloodFacts.

Lemma fold_left_flat_map {A B C} (f : A -> C -> A) (h : B -> list C) l : forall a,
  fold_left f (flat_map h l) a = fold_left (fun a x => fold_left f (h x) a) l a.
Proof.
  induction l as [| x l IH]; intros a; [reflexivity |].
  cbn [flat_map fold_left]. rewrite fold_left_app. apply IH.
Qed.

Lemma fold_left_map {A B C} (f : A -> C -> A) (h : B -> C) l : forall a,
  fold_left f (map h l) a = fold_left (fun a x => f a (h x)) l a.
Proof.
  induction l as [| x l IH]; intros a; [reflexivity |]. cbn. apply IH.
Qed.

Lemma fold_left_ext {A B} (f f' : A -> B -> A) l :
  (forall a x, f a x = f' a x) -> forall a, fold_left f l a = fold_left f' l a.
Proof.
  intros E. induction l as [| x l IH]; intros a; [reflexivity |].
  cbn. rewrite E. apply IH.
Qed.

(** The nested loops visit the cells in the order of [allCells]. *)
Lemma countCells_scan g :
  countCells g = fold_left (visitCell g) (allCells g) [].
Proof.
  unfold countCells, allCells. rewrite fold_left_flat_map.
  apply fold_left_ext. intros a y. rewrite fold_left_flat_map.
  apply fold_left_ext. intros a' z. rewrite fold_left_map. reflexivity.
Qed.

Lemma visitCell_counted g counts c :
  visitCell g counts c
  = match countedId g c with Some id => bump counts id | None => counts end.
Proof.
  unfold visitCell, countedId.
  destruct (isAir _); [reflexivity |].
  destruct (getBaseBlockId _) as [id |]; [| reflexivity].
  destruct (truthy (Some id)); reflexivity.
Qed.

(** *** One more cell under a key *)

Lemma bump_lookup counts id k :
  lookup (bump counts id) k = lookup counts k + (if String.eqb id k then 1 else 0).
Proof.
  induction counts as [| [k0 n] rest IH]; cbn [bump lookup].
  - destruct (String.eqb id k); lia.
  - destruct (String.eqb k0 id) eqn:E; cbn [lookup].
    + apply String.eqb_eq in E. subst k0.
      destruct (String.eqb id k); [| lia].
      destruct (n =? 0) eqn:N; [apply Z.eqb_eq in N |]; lia.
    + destruct (String.eqb k0 k) eqn:E'; [| exact IH].
      apply String.eqb_eq in E'. subst k0. rewrite String.eqb_sym, E. lia.
Qed.

Lemma bump_keys counts id :
  map fst (bump counts id)
  = if existsb (String.eqb id) (map fst counts) then map fst counts
    else map fst counts ++ [id].
Proof.
  induction counts as [| [k0 n] rest IH]; cbn [bump map existsb fst]; [reflexivity |].
  rewrite (String.eqb_sym id k0).
  destruct (String.eqb k0 id); cbn [orb map fst]; [reflexivity |].
  rewrite IH. destruct (existsb _ _); reflexivity.
Qed.

Lemma existsb_In id keys : existsb (String.eqb id) keys = true <-> In id keys.
Proof.
  rewrite existsb_exists. split.
  - intros [x [Hx E]]. apply String.eqb_eq in E. subst. exact Hx.
  - intros H. exists id. split; [exact H | apply String.eqb_refl].
Qed.

Lemma bump_NoDup counts id :
  NoDup (map fst counts) -> NoDup (map fst (bump counts id)).
Proof.
  intros ND. rewrite bump_keys.
  destruct (existsb _ _) eqn:E; [exact ND |].
  apply NoDup_app; [exact ND | repeat constructor; intros [] |].
  intros x Hx [<- | []]. apply existsb_In in Hx. congruence.
Qed.

Lemma bump_total counts id : total (bump counts id) = total counts + 1.
Proof.
  induction counts as [| [k0 n] rest IH]; cbn [bump total fold_right snd].
  - lia.
  - destruct (String.eqb k0 id); cbn [total fold_right snd].
    + destruct (n =? 0) eqn:N; [apply Z.eqb_eq in N |]; lia.
    + fold (total (bump rest id)). fold (total rest). lia.
Qed.

(** *** The scan *)

Lemma strict_eq_sym_some id k :
  strict_eq (Some id) (Some k) = String.eqb id k.
Proof. reflexivity. Qed.

Lemma scan_facts l : forall counts,
  NoDup (map fst counts) ->
  NoDup (map fst (fold_left step l counts))
  /\ (forall k, lookup (fold_left step l counts) k = lookup counts k + hits k l)
  /\ total (fold_left step l counts) = total counts + counted l
  /\ (forall k, In k (map fst (fold_left step l counts)) <->
                In k (map fst counts) \/ 0 < hits k l).
Proof.
  induction l as [| o l IH]; intros counts ND.
  - cbn [fold_left]. unfold hits, counted. cbn.
    repeat split; try assumption; try lia; intuition lia.
  - cbn [fold_left].
    assert (ND' : NoDup (map fst (step counts o)))
      by (destruct o; cbn [step]; [apply bump_NoDup |]; assumption).
    destruct (IH _ ND') as (N & Lk & Tt & Ks).
    split; [exact N |]. split; [| split].
    + intros k. rewrite Lk. unfold hits. cbn [filter].
      destruct o as [id |]; cbn [step strict_eq].
      * rewrite bump_lookup. destruct (String.eqb id k); cbn [List.length]; lia.
      * lia.
    + rewrite Tt. unfold counted. cbn [filter].
      destruct o as [id |]; cbn [step]; [rewrite bump_total; cbn [List.length] |]; lia.
    + intros k. rewrite Ks. unfold hits. cbn [filter].
      destruct o as [id |]; cbn [step strict_eq].
      * rewrite bump_keys.
        destruct (existsb (String.eqb id) (map fst counts)) eqn:E.
        -- apply existsb_In in E.
           destruct (String.eqb id k) eqn:K; cbn [List.length].
           ++ apply String.eqb_eq in K. subst. intuition lia.
           ++ tauto.
        -- rewrite in_app_iff. cbn [In].
           destruct (String.eqb id k) eqn:K; cbn [List.length].
           ++ apply String.eqb_eq in K. subst. intuition lia.
           ++ apply String.eqb_neq in K. intuition congruence.
      * tauto.
Qed.

Lemma countCells_steps g :
  countCells g = fold_left step (map (countedId g) (allCells g)) [].
Proof.
  rewrite countCells_scan, fold_left_map. apply fold_left_ext.
  intros a c. apply visitCell_counted.
Qed.

Lemma hits_occurrences g id :
  hits id (map (countedId g) (allCells g)) = occurrences g id.
Proof.
  unfold hits, occurrences. rewrite filter_map_swap, length_map. reflexivity.
Qed.

Lemma lookup_entry counts id n :
  NoDup (map fst counts) -> In (id, n) counts -> lookup counts id = n.
Proof.
  induction counts as [| [k0 n0] rest IH]; intros ND H; [destruct H |].
  cbn [map fst] in ND. inversion ND as [| ? ? Hn ND']; subst.
  cbn [lookup]. destruct H as [E | H].
  - injection E as -> ->. rewrite String.eqb_refl. reflexivity.
  - destruct (String.eqb k0 id) eqn:E; [| apply IH; assumption].
    apply String.eqb_eq in E. subst k0. exfalso. apply Hn.
    apply in_map_iff. exists (id, n). split; [reflexivity | exact H].
Qed.

(** *** The sort *)

Lemma insert_perm m l : Permutation (insert m l) (m :: l).
Proof.
  induction l as [| h t IH]; cbn [insert]; [apply Permutation_refl |].
  destruct (count h - count m <? 0); [apply Permutation_refl |].
  apply perm_trans with (h :: m :: t); [apply perm_skip; exact IH | apply perm_swap].
Qed.

Lemma insert_sorted m l :
  StronglySorted notFewer l -> StronglySorted notFewer (insert m l).
Proof.
  intros S. induction S as [| h t St IH Fh]; cbn [insert].
  - repeat constructor.
  - destruct (count h - count m <? 0) eqn:E.
    + apply Z.ltb_lt in E. constructor; [constructor; assumption |].
      constructor; [unfold notFewer; lia |].
      eapply Forall_impl; [| exact Fh]. unfold notFewer. intros x Hx. lia.
    + apply Z.ltb_ge in E. constructor; [exact IH |].
      apply Forall_forall. intros x Hx.
      apply (Permutation_in _ (insert_perm m t)) in Hx.
      destruct Hx as [<- | Hx]; [unfold notFewer; lia |].
      rewrite Forall_forall in Fh. apply Fh. exact Hx.
Qed.

Lemma filter_none {A} (p : A -> bool) l :
  (forall x, In x l -> p x = false) -> filter p l = [].
Proof.
  induction l as [| a l IH]; intros H; [reflexivity |].
  cbn [filter]. rewrite (H a (or_introl eq_refl)). apply IH.
  intros x Hx. apply H. right. exact Hx.
Qed.

Lemma insert_withCount n m l :
  StronglySorted notFewer l ->
  withCount n (insert m l) = withCount n l ++ withCount n [m].
Proof.
  intros S. induction S as [| h t St IH Fh]; cbn [insert]; [reflexivity |].
  destruct (count h - count m <? 0) eqn:E.
  - apply Z.ltb_lt in E. unfold withCount. cbn [filter].
    destruct (count m =? n) eqn:M; [| rewrite app_nil_r; reflexivity].
    apply Z.eqb_eq in M.
    assert (N : filter (fun x => count x =? n) (h :: t) = []).
    { apply filter_none. intros x [<- | Hx]; apply Z.eqb_neq.
      - lia.
      - rewrite Forall_forall in Fh. specialize (Fh x Hx). unfold notFewer in Fh. lia. }
    cbn [filter] in N. rewrite N. reflexivity.
  - unfold withCount in *. cbn [filter]. rewrite IH.
    destruct (count h =? n); reflexivity.
Qed.

Lemma sort_facts l : forall sorted,
  StronglySorted notFewer sorted ->
  StronglySorted notFewer (fold_left (fun s m => insert m s) l sorted)
  /\ Permutation (fold_left (fun s m => insert m s) l sorted) (sorted ++ l)
  /\ forall n, withCount n (fold_left (fun s m => insert m s) l sorted)
               = withCount n sorted ++ withCount n l.
Proof.
  induction l as [| m l IH]; intros sorted S; cbn [fold_left].
  - rewrite app_nil_r. repeat split; [exact S | apply Permutation_refl |].
    intros n. unfold withCount. cbn. rewrite app_nil_r. reflexivity.
  - destruct (IH _ (insert_sorted m sorted S)) as (S' & P & W).
    split; [exact S' |]. split.
    + eapply perm_trans; [exact P |].
      eapply perm_trans; [apply Permutation_app_tail, insert_perm |].
      cbn [app]. apply Permutation_middle.
    + intros n. rewrite W, insert_withCount by exact S.
      rewrite <- app_assoc. f_equal.
      unfold withCount. cbn [filter]. destruct (count m =? n); reflexivity.
Qed.

End MaterialsFacts.

Module MaterialsProps.
Import JS BlockColors Spec Spec2 Materials MaterialsSpec MaterialsFacts AdapterFacts.

Section WithTextures.

Variable getTextureFile : option string -> option string.

Lemma computeMaterials_sort g :
  computeMaterials getTextureFile g = sortByCount (unsorted getTextureFile g).
Proof. reflexivity. Qed.

Lemma counts_facts g :
  NoDup (map fst (countCells g))
  /\ (forall k, lookup (countCells g) k = occurrences g k)
  /\ total (countCells g) = counted (map (countedId g) (allCells g))
  /\ (forall k, In k (map fst (countCells g)) <-> 0 < occurrences g k).
Proof.
  rewrite countCells_steps.
  destruct (scan_facts (map (countedId g) (allCells g)) [] (NoDup_nil _))
    as (N & Lk & Tt & Ks).
  split; [exact N |]. split; [| split].
  - intros k. rewrite Lk, hits_occurrences. cbn. lia.
  - rewrite Tt. cbn. lia.
  - intros k. rewrite Ks, hits_occurrences. cbn. tauto.
Qed.

End WithTextures.

(** X18. The materials list is sorted by count, largest first, and the
    sort is stable: block types with the same count stay in the order in
    which the scan first met them. *)
Theorem materials_sorted (getTextureFile : option string -> option string)
    (g : Schematic) (n : Z) :
  StronglySorted notFewer (computeMaterials getTextureFile g)
  /\ withCount n (computeMaterials getTextureFile g)
     = withCount n (unsorted getTextureFile g).
Proof.
  rewrite computeMaterials_sort. unfold sortByCount.
  destruct (sort_facts (unsorted getTextureFile g) [] (SSorted_nil _))
    as (S & _ & W).
  split; [exact S | apply W].
Qed.

(** X19. Every block type of the grid has exactly one entry in the
    materials list: the base identifiers of the entries are distinct, an
    identifier has an entry exactly when some cell is counted under it, and
    the count of the entry is the number of such cells (cells that are not
    air and have this base identifier), at least one. *)
Theorem materials_counts (getTextureFile : option string -> option string)
    (g : Schematic) :
  NoDup (map baseId (computeMaterials getTextureFile g))
  /\ (forall m, In m (computeMaterials getTextureFile g) ->
        1 <= count m /\ count m = occurrences g (baseId m)
        /\ name m = Names.getBlockDisplayName (Some ("minecraft:" ++ baseId m)%string))
  /\ (forall id, 0 < occurrences g id <->
                 exists m, In m (computeMaterials getTextureFile g) /\ baseId m = id).
Proof.
  destruct (counts_facts g) as (N & Lk & _ & Ks).
  rewrite computeMaterials_sort. unfold sortByCount.
  destruct (sort_facts (unsorted getTextureFile g) [] (SSorted_nil _))
    as (_ & P & _).
  cbn [app] in P.
  assert (Keys : map baseId (unsorted getTextureFile g) = map fst (countCells g)).
  { unfold unsorted. rewrite map_map. reflexivity. }
  assert (Entry : forall m, In m (unsorted getTextureFile g) ->
            In (baseId m, count m) (countCells g)
            /\ name m = Names.getBlockDisplayName
                          (Some ("minecraft:" ++ baseId m)%string)).
  { intros m Hm. unfold unsorted in Hm. apply in_map_iff in Hm.
    destruct Hm as [[k v] [<- He]]. cbn. split; [exact He | reflexivity]. }
  split; [| split].
  - apply (Permutation_NoDup (Permutation_sym (Permutation_map baseId P))).
    rewrite Keys. exact N.
  - intros m Hm. apply (Permutation_in _ P) in Hm.
    destruct (Entry m Hm) as [He Hn].
    assert (C : count m = occurrences g (baseId m)).
    { rewrite <- Lk. symmetry. apply lookup_entry; assumption. }
    split; [| split; assumption].
    assert (0 < occurrences g (baseId m)).
    { apply Ks. apply in_map_iff. exists (baseId m, count m). auto. }
    lia.
  - intros id. rewrite <- Ks, <- Keys. rewrite in_map_iff. split.
    + intros [m [E Hm]]. exists m. split; [| exact E].
      apply (Permutation_in _ (Permutation_sym P)). exact Hm.
    + intros [m [Hm E]]. exists m. split; [exact E |].
      apply (Permutation_in _ P). exact Hm.
Qed.

Lemma total_perm l l' :
  Permutation l l' ->
  fold_right (fun m a => count m + a) 0 l = fold_right (fun m a => count m + a) 0 l'.
Proof.
  intros P. induction P; cbn [fold_right]; lia.
Qed.

(** X20. The counts of the materials list add up to the number of cells
    that are not air and have a non-empty base identifier; this is never
    more than the number of cells that [isAir] classifies as not air. *)
Theorem materials_total (getTextureFile : option string -> option string)
    (g : Schematic) :
  fold_right (fun m a => count m + a) 0 (computeMaterials getTextureFile g)
  = Z.of_nat (List.length
      (filter (fun c => match countedId g c with Some _ => true | None => false end)
              (allCells g)))
  /\ fold_right (fun m a => count m + a) 0 (computeMaterials getTextureFile g)
     <= nonAirCells g.
Proof.
  destruct (counts_facts g) as (_ & _ & Tt & _).
  rewrite computeMaterials_sort. unfold sortByCount.
  destruct (sort_facts (unsorted getTextureFile g) [] (SSorted_nil _))
    as (_ & P & _).
  cbn [app] in P. rewrite (total_perm _ _ P).
  assert (E : fold_right (fun m a => count m + a) 0 (unsorted getTextureFile g)
              = total (countCells g)).
  { clear Tt P. unfold unsorted, total. induction (countCells g) as [| e l IH];
      cbn [map fold_right count]; [reflexivity | rewrite IH; reflexivity]. }
  rewrite E, Tt. unfold counted. rewrite filter_map_swap, length_map.
  split; [reflexivity |].
  unfold nonAirCells. apply inj_le. apply filter_length_mono.
  intros c _ H. unfold countedId in H.
  destruct (isAir _); [discriminate | reflexivity].
Qed.

End MaterialsProps.

Module PlacedFacts.
Import App Placed FloodFacts.

Lemma get_set_same pb layer s : get (set pb layer s) layer = Some s.
Proof.
  induction pb as [| [k old] rest IH]; cbn [set get].
  - rewrite Z.eqb_refl. reflexivity.
  - destruct (k =? layer) eqn:E; cbn [get]; rewrite E; [reflexivity | exact IH].
Qed.

Lemma get_set_other pb layer layer' s :
  layer' <> layer -> get (set pb layer s) layer' = get pb layer'.
Proof.
  intros N. induction pb as [| [k old] rest IH]; cbn [set get].
  - destruct (layer =? layer') eqn:E; [apply Z.eqb_eq in E; congruence | reflexivity].
  - destruct (k =? layer) eqn:E; cbn [get].
    + apply Z.eqb_eq in E. subst k.
      destruct (layer =? layer') eqn:E'; [apply Z.eqb_eq in E'; congruence | reflexivity].
    + rewrite IH. reflexivity.
Qed.

Lemma cell_eqb_sym a b : cell_eqb a b = cell_eqb b a.
Proof.
  unfold cell_eqb. rewrite (Z.eqb_sym (fst a)), (Z.eqb_sym (snd a)). reflexivity.
Qed.

Lemma has_app s t key : has (s ++ t) key = has s key || has t key.
Proof. unfold has. apply existsb_app. Qed.

Lemma has_add s k key : has (add s k) key = has s key || cell_eqb key k.
Proof.
  unfold add. destruct (has s k) eqn:E.
  - destruct (cell_eqb key k) eqn:K; [| rewrite orb_false_r; reflexivity].
    apply cell_eqb_eq in K. subst. rewrite E. reflexivity.
  - rewrite has_app. unfold has at 2. cbn [existsb]. rewrite orb_false_r. reflexivity.
Qed.

Lemma has_delete s k key : has (delete s k) key = has s key && negb (cell_eqb key k).
Proof.
  unfold delete, has. induction s as [| c s IH]; cbn [filter existsb]; [reflexivity |].
  destruct (cell_eqb k c) eqn:K; cbn [negb existsb].
  - rewrite IH. apply cell_eqb_eq in K. subst c.
    destruct (cell_eqb key k); cbn; [rewrite andb_false_r |]; reflexivity.
  - rewrite IH. destruct (cell_eqb key c) eqn:C; cbn [orb]; [| reflexivity].
    apply cell_eqb_eq in C. subst c. rewrite cell_eqb_sym, K. reflexivity.
Qed.

Lemma has_adds cells : forall s key,
  has (fold_left add cells s) key = has s key || has cells key.
Proof.
  induction cells as [| k cells IH]; intros s key; cbn [fold_left].
  - unfold has at 3. cbn. rewrite orb_false_r. reflexivity.
  - rewrite IH, has_add. unfold has at 4. cbn [existsb]. fold (has cells key).
    rewrite orb_assoc. reflexivity.
Qed.

Lemma has_deletes cells : forall s key,
  has (fold_left delete cells s) key = has s key && negb (has cells key).
Proof.
  induction cells as [| k cells IH]; intros s key; cbn [fold_left].
  - unfold has at 3. cbn. rewrite andb_true_r. reflexivity.
  - rewrite IH, has_delete. unfold has at 4. cbn [existsb]. fold (has cells key).
    rewrite negb_orb, andb_assoc. reflexivity.
Qed.

Lemma toggle_has pb layer cells key layer' :
  isPlaced (togglePlaced pb layer cells) layer' key
  = if layer' =? layer then
      if forallb (isPlaced pb layer) cells
      then isPlaced pb layer key && negb (has cells key)
      else isPlaced pb layer key || has cells key
    else isPlaced pb layer' key.
Proof.
  unfold togglePlaced, isPlaced.
  destruct (layer' =? layer) eqn:E.
  - apply Z.eqb_eq in E. subst layer'.
    destruct (get pb layer) as [s |] eqn:G.
    + rewrite G.
      destruct (forallb (fun key0 => has s key0) cells);
        rewrite get_set_same; [apply has_deletes | apply has_adds].
    + rewrite get_set_same.
      assert (F : forallb (fun _ : cell => false) cells
                  = forallb (fun key0 => has [] key0) cells) by reflexivity.
      rewrite F.
      destruct (forallb (fun key0 => has [] key0) cells);
        rewrite get_set_same; [apply has_deletes | apply has_adds].
  - apply Z.eqb_neq in E.
    destruct (get pb layer) as [s |] eqn:G.
    + rewrite G. destruct (forallb _ cells); rewrite get_set_other by exact E;
        reflexivity.
    + rewrite get_set_same.
      destruct (forallb _ cells); rewrite !get_set_other by exact E; reflexivity.
Qed.

Lemma forallb_const {A} (l : list A) (b : bool) :
  l <> [] -> forallb (fun _ => b) l = b.
Proof.
  intros N. induction l as [| a l IH]; [congruence |].
  cbn [forallb]. destruct l as [| a' l]; [cbn; apply andb_true_r |].
  rewrite IH by discriminate. apply andb_diag.
Qed.

End PlacedFacts.

Module PlacedProps.
Import App Placed FloodFacts PlacedFacts.

(** X21. What [togglePlaced] does to the placed marks. When every cell
    of the group was marked, every cell of the group is unmarked; when some
    cell of the group was not marked, every cell of the group is marked.
    Nothing else changes: cells of the layer outside the group and all
    cells of other layers keep their marks. *)
Theorem toggle_effect (placedBlocks : PlacedBlocks) (layer : Z) (cells : list cell) :
  ((forall key, In key cells -> isPlaced placedBlocks layer key = true) ->
   forall key, In key cells ->
     isPlaced (togglePlaced placedBlocks layer cells) layer key = false)
  /\ ((exists key, In key cells /\ isPlaced placedBlocks layer key = false) ->
      forall key, In key cells ->
        isPlaced (togglePlaced placedBlocks layer cells) layer key = true)
  /\ (forall key, ~ In key cells ->
        isPlaced (togglePlaced placedBlocks layer cells) layer key
        = isPlaced placedBlocks layer key)
  /\ (forall layer' key, layer' <> layer ->
        isPlaced (togglePlaced placedBlocks layer cells) layer' key
        = isPlaced placedBlocks layer' key).
Proof.
  split; [| split; [| split]].
  - intros All key Hk. rewrite toggle_has, Z.eqb_refl.
    assert (F : forallb (isPlaced placedBlocks layer) cells = true)
      by (apply forallb_forall; exact All).
    rewrite F. apply has_In in Hk. rewrite Hk. apply andb_false_r.
  - intros [k0 [Hk0 Unmarked]] key Hk. rewrite toggle_has, Z.eqb_refl.
    assert (F : forallb (isPlaced placedBlocks layer) cells = false).
    { destruct (forallb (isPlaced placedBlocks layer) cells) eqn:E; [| reflexivity].
      rewrite forallb_forall in E. rewrite (E k0 Hk0) in Unmarked. discriminate. }
    rewrite F. apply has_In in Hk. rewrite Hk. apply orb_true_r.
  - intros key Out. rewrite toggle_has, Z.eqb_refl.
    assert (H : has cells key = false).
    { destruct (has cells key) eqn:E; [| reflexivity].
      apply has_In in E. contradiction. }
    rewrite H. cbn [negb].
    destruct (forallb (isPlaced placedBlocks layer) cells);
      [apply andb_true_r | apply orb_false_r].
  - intros layer' key N. rewrite toggle_has.
    apply Z.eqb_neq in N. rewrite N. reflexivity.
Qed.

(** X22. After a toggle the cells of a group all carry the same mark, and
    a second toggle of the same group then removes or sets it again: for a
    group that was uniformly marked or uniformly unmarked, two toggles
    restore every mark of every layer. *)
Theorem toggle_twice (placedBlocks : PlacedBlocks) (layer : Z) (cells : list cell)
    (b : bool) :
  (forall key, In key cells -> isPlaced placedBlocks layer key = b) ->
  (forall key, In key cells ->
     isPlaced (togglePlaced placedBlocks layer cells) layer key = negb b)
  /\ forall layer' key,
       isPlaced (togglePlaced (togglePlaced placedBlocks layer cells) layer cells)
                layer' key
       = isPlaced placedBlocks layer' key.
Proof.
  intros U.
  assert (F : cells <> [] -> forallb (isPlaced placedBlocks layer) cells = b).
  { intros N. rewrite <- (forallb_const cells b N).
    clear N. induction cells as [| c cells IH]; [reflexivity |].
    cbn [forallb]. rewrite U by (left; reflexivity).
    rewrite IH; [reflexivity |]. intros k Hk. apply U. right. exact Hk. }
  destruct cells as [| c0 cells0] eqn:EC.
  { split; [intros key []|]. intros layer' key. rewrite !toggle_has. cbn [forallb].
    destruct (layer' =? layer) eqn:E; [| reflexivity].
    apply Z.eqb_eq in E. subst layer'. rewrite Z.eqb_refl.
    unfold has. cbn [existsb negb]. rewrite !andb_true_r. reflexivity. }
  rewrite <- EC in *. assert (N : cells <> []) by (rewrite EC; discriminate).
  specialize (F N). clear EC c0 cells0.
  assert (One : forall key, In key cells ->
            isPlaced (togglePlaced placedBlocks layer cells) layer key = negb b).
  { intros key Hk. rewrite toggle_has, Z.eqb_refl, F.
    assert (Hh : has cells key = true) by (apply has_In; exact Hk).
    rewrite Hh, (U key Hk). destruct b; reflexivity. }
  split; [exact One |].
  intros layer' key.
  assert (F2 : forallb (isPlaced (togglePlaced placedBlocks layer cells) layer) cells
               = negb b).
  { rewrite <- (forallb_const cells (negb b) N).
    clear N F U. induction cells as [| c cells IH]; [reflexivity |].
    cbn [forallb]. rewrite One by (left; reflexivity).
    f_equal.
    assert (G : forall l, (forall k, In k l -> In k (c :: cells)) ->
                forallb (isPlaced (togglePlaced placedBlocks layer (c :: cells)) layer) l
                = forallb (fun _ => negb b) l).
    { induction l as [| a l IHl]; intros Sub; [reflexivity |].
      cbn [forallb]. rewrite One by (apply Sub; left; reflexivity).
      rewrite IHl; [reflexivity |]. intros k Hk. apply Sub. right. exact Hk. }
    apply G. intros k Hk. right. exact Hk. }
  rewrite toggle_has. destruct (layer' =? layer) eqn:E.
  - apply Z.eqb_eq in E. subst layer'. rewrite F2.
    rewrite toggle_has, Z.eqb_refl, F.
    destruct (has cells key) eqn:Hh.
    + apply has_In in Hh. rewrite (U key Hh). destruct b; reflexivity.
    + destruct b; cbn [negb]; rewrite ?andb_true_r, ?orb_false_r; reflexivity.
  - rewrite toggle_has, E. reflexivity.
Qed.

Lemma toggle_twice_witness :
  isPlaced (togglePlaced [(0, [(5, 5)])] 0 [(1, 2); (1, 3)]) 0 (1, 2) = true
  /\ isPlaced (togglePlaced (togglePlaced [(0, [(5, 5)])] 0 [(1, 2); (1, 3)])
                            0 [(1, 2); (1, 3)]) 0 (1, 3)
     = isPlaced [(0, [(5, 5)])] 0 (1, 3).
Proof.
  destruct (toggle_twice [(0, [(5, 5)])] 0 [(1, 2); (1, 3)] false) as [One Two].
  - intros key [<- | [<- | []]]; reflexivity.
  - split; [apply One; cbn; auto | apply Two].
Defined.

End PlacedProps.

Module LayerProps.
Import Layers.

(** X23. [changeLayer] keeps the current layer a layer of the grid: for a
    grid of at least one layer the new current layer is the old one moved
    by [delta] and clamped to [0 .. height - 1]; the highlight is cleared
    exactly when the layer changed, and nothing else changes. *)
Theorem changeLayer_clamps (v : View) (delta : Z) (s : Schematic) :
  schematic v = Some s ->
  1 <= height s ->
  0 <= currentLayer (changeLayer v delta) <= height s - 1
  /\ (0 <= currentLayer v + delta <= height s - 1 ->
      currentLayer (changeLayer v delta) = currentLayer v + delta)
  /\ schematic (changeLayer v delta) = schematic v
  /\ (currentLayer (changeLayer v delta) = currentLayer v -> changeLayer v delta = v)
  /\ (currentLayer (changeLayer v delta) <> currentLayer v ->
      highlightedGroup (changeLayer v delta) = None
      /\ highlightBounds (changeLayer v delta) = None).
Proof.
  intros S H. unfold changeLayer. rewrite S.
  destruct (Z.max 0 (Z.min (height s - 1) (currentLayer v + delta)) =? currentLayer v)
    eqn:E; cbn [negb].
  - apply Z.eqb_eq in E. repeat split; try lia; try congruence.
  - apply Z.eqb_neq in E. cbn [currentLayer schematic highlightedGroup highlightBounds].
    repeat split; try lia; try congruence.
Qed.

Lemma changeLayer_clamps_witness :
  0 <= currentLayer (changeLayer (mkView (Some Examples2.towerGrid) 0 None None) 1)
    <= height Examples2.towerGrid - 1.
Proof.
  apply (changeLayer_clamps (mkView (Some Examples2.towerGrid) 0 None None) 1
           Examples2.towerGrid); [reflexivity | cbn; lia].
Defined.

End LayerProps.

Module InteractionFacts.
Import JS BlockColors App Spec Layers Placed Interaction FloodFacts FloodMoreFacts
  PlacedFacts.

Lemma strict_eq_eq a b : strict_eq a b = true <-> a = b.
Proof.
  destruct a as [x |], b as [y |]; cbn [strict_eq].
  - rewrite String.eqb_eq. split; congruence.
  - split; discriminate.
  - split; discriminate.
  - tauto.
Qed.

Lemma stackLoop_run g x z baseId n : forall y acc,
  0 <= stackLoop g x z baseId n y acc - acc <= Z.of_nat n
  /\ (forall y', y <= y' < y + (stackLoop g x z baseId n y acc - acc) ->
        isAir (getBlock g x y' z) = false
        /\ getBaseBlockId (getBlock g x y' z) = baseId)
  /\ (stackLoop g x z baseId n y acc - acc < Z.of_nat n ->
        isAir (getBlock g x (y + (stackLoop g x z baseId n y acc - acc)) z) = true
        \/ getBaseBlockId (getBlock g x (y + (stackLoop g x z baseId n y acc - acc)) z)
           <> baseId).
Proof.
  induction n as [| n IH]; intros y acc.
  - cbn [stackLoop]. replace (acc - acc) with 0 by lia.
    split; [cbn; lia |]. split; [intros; lia | cbn; lia].
  - cbn [stackLoop].
    destruct (isAir (getBlock g x y z)) eqn:A.
    { replace (acc - acc) with 0 by lia. rewrite Z.add_0_r.
      split; [lia |]. split; [intros; lia | intros _; left; exact A]. }
    destruct (strict_eq (getBaseBlockId (getBlock g x y z)) baseId) eqn:E.
    + apply strict_eq_eq in E.
      destruct (IH (y + 1) (acc + 1)) as (R & In_run & Stop).
      set (k := stackLoop g x z baseId n (y + 1) (acc + 1)) in *.
      split; [lia |]. split.
      * intros y' Hy. destruct (Z.eq_dec y' y) as [-> | N]; [auto |].
        apply In_run. lia.
      * intros Hk. replace (y + (k - acc)) with (y + 1 + (k - (acc + 1))) by lia.
        apply Stop. lia.
    + replace (acc - acc) with 0 by lia. rewrite Z.add_0_r.
      split; [lia |]. split; [intros; lia |].
      intros _. right. intros C. apply strict_eq_eq in C. congruence.
Qed.

(** [floodFill] answers within its iteration budget on every grid that
    answers only inside its dimensions. *)
Lemma floodFill_total g layer x z :
  bounded g -> exists o, floodFill g layer x z = Some o.
Proof.
  intros Hb.
  destruct (getBaseBlockId (getBlock g x layer z)) as [id |] eqn:B.
  - destruct (truthy (Some id)) eqn:T.
    + destruct (isAir (Some ("minecraft:" ++ id)%string)) eqn:A.
      * exists None. unfold floodFill, floodFillWith. rewrite B, T, A. reflexivity.
      * destruct (floodFill_runs g layer x z id Hb B T A) as [r Hr].
        exists (Some r). exact Hr.
    + exists None. unfold floodFill, floodFillWith. rewrite B, T. reflexivity.
  - exists None. unfold floodFill, floodFillWith. rewrite B. reflexivity.
Qed.

Lemma forallb_all {A} (f : A -> bool) l b :
  l <> [] -> (forall a, In a l -> f a = b) -> forallb f l = b.
Proof.
  intros N U. rewrite <- (forallb_const l b N). clear N.
  induction l as [| a l IH]; [reflexivity |].
  cbn [forallb]. rewrite U by (left; reflexivity).
  rewrite IH; [reflexivity |]. intros k Hk. apply U. right. exact Hk.
Qed.

(** After a toggle the cells of the group carry one mark. *)
Lemma toggle_uniform pb layer cells c d :
  In c cells -> In d cells ->
  isPlaced (togglePlaced pb layer cells) layer c
  = isPlaced (togglePlaced pb layer cells) layer d.
Proof.
  intros Hc Hd. rewrite !toggle_has, Z.eqb_refl.
  apply has_In in Hc. apply has_In in Hd. rewrite Hc, Hd.
  destruct (forallb (isPlaced pb layer) cells); cbn [negb];
    rewrite ?andb_false_r, ?orb_true_r; reflexivity.
Qed.

(** A toggle changes marks of the group only. *)
Lemma toggle_changes pb layer cells layer' key :
  isPlaced (togglePlaced pb layer cells) layer' key <> isPlaced pb layer' key ->
  layer' = layer /\ In key cells.
Proof.
  rewrite toggle_has. destruct (layer' =? layer) eqn:E; [| congruence].
  apply Z.eqb_eq in E. subst layer'. intros N. split; [reflexivity |].
  apply has_In. destruct (has cells key); [reflexivity |].
  exfalso. apply N.
  destruct (forallb (isPlaced pb layer) cells); cbn [negb];
    rewrite ?andb_true_r, ?orb_false_r; reflexivity.
Qed.

End InteractionFacts.

Module InteractionProps.
Import JS BlockColors App Spec Layers Placed Interaction FloodFacts FloodMoreFacts
  PlacedFacts InteractionFacts.

(** X24. The stack indicator counts the blocks stacked on a cell: the
    layers directly above the current one, up to the counted number, hold a
    block that is not air and has the base identifier of the cell, and the
    run is maximal: the next layer is the top of the grid, air, or a block
    with another base identifier. *)
Theorem stack_count_run (g : Schematic) (layer x z : Z) :
  0 <= stackCount g layer x z <= Z.max 0 (height g - 1 - layer)
  /\ (forall y, layer < y <= layer + stackCount g layer x z ->
        isAir (getBlock g x y z) = false
        /\ getBaseBlockId (getBlock g x y z)
           = getBaseBlockId (getBlock g x layer z))
  /\ (layer + stackCount g layer x z + 1 < height g ->
        isAir (getBlock g x (layer + stackCount g layer x z + 1) z) = true
        \/ getBaseBlockId (getBlock g x (layer + stackCount g layer x z + 1) z)
           <> getBaseBlockId (getBlock g x layer z)).
Proof.
  unfold stackCount.
  destruct (stackLoop_run g x z (getBaseBlockId (getBlock g x layer z))
              (Z.to_nat (height g - (layer + 1))) (layer + 1) 0)
    as (R & In_run & Stop).
  set (k := stackLoop g x z _ _ _ 0) in *.
  rewrite Z.sub_0_r in *.
  split; [lia |]. split.
  - intros y Hy. apply In_run. lia.
  - intros Hk. replace (layer + k + 1) with (layer + 1 + k) by lia.
    apply Stop. lia.
Qed.

(** X25. A click toggles one connected group. On a grid that answers
    only inside its dimensions the [mouseup] listener always finishes; the
    marks it changes are marks of the current layer, of cells connected to
    the clicked cell; and when it toggled a region, all cells of that region
    carry the same mark afterwards. *)
Theorem click_toggles_component (v : View) (g : Schematic)
    (placedBlocks : PlacedBlocks) (wasDrag : bool) (bx bz : Z) :
  schematic v = Some g ->
  bounded g ->
  exists after,
    mouseup v placedBlocks wasDrag bx bz = Some after
    /\ (forall layer key,
          isPlaced after layer key <> isPlaced placedBlocks layer key ->
          wasDrag = false /\ layer = currentLayer v
          /\ isAir (getBlock g bx (currentLayer v) bz) = false
          /\ connected g (currentLayer v) bx bz key)
    /\ (wasDrag = false ->
        isAir (getBlock g bx (currentLayer v) bz) = false ->
        forall r, floodFill g (currentLayer v) bx bz = Some (Some r) ->
          after = togglePlaced placedBlocks (currentLayer v) (cells r)
          /\ forall c d, In c (cells r) -> In d (cells r) ->
               isPlaced after (currentLayer v) c = isPlaced after (currentLayer v) d).
Proof.
  intros S Hb. unfold mouseup. rewrite S.
  destruct (floodFill_total g (currentLayer v) bx bz Hb) as [o Ho].
  assert (Keep : forall layer key,
            isPlaced placedBlocks layer key <> isPlaced placedBlocks layer key ->
            wasDrag = false /\ layer = currentLayer v
            /\ isAir (getBlock g bx (currentLayer v) bz) = false
            /\ connected g (currentLayer v) bx bz key)
    by (intros ? ? N; congruence).
  destruct wasDrag; cbn [negb].
  { exists placedBlocks. split; [reflexivity |]. split; [exact Keep | discriminate]. }
  destruct (isAir (getBlock g bx (currentLayer v) bz)) eqn:A; cbn [negb].
  { exists placedBlocks.
    split; [destruct (_ && _); reflexivity |]. split; [exact Keep | discriminate]. }
  destruct o as [r |].
  - destruct (floodFill_region g (currentLayer v) bx bz r Hb Ho)
      as (_ & Comp & _ & _ & _ & _ & id & Hid & _).
    destruct (start_invariant g (currentLayer v) bx bz id Hb Hid) as [_ Hs].
    assert (In_range : (bx >=? 0) && (bx <? width g) && (bz >=? 0) && (bz <? length g)
                       = true).
    { rewrite !andb_true_iff, !Z.geb_le, !Z.ltb_lt. lia. }
    rewrite In_range, Ho.
    exists (togglePlaced placedBlocks (currentLayer v) (cells r)).
    split; [reflexivity |]. split.
    + intros layer key N. apply toggle_changes in N. destruct N as [-> Hk].
      repeat split. apply Comp. exact Hk.
    + intros _ _ r' E. injection E as <-. split; [reflexivity |].
      intros c d. apply toggle_uniform.
  - exists placedBlocks. rewrite Ho.
    split; [destruct (_ && _); reflexivity |]. split; [exact Keep |].
    intros _ _ r E. discriminate.
Qed.

Lemma click_toggles_component_witness :
  exists after,
    mouseup (mkView (Some Examples2.stairsGrid) 0 None None) [] false 0 0 = Some after
    /\ isPlaced after 0 (2, 1) = isPlaced after 0 (0, 0).
Proof.
  destruct (click_toggles_component (mkView (Some Examples2.stairsGrid) 0 None None)
              Examples2.stairsGrid [] false 0 0 eq_refl FloodMore.stairsGrid_bounded)
    as (after & E & _ & U).
  exists after. split; [exact E |].
  destruct (U eq_refl eq_refl Examples2.stairsRegion) as [_ Same].
  - exact FloodMore.stairsGrid_filled.
  - apply Same; cbn; auto.
Defined.

(** X26. What is highlighted after the pointer moved onto another cell of
    the grid. On a grid that answers only inside its dimensions
    [updateTooltip] always finishes and remembers the cell; the highlighted
    group, when there is one, is the connected group of the hovered cell,
    which is then not air, and the highlighted bounds are those of this
    group; nothing is highlighted on air. *)
Theorem hover_highlights_component (st : Hover) (g : Schematic) (bx bz : Z) :
  schematic (view st) = Some g ->
  bounded g ->
  0 <= bx < width g -> 0 <= bz < length g ->
  bx <> lastHoverX st \/ bz <> lastHoverZ st ->
  exists st',
    updateTooltip st bx bz = Some st'
    /\ lastHoverX st' = bx /\ lastHoverZ st' = bz
    /\ schematic (view st') = Some g
    /\ currentLayer (view st') = currentLayer (view st)
    /\ highlightedGroup (view st') = option_map cells (highlightBounds (view st'))
    /\ highlightBounds (view st')
       = (if isAir (getBlock g bx (currentLayer (view st)) bz) then None
          else match floodFill g (currentLayer (view st)) bx bz with
               | Some o => o
               | None => None
               end)
    /\ (forall group, highlightedGroup (view st') = Some group ->
          isAir (getBlock g bx (currentLayer (view st)) bz) = false
          /\ In (bx, bz) group
          /\ forall c, In c group <-> connected g (currentLayer (view st)) bx bz c).
Proof.
  intros S Hb Hx Hz Moved. unfold updateTooltip. rewrite S.
  assert (R : (bx <? 0) || (bx >=? width g) || (bz <? 0) || (bz >=? length g) = false).
  { rewrite !Z.geb_leb, !orb_false_iff, !Z.ltb_ge, !Z.leb_gt. lia. }
  assert (M : negb (bx =? lastHoverX st) || negb (bz =? lastHoverZ st) = true).
  { destruct Moved as [N | N]; apply Z.eqb_neq in N; rewrite N;
      cbn [negb orb]; [reflexivity | apply orb_true_r]. }
  rewrite R, M.
  destruct (isAir (getBlock g bx (currentLayer (view st)) bz)) eqn:A.
  { eexists. split; [reflexivity |].
    cbn [view lastHoverX lastHoverZ clearHighlight schematic currentLayer
         highlightedGroup highlightBounds option_map].
    repeat split; try assumption; discriminate. }
  destruct (floodFill_total g (currentLayer (view st)) bx bz Hb) as [o Ho].
  rewrite Ho. destruct o as [r |].
  - eexists. split; [reflexivity |].
    cbn [view lastHoverX lastHoverZ clearHighlight schematic currentLayer
         highlightedGroup highlightBounds option_map].
    repeat split; try assumption; try reflexivity;
      injection H as <-;
      destruct (floodFill_region g (currentLayer (view st)) bx bz r Hb Ho)
        as (_ & Comp & _).
    + apply Comp. apply connected_start. unfold member. cbn [fst snd]. auto.
    + apply Comp.
    + apply Comp.
  - eexists. split; [reflexivity |].
    cbn [view lastHoverX lastHoverZ clearHighlight schematic currentLayer
         highlightedGroup highlightBounds option_map].
    repeat split; try assumption; discriminate.
Qed.

Lemma hover_highlights_component_witness :
  exists st',
    updateTooltip (mkHover (mkView (Some Examples2.stairsGrid) 0 None None) (-1) (-1))
                  0 0 = Some st'
    /\ highlightBounds (view st') = Some Examples2.stairsRegion.
Proof.
  destruct (hover_highlights_component
              (mkHover (mkView (Some Examples2.stairsGrid) 0 None None) (-1) (-1))
              Examples2.stairsGrid 0 0 eq_refl FloodMore.stairsGrid_bounded)
    as (st' & E & _ & _ & _ & _ & _ & B & _);
    [cbn; lia | cbn; lia | left; cbn; lia |].
  exists st'. split; [exact E |]. rewrite B.
  cbn [view currentLayer]. rewrite FloodMore.stairsGrid_filled. reflexivity.
Defined.

(** X27. The highlight is recomputed only when the hovered cell changes,
    and [changeLayer] does not forget the hovered cell. So after a change
    of layer the pointer resting on the same cell highlights nothing,
    whatever block the new layer holds there. *)
Theorem stale_hover_after_layer_change (st : Hover) (g : Schematic) (delta : Z) :
  schematic (view st) = Some g ->
  0 <= lastHoverX st < width g -> 0 <= lastHoverZ st < length g ->
  currentLayer (changeLayer (view st) delta) <> currentLayer (view st) ->
  exists st',
    updateTooltip (mkHover (changeLayer (view st) delta) (lastHoverX st) (lastHoverZ st))
                  (lastHoverX st) (lastHoverZ st) = Some st'
    /\ currentLayer (view st') = Z.max 0 (Z.min (height g - 1) (currentLayer (view st) + delta))
    /\ highlightedGroup (view st') = None
    /\ highlightBounds (view st') = None.
Proof.
  intros S Hx Hz Changed. unfold updateTooltip.
  cbn [view lastHoverX lastHoverZ].
  assert (C : changeLayer (view st) delta
              = mkView (Some g)
                  (Z.max 0 (Z.min (height g - 1) (currentLayer (view st) + delta)))
                  None None).
  { unfold changeLayer in *. rewrite S in *.
    destruct (Z.max 0 (Z.min (height g - 1) (currentLayer (view st) + delta))
              =? currentLayer (view st)); cbn [negb] in *; [congruence | reflexivity]. }
  rewrite C. cbn [schematic].
  assert (R : (lastHoverX st <? 0) || (lastHoverX st >=? width g)
              || (lastHoverZ st <? 0) || (lastHoverZ st >=? length g) = false).
  { rewrite !Z.geb_leb, !orb_false_iff, !Z.ltb_ge, !Z.leb_gt. lia. }
  rewrite R, !Z.eqb_refl. cbn [negb orb].
  eexists. split; [reflexivity |]. cbn. auto.
Qed.

Lemma stale_hover_after_layer_change_witness :
  exists st',
    updateTooltip
      (mkHover (changeLayer (mkView (Some Examples2.towerGrid) 0 None None) 1) 0 0)
      0 0 = Some st'
    /\ highlightedGroup (view st') = None.
Proof.
  destruct (stale_hover_after_layer_change
              (mkHover (mkView (Some Examples2.towerGrid) 0 None None) 0 0)
              Examples2.towerGrid 1 eq_refl)
    as (st' & E & _ & G & _); [cbn; lia | cbn; lia | cbn; lia |].
  exists st'. split; [exact E | exact G].
Defined.

End InteractionProps.

Module PerimeterFacts.
Import App Perimeter PerimeterSpec.

Lemma zmap_get_set_same m k v : get (set m k v) k = Some v.
Proof.
  induction m as [| [k' old] rest IH]; cbn [set get].
  - rewrite Z.eqb_refl. reflexivity.
  - destruct (k' =? k) eqn:E; cbn [get]; rewrite E; [reflexivity | exact IH].
Qed.

Lemma zmap_get_set_other m k k' v : k' <> k -> get (set m k v) k' = get m k'.
Proof.
  intros N. induction m as [| [k0 old] rest IH]; cbn [set get].
  - destruct (k =? k') eqn:E; [apply Z.eqb_eq in E; congruence | reflexivity].
  - destruct (k0 =? k) eqn:E; cbn [get].
    + apply Z.eqb_eq in E. subst k0.
      destruct (k =? k') eqn:E'; [apply Z.eqb_eq in E'; congruence | reflexivity].
    + rewrite IH. reflexivity.
Qed.

Lemma get_None m k : get m k = None <-> ~ In k (keys m).
Proof.
  induction m as [| [k' v] rest IH]; cbn [get keys map In fst].
  - tauto.
  - destruct (k' =? k) eqn:E.
    + apply Z.eqb_eq in E. split; [discriminate | intros N; exfalso; auto].
    + apply Z.eqb_neq in E. fold (keys rest). rewrite IH. tauto.
Qed.

Lemma keys_set_new m k v : get m k = None -> keys (set m k v) = keys m ++ [k].
Proof.
  induction m as [| [k' old] rest IH]; cbn [get set keys map fst app]; [reflexivity |].
  destruct (k' =? k); [discriminate |]. intros G.
  cbn [map fst]. fold (keys (set rest k v)). rewrite (IH G). reflexivity.
Qed.

Lemma keys_set_old m k v w : get m k = Some w -> keys (set m k v) = keys m.
Proof.
  induction m as [| [k' old] rest IH]; cbn [get set keys map fst]; [discriminate |].
  destruct (k' =? k); [reflexivity |]. intros G.
  cbn [map fst]. fold (keys (set rest k v)). rewrite (IH G). reflexivity.
Qed.

Section Extreme.

Variables keyOf lineOf : cell -> Z.
Variable before : Z -> Z -> bool.
Hypothesis before_irrefl : forall a, before a a = false.
Hypothesis before_trans : forall a v x,
  before a v = true -> before x v = false -> before x a = false.

Lemma note_inv m P c :
  NoDup (keys m) ->
  (forall k, In k (keys m) <-> exists c', In c' P /\ keyOf c' = k) ->
  (forall k v, get m k = Some v ->
     (exists c', In c' P /\ keyOf c' = k /\ lineOf c' = v)
     /\ forall c', In c' P -> keyOf c' = k -> before (lineOf c') v = false) ->
  NoDup (keys (note keyOf lineOf before m c))
  /\ (forall k, In k (keys (note keyOf lineOf before m c))
                <-> exists c', In c' (P ++ [c]) /\ keyOf c' = k)
  /\ (forall k v, get (note keyOf lineOf before m c) k = Some v ->
        (exists c', In c' (P ++ [c]) /\ keyOf c' = k /\ lineOf c' = v)
        /\ forall c', In c' (P ++ [c]) -> keyOf c' = k ->
             before (lineOf c') v = false).
Proof.
  intros ND Dom Val.
  assert (Snoc : forall c', In c' (P ++ [c]) <-> In c' P \/ c' = c).
  { intros c'. rewrite in_app_iff. cbn [In]. intuition congruence. }
  assert (Fresh : forall k v,
            (get m (keyOf c) = None
             \/ exists w, get m (keyOf c) = Some w /\ before (lineOf c) w = true) ->
            get (set m (keyOf c) (lineOf c)) k = Some v ->
            (exists c', In c' (P ++ [c]) /\ keyOf c' = k /\ lineOf c' = v)
            /\ forall c', In c' (P ++ [c]) -> keyOf c' = k ->
                 before (lineOf c') v = false).
  { intros k v Why G. destruct (Z.eq_dec k (keyOf c)) as [-> | N].
    - rewrite zmap_get_set_same in G. injection G as <-. split.
      + exists c. rewrite Snoc. auto.
      + intros c' Hc' K. apply Snoc in Hc'. destruct Hc' as [Hc' | ->];
          [| apply before_irrefl].
        destruct Why as [G | [w [G B]]].
        * exfalso. apply get_None in G. apply G. apply Dom. exists c'. auto.
        * apply (before_trans _ w); [exact B |].
          apply (proj2 (Val _ _ G)); assumption.
    - rewrite zmap_get_set_other in G by exact N.
      destruct (Val _ _ G) as [[c' [Hc' [K L]]] Best]. split.
      + exists c'. rewrite Snoc. auto.
      + intros c'' Hc'' K'. apply Snoc in Hc''. destruct Hc'' as [Hc'' | ->];
          [apply Best; assumption | congruence]. }
  unfold note. destruct (get m (keyOf c)) as [w |] eqn:G.
  - assert (Kin : In (keyOf c) (keys m)).
    { destruct (in_dec Z.eq_dec (keyOf c) (keys m)) as [I | I]; [exact I |].
      apply get_None in I. congruence. }
    assert (Dom' : forall k, In k (keys m)
                             <-> exists c', In c' (P ++ [c]) /\ keyOf c' = k).
    { intros k. rewrite Dom. split.
      - intros [c' [Hc' K]]. exists c'. rewrite Snoc. auto.
      - intros [c' [Hc' K]]. apply Snoc in Hc'. destruct Hc' as [Hc' | ->].
        + exists c'. auto.
        + apply Dom. congruence. }
    destruct (before (lineOf c) w) eqn:B.
    + rewrite (keys_set_old _ _ _ _ G). split; [exact ND |]. split; [exact Dom' |].
      intros k v. apply Fresh. right. exists w. auto.
    + split; [exact ND |]. split; [exact Dom' |].
      intros k v Gk. destruct (Val _ _ Gk) as [[c' [Hc' [K L]]] Best]. split.
      * exists c'. rewrite Snoc. auto.
      * intros c'' Hc'' K'. apply Snoc in Hc''. destruct Hc'' as [Hc'' | ->];
          [apply Best; assumption |].
        rewrite <- K', G in Gk. injection Gk as <-. exact B.
  - rewrite (keys_set_new _ _ _ G). split; [| split].
    + apply NoDup_app; [exact ND | repeat constructor; intros [] | ].
      intros k Hk [<- | []]. apply get_None in G. contradiction.
    + intros k. rewrite in_app_iff, Dom. cbn [In]. split.
      * intros [[c' [Hc' K]] | [<- | []]].
        -- exists c'. rewrite Snoc. auto.
        -- exists c. rewrite Snoc. auto.
      * intros [c' [Hc' K]]. apply Snoc in Hc'. destruct Hc' as [Hc' | ->].
        -- left. exists c'. auto.
        -- right. left. exact K.
    + intros k v. apply Fresh. left. reflexivity.
Qed.

Lemma fold_note_inv group : forall m P,
  NoDup (keys m) ->
  (forall k, In k (keys m) <-> exists c', In c' P /\ keyOf c' = k) ->
  (forall k v, get m k = Some v ->
     (exists c', In c' P /\ keyOf c' = k /\ lineOf c' = v)
     /\ forall c', In c' P -> keyOf c' = k -> before (lineOf c') v = false) ->
  NoDup (keys (fold_left (note keyOf lineOf before) group m))
  /\ (forall k, In k (keys (fold_left (note keyOf lineOf before) group m))
                <-> exists c', In c' (P ++ group) /\ keyOf c' = k)
  /\ (forall k v, get (fold_left (note keyOf lineOf before) group m) k = Some v ->
        (exists c', In c' (P ++ group) /\ keyOf c' = k /\ lineOf c' = v)
        /\ forall c', In c' (P ++ group) -> keyOf c' = k ->
             before (lineOf c') v = false).
Proof.
  induction group as [| c group IH]; intros m P ND Dom Val.
  - cbn [fold_left]. rewrite app_nil_r. auto.
  - cbn [fold_left].
    destruct (note_inv m P c ND Dom Val) as (ND' & Dom' & Val').
    replace (P ++ c :: group) with ((P ++ [c]) ++ group)
      by (rewrite <- app_assoc; reflexivity).
    apply IH; assumption.
Qed.

Lemma extreme_facts group :
  NoDup (keys (extreme keyOf lineOf before group))
  /\ (forall k, In k (keys (extreme keyOf lineOf before group))
                <-> exists c, In c group /\ keyOf c = k)
  /\ (forall k v, get (extreme keyOf lineOf before group) k = Some v ->
        (exists c, In c group /\ keyOf c = k /\ lineOf c = v)
        /\ forall c', In c' group -> keyOf c' = k ->
             before (lineOf c') v = false).
Proof.
  unfold extreme. apply (fold_note_inv group [] []).
  - constructor.
  - intros k. cbn. split; [tauto | intros [c [[] _]]].
  - intros k v G. discriminate.
Qed.

End Extreme.

(** *** The numeric sort *)

Lemma sortAsc_insert_perm x l : Permutation (insert x l) (x :: l).
Proof.
  induction l as [| h t IH]; cbn [insert]; [reflexivity |].
  destruct (x - h <? 0); [reflexivity |].
  rewrite IH. apply perm_swap.
Qed.

Lemma sortAsc_insert_sorted x l :
  StronglySorted Z.le l -> StronglySorted Z.le (insert x l).
Proof.
  induction l as [| h t IH]; intros S; cbn [insert].
  - repeat constructor.
  - inversion S as [| ? ? St Ft]; subst.
    destruct (x - h <? 0) eqn:E.
    + apply Z.ltb_lt in E. constructor; [exact S |].
      constructor; [lia |]. eapply Forall_impl; [| exact Ft]. cbn. intros; lia.
    + apply Z.ltb_ge in E. constructor; [apply IH; exact St |].
      apply (Permutation_Forall (Permutation_sym (sortAsc_insert_perm x t))).
      constructor; [lia | exact Ft].
Qed.

Lemma sortAsc_facts l : forall acc,
  StronglySorted Z.le acc ->
  StronglySorted Z.le (fold_left (fun sorted x => insert x sorted) l acc)
  /\ Permutation (fold_left (fun sorted x => insert x sorted) l acc) (acc ++ l).
Proof.
  induction l as [| x l IH]; intros acc S; cbn [fold_left].
  - rewrite app_nil_r. split; [exact S | reflexivity].
  - destruct (IH (insert x acc) (sortAsc_insert_sorted x acc S)) as [S' P'].
    split; [exact S' |]. rewrite P', sortAsc_insert_perm.
    apply Permutation_middle.
Qed.

Lemma sorted_strict l :
  NoDup l -> StronglySorted Z.le l -> StronglySorted Z.lt l.
Proof.
  induction l as [| h t IH]; intros ND S; [constructor |].
  inversion ND as [| ? ? Nh Nt]; subst. inversion S as [| ? ? St Ft]; subst.
  constructor; [apply IH; assumption |].
  rewrite Forall_forall in *. intros y Hy.
  assert (h <> y) by (intros ->; contradiction).
  specialize (Ft y Hy). lia.
Qed.

(** *** The segments *)

Lemma addKey_snoc init s k l :
  addKey (init ++ [s]) k l
  = init ++ (if same (line s) l && (k =? endK s + 1)
             then [mkSeg (startK s) k (line s)]
             else [s; mkSeg k k l]).
Proof.
  induction init as [| a init IH]; [reflexivity |].
  cbn [app addKey]. destruct (init ++ [s]) as [| b rest] eqn:E.
  - destruct init; discriminate.
  - rewrite IH. reflexivity.
Qed.

Lemma same_eq a b : same a b = true <-> a = b.
Proof.
  destruct a as [x |], b as [y |]; cbn [same].
  - rewrite Z.eqb_eq. split; congruence.
  - split; discriminate.
  - split; discriminate.
  - tauto.
Qed.

Lemma span_one k l : span (mkSeg k k l) = [k].
Proof.
  unfold span. cbn [startK endK]. replace (k - k + 1) with 1 by lia.
  change (Z.to_nat 1) with 1%nat. cbn [seq map Z.of_nat]. rewrite Z.add_0_r. reflexivity.
Qed.

Lemma span_grow s k :
  startK s <= endK s -> k = endK s + 1 ->
  span (mkSeg (startK s) k (line s)) = span s ++ [k].
Proof.
  intros R ->. unfold span. cbn [startK endK].
  replace (Z.to_nat (endK s + 1 - startK s + 1))
    with (S (Z.to_nat (endK s - startK s + 1))) by lia.
  rewrite seq_S, map_app. cbn [map]. f_equal. f_equal. lia.
Qed.

Lemma In_span s k : In k (span s) <-> startK s <= k <= endK s.
Proof.
  unfold span. rewrite in_map_iff. split.
  - intros [i [<- Hi]]. apply in_seq in Hi. lia.
  - intros R. exists (Z.to_nat (k - startK s)). split; [lia |].
    apply in_seq. lia.
Qed.

Lemma nth_error_snoc {A} (l : list A) (x : A) i :
  nth_error (l ++ [x]) i
  = if (i <? List.length l)%nat then nth_error l i
    else if (i =? List.length l)%nat then Some x else None.
Proof.
  destruct (i <? List.length l)%nat eqn:E.
  - apply Nat.ltb_lt in E. apply nth_error_app1. exact E.
  - apply Nat.ltb_ge in E. rewrite nth_error_app2 by exact E.
    destruct (i =? List.length l)%nat eqn:E'.
    + apply Nat.eqb_eq in E'. subst i. rewrite Nat.sub_diag. reflexivity.
    + apply Nat.eqb_neq in E'.
      destruct (i - List.length l)%nat as [| j] eqn:J; [lia |].
      cbn. destruct j; reflexivity.
Qed.

Section Segments.

Variable m : ZMap.

Lemma addKey_inv prefix segs k :
  flat_map span segs = prefix ->
  Forall (fun s => startK s <= endK s
                   /\ forall j, startK s <= j <= endK s -> get m j = line s) segs ->
  (forall i s1 s2, nth_error segs i = Some s1 -> nth_error segs (S i) = Some s2 ->
     startK s2 = endK s1 + 1 -> line s1 <> line s2) ->
  flat_map span (addKey segs k (get m k)) = prefix ++ [k]
  /\ Forall (fun s => startK s <= endK s
                      /\ forall j, startK s <= j <= endK s -> get m j = line s)
            (addKey segs k (get m k))
  /\ (forall i s1 s2,
        nth_error (addKey segs k (get m k)) i = Some s1 ->
        nth_error (addKey segs k (get m k)) (S i) = Some s2 ->
        startK s2 = endK s1 + 1 -> line s1 <> line s2).
Proof.
  intros Cover Good Sep.
  destruct (rev segs) as [| s rinit] eqn:R.
  { assert (segs = []) by (apply (f_equal (@rev _)) in R;
                           rewrite rev_involutive in R; exact R).
    subst segs. cbn [addKey flat_map] in *. subst prefix.
    rewrite span_one. split; [reflexivity |]. split.
    - constructor; [| constructor]. cbn [startK endK line].
      split; [lia |]. intros j Hj. replace j with k by lia. reflexivity.
    - intros [| i] s1 s2 H1 H2; cbn in H2; [discriminate |].
      destruct i; discriminate. }
  assert (E : segs = rev rinit ++ [s]).
  { apply (f_equal (@rev _)) in R. rewrite rev_involutive in R. exact R. }
  set (init := rev rinit) in *. clearbody init. clear R rinit. subst segs.
  rewrite addKey_snoc.
  rewrite flat_map_app in Cover. cbn [flat_map] in Cover. rewrite app_nil_r in Cover.
  apply Forall_app in Good. destruct Good as [GoodI GoodS].
  inversion GoodS as [| ? ? [Rs Gs] _]; subst.
  destruct (same (line s) (get m k) && (k =? endK s + 1)) eqn:C.
  - apply andb_true_iff in C. destruct C as [Sm Adj].
    apply same_eq in Sm. apply Z.eqb_eq in Adj.
    split; [| split].
    + rewrite flat_map_app. cbn [flat_map]. rewrite app_nil_r.
      rewrite (span_grow s k Rs Adj), app_assoc. reflexivity.
    + apply Forall_app. split; [exact GoodI |]. constructor; [| constructor].
      cbn [startK endK line]. split; [lia |]. intros j Hj.
      destruct (Z.eq_dec j k) as [-> | N]; [congruence | apply Gs; lia].
    + intros i s1 s2 H1 H2. rewrite nth_error_snoc in H1, H2.
      destruct (S i <? List.length init)%nat eqn:L2.
      * apply Nat.ltb_lt in L2.
        assert (L1 : (i <? List.length init)%nat = true) by (apply Nat.ltb_lt; lia).
        rewrite L1 in H1. apply (Sep i).
        -- rewrite nth_error_snoc, L1. exact H1.
        -- rewrite nth_error_snoc. apply Nat.ltb_lt in L2. rewrite L2. exact H2.
      * destruct (S i =? List.length init)%nat eqn:L3; [| discriminate].
        apply Nat.eqb_eq in L3.
        assert (L1 : (i <? List.length init)%nat = true) by (apply Nat.ltb_lt; lia).
        rewrite L1 in H1. injection H2 as <-. cbn [startK line].
        apply (Sep i).
        -- rewrite nth_error_snoc, L1. exact H1.
        -- rewrite nth_error_snoc, L2. apply Nat.eqb_eq in L3. rewrite L3. reflexivity.
  - split; [| split].
    + rewrite flat_map_app. cbn [flat_map]. rewrite app_nil_r, span_one.
      rewrite app_assoc. reflexivity.
    + apply Forall_app. split; [exact GoodI |].
      constructor; [auto |]. constructor; [| constructor].
      cbn [startK endK line]. split; [lia |]. intros j Hj.
      replace j with k by lia. reflexivity.
    + intros i s1 s2 H1 H2.
      replace (init ++ [s; mkSeg k k (get m k)])
        with ((init ++ [s]) ++ [mkSeg k k (get m k)]) in H1, H2
        by (rewrite <- app_assoc; reflexivity).
      rewrite nth_error_snoc in H1, H2.
      destruct (S i <? List.length (init ++ [s]))%nat eqn:L2.
      * apply Nat.ltb_lt in L2.
        assert (L1 : (i <? List.length (init ++ [s]))%nat = true)
          by (apply Nat.ltb_lt; lia).
        rewrite L1 in H1. apply (Sep i); assumption.
      * destruct (S i =? List.length (init ++ [s]))%nat eqn:L3; [| discriminate].
        apply Nat.eqb_eq in L3.
        assert (L1 : (i <? List.length (init ++ [s]))%nat = true)
          by (apply Nat.ltb_lt; lia).
        rewrite L1 in H1. injection H2 as <-. cbn [startK line].
        rewrite nth_error_snoc in H1. rewrite length_app in L3. cbn in L3.
        assert (L4 : (i <? List.length init)%nat = false) by (apply Nat.ltb_ge; lia).
        assert (L5 : (i =? List.length init)%nat = true) by (apply Nat.eqb_eq; lia).
        rewrite L4, L5 in H1. injection H1 as <-.
        intros Adj Sm.
        assert (same (line s) (get m k) = true) by (apply same_eq; exact Sm).
        assert ((k =? endK s + 1) = true) by (apply Z.eqb_eq; exact Adj).
        rewrite andb_false_iff in C. destruct C; congruence.
Qed.

Lemma segs_inv ks : forall prefix segs,
  flat_map span segs = prefix ->
  Forall (fun s => startK s <= endK s
                   /\ forall j, startK s <= j <= endK s -> get m j = line s) segs ->
  (forall i s1 s2, nth_error segs i = Some s1 -> nth_error segs (S i) = Some s2 ->
     startK s2 = endK s1 + 1 -> line s1 <> line s2) ->
  flat_map span (fold_left (fun segs k => addKey segs k (get m k)) ks segs)
  = prefix ++ ks
  /\ Forall (fun s => startK s <= endK s
                      /\ forall j, startK s <= j <= endK s -> get m j = line s)
            (fold_left (fun segs k => addKey segs k (get m k)) ks segs)
  /\ (forall i s1 s2,
        nth_error (fold_left (fun segs k => addKey segs k (get m k)) ks segs) i
        = Some s1 ->
        nth_error (fold_left (fun segs k => addKey segs k (get m k)) ks segs) (S i)
        = Some s2 ->
        startK s2 = endK s1 + 1 -> line s1 <> line s2).
Proof.
  induction ks as [| k ks IH]; intros prefix segs Cover Good Sep.
  - cbn [fold_left]. rewrite app_nil_r. auto.
  - cbn [fold_left].
    destruct (addKey_inv prefix segs k Cover Good Sep) as (C' & G' & S').
    replace (prefix ++ k :: ks) with ((prefix ++ [k]) ++ ks)
      by (rewrite <- app_assoc; reflexivity).
    apply IH; assumption.
Qed.

End Segments.

(** The segments of a map of extremes are the runs of the edge. *)
Lemma runs_of (keyOf lineOf : cell -> Z) (before : Z -> Z -> bool)
    (better : Z -> Z -> Prop) (group : list cell) (m : ZMap) (ks : list Z) :
  (forall a b, before a b = false -> better b a) ->
  NoDup ks ->
  (forall k, In k ks <-> exists c, In c group /\ keyOf c = k) ->
  (forall k, In k (keys m) <-> exists c, In c group /\ keyOf c = k) ->
  (forall k v, get m k = Some v ->
     (exists c, In c group /\ keyOf c = k /\ lineOf c = v)
     /\ forall c', In c' group -> keyOf c' = k -> before (lineOf c') v = false) ->
  edgeRuns keyOf lineOf better group (segsOf m (sortAsc ks)).
Proof.
  intros Better ND Hks Dom Val.
  destruct (sortAsc_facts ks [] (SSorted_nil _)) as [Sorted Perm].
  cbn [app] in Perm. fold (sortAsc ks) in Sorted, Perm.
  destruct (segs_inv m (sortAsc ks) [] []) as (Cover & Good & Sep).
  { reflexivity. }
  { constructor. }
  { intros [| i] s1 s2 H; discriminate. }
  cbn [app] in Cover. fold (segsOf m (sortAsc ks)) in Cover, Good, Sep.
  unfold edgeRuns. rewrite Cover. split; [| split; [| split]].
  - apply sorted_strict; [| exact Sorted].
    apply (Permutation_NoDup (Permutation_sym Perm)). exact ND.
  - intros k. rewrite <- Hks. split; apply Permutation_in;
      [exact Perm | apply Permutation_sym; exact Perm].
  - intros s Hs. rewrite Forall_forall in Good. destruct (Good s Hs) as [R G].
    split; [exact R |]. intros k Hk.
    assert (Ink : In k ks).
    { apply (Permutation_in _ Perm). rewrite <- Cover.
      apply in_flat_map. exists s. split; [exact Hs | apply In_span; exact Hk]. }
    destruct (get m k) as [v |] eqn:Gk.
    + destruct (Val k v Gk) as [[c [Hc [K L]]] Best].
      exists c. split; [exact Hc |]. split; [exact K |]. split.
      * rewrite <- (G k Hk), Gk, L. reflexivity.
      * intros c' Hc' K'. apply Better. rewrite L. apply Best; assumption.
    + exfalso. apply get_None in Gk. apply Gk. apply Dom. apply Hks. exact Ink.
  - intros l1 s1 s2 l2 E. apply (Sep (List.length l1)).
    + rewrite E, nth_error_app2 by lia. rewrite Nat.sub_diag. reflexivity.
    + rewrite E, nth_error_app2 by lia.
      replace (S (List.length l1) - List.length l1)%nat with 1%nat by lia. reflexivity.
Qed.

Lemma ltb_trans a v x : (a <? v) = true -> (x <? v) = false -> (x <? a) = false.
Proof. rewrite Z.ltb_lt, !Z.ltb_ge. lia. Qed.

Lemma gtb_trans a v x : (a >? v) = true -> (x >? v) = false -> (x >? a) = false.
Proof. rewrite !Z.gtb_ltb, Z.ltb_lt, !Z.ltb_ge. lia. Qed.

Lemma gtb_irrefl a : (a >? a) = false.
Proof. rewrite Z.gtb_ltb. apply Z.ltb_irrefl. Qed.

End PerimeterFacts.

Module PerimeterProps.
Import App Perimeter PerimeterSpec PerimeterFacts.

(** X28. The dimension lines of a highlighted group follow its perimeter.
    The top segments cover every column of the group once, from left to
    right; along a segment every column has its topmost cell on the line of
    the segment; and no two segments that touch are on the same line, so a
    segment is a whole straight run of the top edge. The same holds for
    the bottom segments with the bottommost cells, and for the left and
    right segments with the rows and their leftmost and rightmost cells. *)
Theorem segments_follow_perimeter (highlightedGroup : list cell) :
  edgeRuns fst snd Z.le highlightedGroup (topSegs highlightedGroup)
  /\ edgeRuns fst snd Z.ge highlightedGroup (botSegs highlightedGroup)
  /\ edgeRuns snd fst Z.le highlightedGroup (leftSegs highlightedGroup)
  /\ edgeRuns snd fst Z.ge highlightedGroup (rightSegs highlightedGroup).
Proof.
  destruct (extreme_facts fst snd Z.ltb Z.ltb_irrefl ltb_trans highlightedGroup)
    as (N1 & D1 & V1).
  destruct (extreme_facts fst snd Z.gtb gtb_irrefl gtb_trans highlightedGroup)
    as (N2 & D2 & V2).
  destruct (extreme_facts snd fst Z.ltb Z.ltb_irrefl ltb_trans highlightedGroup)
    as (N3 & D3 & V3).
  destruct (extreme_facts snd fst Z.gtb gtb_irrefl gtb_trans highlightedGroup)
    as (N4 & D4 & V4).
  split; [| split; [| split]].
  - apply (runs_of fst snd Z.ltb); [| exact N1 | exact D1 | exact D1 | exact V1].
    intros a b H. apply Z.ltb_ge in H. exact H.
  - apply (runs_of fst snd Z.gtb); [| exact N1 | exact D1 | exact D2 | exact V2].
    intros a b H. rewrite Z.gtb_ltb in H. apply Z.ltb_ge in H. lia.
  - apply (runs_of snd fst Z.ltb); [| exact N3 | exact D3 | exact D3 | exact V3].
    intros a b H. apply Z.ltb_ge in H. exact H.
  - apply (runs_of snd fst Z.gtb); [| exact N3 | exact D3 | exact D4 | exact V4].
    intros a b H. rewrite Z.gtb_ltb in H. apply Z.ltb_ge in H. lia.
Qed.

End PerimeterProps.

Module StacksFacts.
Import JS Spec2 Stacks.

Lemma uint_plain (x : ascii) (d : Decimal.uint) :
  (nat_of_ascii x >= 128)%nat -> occurs x (DecimalString.NilEmpty.string_of_uint d) = false.
Proof.
  intros Hx.
  assert (D : forall c, (nat_of_ascii c < 128)%nat -> Ascii.eqb c x = false).
  { intros c Hc. apply Ascii.eqb_neq. intros ->. lia. }
  induction d; cbn [DecimalString.NilEmpty.string_of_uint occurs]; [reflexivity | ..];
    rewrite IHd, D by (cbn; lia); reflexivity.
Qed.

Lemma number_plain (x : ascii) (z : Z) :
  (nat_of_ascii x >= 128)%nat -> occurs x (numberToString z) = false.
Proof.
  intros Hx. unfold numberToString.
  destruct (Z.to_int z) as [d | d]; cbn [DecimalString.NilEmpty.string_of_int occurs].
  - apply uint_plain. exact Hx.
  - rewrite uint_plain by exact Hx.
    assert (E : Ascii.eqb "-" x = false) by (apply Ascii.eqb_neq; intros <-; cbn in Hx; lia).
    rewrite E. reflexivity.
Qed.

Lemma numberToString_inj a b : numberToString a = numberToString b -> a = b.
Proof.
  unfold numberToString. intros E. apply DecimalZ.to_int_inj.
  apply (f_equal DecimalString.NilEmpty.int_of_string) in E.
  rewrite !DecimalString.NilEmpty.isi in E. congruence.
Qed.

Lemma occurs_app x s t : occurs x (s ++ t) = occurs x s || occurs x t.
Proof.
  induction s as [| c s IH]; cbn [append occurs]; [reflexivity |].
  rewrite IH. destruct (Ascii.eqb c x); reflexivity.
Qed.

Lemma head_of x s t : occurs x s = false -> split_head x (s ++ String x t) = s.
Proof.
  induction s as [| c s IH]; cbn [append occurs split_head].
  - rewrite Ascii.eqb_refl. reflexivity.
  - destruct (Ascii.eqb c x); [discriminate |]. cbn [orb].
    intros H. rewrite IH by exact H. reflexivity.
Qed.

Lemma append_cancel s x y : (s ++ x = s ++ y)%string -> x = y.
Proof.
  induction s as [| c s IH]; cbn [append]; [auto |].
  intros E. injection E as E. auto.
Qed.

Lemma count_of_parts a b :
  a / 64 = b / 64 -> Z.rem a 64 = Z.rem b 64 -> a = b.
Proof.
  intros Q R.
  pose proof (Z.rem_mod_nonneg a 64) as Ra.
  pose proof (Z.rem_mod_nonneg b 64) as Rb.
  destruct (Z_le_gt_dec 0 a) as [Ha | Ha], (Z_le_gt_dec 0 b) as [Hb | Hb].
  - rewrite Ra, Rb in R by lia.
    rewrite (Z.div_mod a 64), (Z.div_mod b 64) by lia. congruence.
  - exfalso. assert (0 <= a / 64) by (apply Z.div_pos; lia).
    assert (b / 64 < 0) by (apply Z.div_lt_upper_bound; lia). lia.
  - exfalso. assert (0 <= b / 64) by (apply Z.div_pos; lia).
    assert (a / 64 < 0) by (apply Z.div_lt_upper_bound; lia). lia.
  - pose proof (Z.rem_opp_l' a 64) as Oa. pose proof (Z.rem_opp_l' b 64) as Ob.
    assert (Ea : Z.rem a 64 = - ((- a) mod 64)).
    { rewrite <- Z.rem_mod_nonneg by lia. lia. }
    assert (Eb : Z.rem b 64 = - ((- b) mod 64)).
    { rewrite <- Z.rem_mod_nonneg by lia. lia. }
    assert (Em : (- a) mod 64 = (- b) mod 64) by lia.
    pose proof (Z.mod_pos_bound (- a) 64 ltac:(lia)).
    pose proof (Z.mod_pos_bound a 64 ltac:(lia)).
    pose proof (Z.mod_pos_bound b 64 ltac:(lia)).
    pose proof (Z.div_mod a 64 ltac:(lia)). pose proof (Z.div_mod b 64 ltac:(lia)).
    pose proof (Z.div_mod (- a) 64 ltac:(lia)).
    pose proof (Z.div_mod (- b) 64 ltac:(lia)).
    assert (a mod 64 = b mod 64); [| lia].
    destruct (Z.eq_dec ((- a) mod 64) 0) as [Z0 | NZ].
    + assert (a mod 64 = 0) by (apply Z.mod_opp_l_z in Z0; [| lia];
                                 rewrite Z.opp_involutive in Z0; exact Z0).
      assert (b mod 64 = 0).
      { rewrite Em in Z0. apply Z.mod_opp_l_z in Z0; [| lia].
        rewrite Z.opp_involutive in Z0. exact Z0. }
      lia.
    + assert (a mod 64 = 64 - (- a) mod 64).
      { rewrite <- (Z.opp_involutive a) at 1. apply Z.mod_opp_l_nz; lia. }
      assert (b mod 64 = 64 - (- b) mod 64).
      { rewrite <- (Z.opp_involutive b) at 1. apply Z.mod_opp_l_nz; lia. }
      lia.
Qed.

End StacksFacts.

Module StacksProps.
Import JS Spec2 Stacks StacksFacts.

(** X29. The stack notation loses nothing: two different counts are never
    shown as the same text. *)
Theorem formatStacks_distinct (a b : Z) :
  a <> b -> formatStacks a <> formatStacks b.
Proof.
  intros N E. apply N. clear N. unfold formatStacks in E. cbv zeta in E.
  assert (P : forall z, occurs "195" (numberToString z) = false)
    by (intros z; apply number_plain; cbn; lia).
  assert (Stem : forall z t,
            split_head "195" (numberToString z ++ String "195" t) = numberToString z)
    by (intros z t; apply head_of; apply P).
  assert (Mark : forall z t,
            occurs "195" (numberToString z ++ String "195" t) = true).
  { intros z t. rewrite occurs_app. cbn [occurs]. rewrite Ascii.eqb_refl.
    apply orb_true_r. }
  destruct (a / 64 =? 0) eqn:A0, (b / 64 =? 0) eqn:B0.
  - apply numberToString_inj. exact E.
  - exfalso. apply (f_equal (occurs "195")) in E. rewrite P in E.
    destruct (Z.rem b 64 =? 0); change "×64"%string with (String "195" (String "151" "64")) in E;
      change ("×64 + " ++ numberToString (Z.rem b 64))%string
        with (String "195" (String "151" ("64 + " ++ numberToString (Z.rem b 64)))) in E;
      rewrite Mark in E; discriminate.
  - exfalso. apply (f_equal (occurs "195")) in E. rewrite P in E.
    destruct (Z.rem a 64 =? 0); change "×64"%string with (String "195" (String "151" "64")) in E;
      change ("×64 + " ++ numberToString (Z.rem a 64))%string
        with (String "195" (String "151" ("64 + " ++ numberToString (Z.rem a 64)))) in E;
      rewrite Mark in E; discriminate.
  - assert (Q : a / 64 = b / 64).
    { apply numberToString_inj.
      apply (f_equal (split_head "195")) in E.
      destruct (Z.rem a 64 =? 0), (Z.rem b 64 =? 0);
        change "×64"%string with (String "195" (String "151" "64")) in E;
        change ("×64 + " ++ numberToString (Z.rem a 64))%string
          with (String "195" (String "151" ("64 + " ++ numberToString (Z.rem a 64)))) in E;
        change ("×64 + " ++ numberToString (Z.rem b 64))%string
          with (String "195" (String "151" ("64 + " ++ numberToString (Z.rem b 64)))) in E;
        rewrite !Stem in E; exact E. }
    apply count_of_parts; [exact Q |].
    rewrite Q in E.
    destruct (Z.rem a 64 =? 0) eqn:RA, (Z.rem b 64 =? 0) eqn:RB;
      apply append_cancel in E.
    + apply Z.eqb_eq in RA, RB. congruence.
    + exfalso. cbn [append] in E. discriminate.
    + exfalso. cbn [append] in E. discriminate.
    + cbn [append] in E. injection E as E. apply numberToString_inj. exact E.
Qed.

Lemma formatStacks_distinct_witness : formatStacks 64 <> formatStacks 70.
Proof. apply (formatStacks_distinct 64 70). lia. Defined.

End StacksProps.

Module LoaderFacts.
Import JS Names Loader StringFacts.

Lemma split_app sep s t :
  split sep (s ++ String sep t) = (split sep s ++ split sep t)%list.
Proof.
  induction s as [| c s IH]; cbn [append split].
  - rewrite Ascii.eqb_refl. reflexivity.
  - destruct (Ascii.eqb c sep); [rewrite IH; reflexivity |].
    rewrite IH. destruct (split sep s) as [| w ws] eqn:E.
    + exfalso. apply (split_nonempty sep s). exact E.
    + reflexivity.
Qed.

Lemma split_plain sep s : includes s sep = false -> split sep s = [s].
Proof.
  induction s as [| c s IH]; cbn [includes split]; [reflexivity |].
  destruct (Ascii.eqb c sep); [discriminate |]. cbn [orb].
  intros H. rewrite IH by exact H. reflexivity.
Qed.

Lemma last_app_one {A} (l : list A) (x d : A) : List.last (l ++ [x]) d = x.
Proof. apply last_last. Qed.

Lemma includes_app s t c : includes (s ++ t) c = includes s c || includes t c.
Proof.
  induction s as [| d s IH]; cbn [append includes]; [reflexivity |].
  rewrite IH. apply orb_assoc.
Qed.

Lemma last_segment stem e :
  includes e "." = false ->
  List.last (split "." (stem ++ String "." e)) EmptyString = e.
Proof.
  intros H. rewrite split_app, (split_plain "." e H). apply last_last.
Qed.

Lemma strip_stem stem e :
  includes e "." = false -> e <> EmptyString ->
  stripExtension (stem ++ String "." e) = stem.
Proof.
  intros H N. induction stem as [| c stem IH]; cbn [append stripExtension].
  - rewrite H. destruct e; [congruence | reflexivity].
  - rewrite includes_app. cbn [includes]. rewrite Ascii.eqb_refl.
    cbn [orb]. rewrite orb_true_r. cbn [negb]. rewrite !andb_false_r, IH.
    reflexivity.
Qed.

End LoaderFacts.

Module LoaderProps.
Import JS Names Loader StringFacts LoaderFacts.

(** X30. How [loadFile] reads a file name [stem.e] whose last part [e] is
    not empty: the parser is chosen by [e] alone, whatever its case; a name
    the parser left at [Unnamed] becomes the file name without its last
    extension, dots inside the stem being kept; an error of the parser is
    reported and no other extension is read at all. *)
Theorem loadFile_by_name (localeCompare : string -> string -> comparison)
    (stem e : string) (asSchem : Schem.Nbt) (asLitematic : Litematic.Nbt) :
  includes e "." = false ->
  e <> EmptyString ->
  loadFile localeCompare (stem ++ String "." e) asSchem asLitematic
  = if (toLowerCase e =? "schem")%string then
      match Schem.parseSchem asSchem with
      | inl err => Failed err
      | inr g => Loaded (if (name g =? "Unnamed")%string then withName g stem else g)
      end
    else if (toLowerCase e =? "litematic")%string then
      match Litematic.parseLitematic localeCompare asLitematic with
      | inl err => Failed err
      | inr g => Loaded (if (name g =? "Unnamed")%string then withName g stem else g)
      end
    else Unsupported.
Proof.
  intros H N. unfold loadFile, extensionOf.
  rewrite (last_segment stem e H), (strip_stem stem e H N).
  destruct (toLowerCase e =? "schem")%string eqn:S; cbn [negb andb].
  - destruct (Schem.parseSchem asSchem) as [err | g]; [reflexivity |].
    destruct (name g =? "Unnamed")%string; reflexivity.
  - destruct (toLowerCase e =? "litematic")%string; cbn [negb]; [| reflexivity].
    destruct (Litematic.parseLitematic localeCompare asLitematic) as [err | g];
      [reflexivity |].
    destruct (name g =? "Unnamed")%string; reflexivity.
Qed.

Lemma loadFile_by_name_witness :
  loadFile Examples.codeUnitCompare ("my.castle" ++ String "." "SCHEM")
    Examples.stairsSchem Examples.bareAirLitematic
  = Loaded (withName Examples2.stairsGrid "my.castle").
Proof.
  etransitivity.
  - apply (loadFile_by_name Examples.codeUnitCompare "my.castle" "SCHEM"
             Examples.stairsSchem Examples.bareAirLitematic eq_refl).
    discriminate.
  - vm_compute. reflexivity.
Defined.

End LoaderProps.
